(** * deploy.js: synchronising a local directory tree to an S3 bucket

  A shallow embedding of [deploy.js] and the properties of its
  reconciliation algorithm.

  Conventions.
  - JavaScript strings are Rocq [string]s (sequences of 8-bit code units);
    a string decoded by [JSON.parse] is a list of UTF-16 code units.
  - A [Buffer] is a [list byte].
  - The plain object [s3Map] is a record of its own properties (a [gmap])
    and its prototype link, see [Module Dict].
  - Asynchronous code is modelled by explicit state passing: a state holds
    what is in flight, and a schedule (the order and outcome of the I/O
    completions, chosen by the environment) drives it.  Theorems quantify
    over all schedules. *)

From Stdlib Require Import ZArith Ascii String List Lia Bool DecimalString.
From Stdlib.Strings Require Import Byte.
From stdpp Require Import base decidable option list gmap strings fin_maps.

Set Warnings "-clear-no-such-hyp".

Local Open Scope string_scope.
Local Open Scope list_scope.

(** ** Strings as character lists *)

(** The double quote character. *)
Definition dq : ascii := "034"%char.

Definition chars (s : string) : list ascii := list_ascii_of_string s.
Definition str (l : list ascii) : string := string_of_list_ascii l.

(** ** Node's [path] module (POSIX flavour) *)

Module Path.

Definition isSlash (c : ascii) : bool := Ascii.eqb c "/".
Definition isDot (c : ascii) : bool := Ascii.eqb c ".".

Fixpoint dropWhile (p : ascii → bool) (l : list ascii) : list ascii :=
  match l with
  | c :: r => if p c then dropWhile p r else l
  | [] => []
  end.

Fixpoint takeWhile (p : ascii → bool) (l : list ascii) : list ascii :=
  match l with
  | c :: r => if p c then c :: takeWhile p r else []
  | [] => []
  end.

(** The last portion of a path, read backwards: trailing separators are
    ignored, then everything up to the next separator is taken. *)
Definition lastPortionRev (path : list ascii) : list ascii :=
  takeWhile (λ c, negb (isSlash c)) (dropWhile isSlash (rev path)).

Definition lastPortion (path : string) : string :=
  str (rev (lastPortionRev (chars path))).

(** [extnameRev b] works on the reversed last portion [b]: the extension
    runs from the last dot to the end, and is empty when there is no dot,
    when the only dot is the first character, or when the portion is
    [..]. *)
Definition extnameRev (b : list ascii) : list ascii :=
  let ext := takeWhile (λ c, negb (isDot c)) b in
  match dropWhile (λ c, negb (isDot c)) b with
  | [] => []                                  (* no dot *)
  | _ :: [] => []                             (* the dot starts the portion *)
  | d :: _ =>
      if decide (b = ["."; "."]%char) then [] else ext ++ [d]
  end.

(** [path.extname(path)] *)
Definition extname (path : string) : string :=
  str (rev (extnameRev (lastPortionRev (chars path)))).

Fixpoint stripPrefix (pre l : list ascii) : option (list ascii) :=
  match pre, l with
  | [], _ => Some l
  | a :: pre', b :: l' => if Ascii.eqb a b then stripPrefix pre' l' else None
  | _ :: _, [] => None
  end.

(** [path.basename(path, ext)]: the last portion, without [ext] when [ext]
    is not empty and the portion ends with it. *)
Definition basename (path ext : string) : string :=
  let f := lastPortionRev (chars path) in
  match chars ext with
  | [] => str (rev f)
  | e => match stripPrefix (rev e) f with
         | Some f' => str (rev f')
         | None => str (rev f)
         end
  end.

Fixpoint joinWith (sep : list ascii) (parts : list (list ascii)) : list ascii :=
  match parts with
  | [] => []
  | [p] => p
  | p :: ps => p ++ sep ++ joinWith sep ps
  end.

(** Split at every separator: ["a//b"] gives [a], the empty segment, [b]. *)
Fixpoint splitSlash (cur : list ascii) (l : list ascii) : list (list ascii) :=
  match l with
  | [] => [rev cur]
  | c :: r => if isSlash c then rev cur :: splitSlash [] r
              else splitSlash (c :: cur) r
  end.

(** One step of [normalizeString]: segments are pushed on a stack (newest
    first); an empty segment or [.] is skipped, [..] pops a real segment
    or, in a relative path, is kept when there is nothing to pop. *)
Definition pushSegment (allowAboveRoot : bool) (stack : list (list ascii))
    (seg : list ascii) : list (list ascii) :=
  if decide (seg = []) then stack
  else if decide (seg = ["."]%char) then stack
  else if decide (seg = ["."; "."]%char) then
    match stack with
    | top :: below =>
        if decide (top = ["."; "."]%char) then seg :: stack else below
    | [] => if allowAboveRoot then [seg] else []
    end
  else seg :: stack.

Definition normalizeString (allowAboveRoot : bool) (l : list ascii) : list ascii :=
  joinWith ["/"%char]
    (rev (fold_left (pushSegment allowAboveRoot) (splitSlash [] l) [])).

Definition lastIsSlash (l : list ascii) : bool :=
  match rev l with c :: _ => isSlash c | [] => false end.

(** [path.normalize(path)] *)
Definition normalize (path : list ascii) : list ascii :=
  match path with
  | [] => ["."%char]
  | c :: _ =>
      let isAbsolute := isSlash c in
      let body := normalizeString (negb isAbsolute) path in
      let body := match body with
                  | [] => if isAbsolute then [] else ["."%char]
                  | _ => body
                  end in
      let body := match body with
                  | [] => []
                  | _ => if lastIsSlash path then body ++ ["/"%char] else body
                  end in
      if isAbsolute then "/"%char :: body else body
  end.

(** [path.join(a, b)]: the non-empty arguments joined by a separator, then
    normalised. *)
Definition join (a b : string) : string :=
  let parts := filter (λ p, p ≠ []) [chars a; chars b] in
  match parts with
  | [] => "."
  | _ => str (normalize (joinWith ["/"%char] parts))
  end.

End Path.

(** ** [contentType] (deploy.js, lines 19-42) *)

Definition contentType (name : string) : string :=
let name :=
  if String.eqb (Path.extname name) ".gz"
  then Path.basename name (Path.extname name)
  else name in
let ext := Path.extname name in
if String.eqb ext "" then "text/html"
else if String.eqb ext ".htm" then "text/html"
else if String.eqb ext ".html" then "text/html"
else if String.eqb ext ".png" then "image/png"
else if String.eqb ext ".jpg" then "image/jpeg"
else if String.eqb ext ".jpeg" then "image/jpeg"
else if String.eqb ext ".js" then "text/javascript"
else if String.eqb ext ".css" then "text/css"
else if String.eqb ext ".svg" then "image/svg+xml"
else "application/octet-stream".


(** The table of the specification (section 4.1), to be compared with
    [contentType]. *)
Definition mimeTable : list (string * string) :=
  [ ("", "text/html"); (".htm", "text/html"); (".html", "text/html");
    (".png", "image/png"); (".jpg", "image/jpeg"); (".jpeg", "image/jpeg");
    (".js", "text/javascript"); (".css", "text/css");
    (".svg", "image/svg+xml") ].

Fixpoint assoc (k : string) (l : list (string * string)) : option string :=
  match l with
  | (k', v) :: r => if String.eqb k k' then Some v else assoc k r
  | [] => None
  end.

Definition mimeOf (ext : string) : string :=
  match assoc ext mimeTable with
  | Some m => m
  | None => "application/octet-stream"
  end.

(** [s] without its last [n] characters. *)
Definition dropSuffix (n : nat) (s : string) : string :=
  str (take (length (chars s) - n) (chars s)).

(** The name the specification inspects: a name whose extension is the
    compression suffix loses that suffix. *)
Definition withoutGz (name : string) : string :=
  if decide (Path.extname name = ".gz")
  then dropSuffix 3 (Path.lastPortion name)
  else name.
(** ** MD5 ([crypto.createHash('md5').update(data).digest('hex')]) *)

Module MD5.

Local Open Scope Z_scope.

Definition w32 (x : Z) : Z := x mod 2 ^ 32.

Definition rotl (x c : Z) : Z :=
  w32 (Z.lor (Z.shiftl x c) (Z.shiftr x (32 - c))).

Definition lnot32 (x : Z) : Z := Z.lxor x 4294967295.

Definition K : list Z :=
  [ 0xd76aa478; 0xe8c7b756; 0x242070db; 0xc1bdceee;
    0xf57c0faf; 0x4787c62a; 0xa8304613; 0xfd469501;
    0x698098d8; 0x8b44f7af; 0xffff5bb1; 0x895cd7be;
    0x6b901122; 0xfd987193; 0xa679438e; 0x49b40821;
    0xf61e2562; 0xc040b340; 0x265e5a51; 0xe9b6c7aa;
    0xd62f105d; 0x02441453; 0xd8a1e681; 0xe7d3fbc8;
    0x21e1cde6; 0xc33707d6; 0xf4d50d87; 0x455a14ed;
    0xa9e3e905; 0xfcefa3f8; 0x676f02d9; 0x8d2a4c8a;
    0xfffa3942; 0x8771f681; 0x6d9d6122; 0xfde5380c;
    0xa4beea44; 0x4bdecfa9; 0xf6bb4b60; 0xbebfbc70;
    0x289b7ec6; 0xeaa127fa; 0xd4ef3085; 0x04881d05;
    0xd9d4d039; 0xe6db99e5; 0x1fa27cf8; 0xc4ac5665;
    0xf4292244; 0x432aff97; 0xab9423a7; 0xfc93a039;
    0x655b59c3; 0x8f0ccc92; 0xffeff47d; 0x85845dd1;
    0x6fa87e4f; 0xfe2ce6e0; 0xa3014314; 0x4e0811a1;
    0xf7537e82; 0xbd3af235; 0x2ad7d2bb; 0xeb86d391 ].

Definition shifts : list Z :=
  [ 7; 12; 17; 22; 7; 12; 17; 22; 7; 12; 17; 22; 7; 12; 17; 22;
    5; 9; 14; 20; 5; 9; 14; 20; 5; 9; 14; 20; 5; 9; 14; 20;
    4; 11; 16; 23; 4; 11; 16; 23; 4; 11; 16; 23; 4; 11; 16; 23;
    6; 10; 15; 21; 6; 10; 15; 21; 6; 10; 15; 21; 6; 10; 15; 21 ].

Definition nthZ (l : list Z) (i : Z) : Z := nth (Z.to_nat i) l 0.

(** Little-endian decoding of 32-bit words. *)
Fixpoint words (bs : list Z) : list Z :=
  match bs with
  | b0 :: b1 :: b2 :: b3 :: r =>
      (b0 + 256 * b1 + 65536 * b2 + 16777216 * b3) :: words r
  | _ => []
  end.

Definition le_bytes (n : nat) (x : Z) : list Z :=
  map (λ i, (x / 256 ^ Z.of_nat i) mod 256) (seq 0 n).

(** Padding: a one bit, zeros up to 56 modulo 64, the bit length on 64
    bits. *)
Definition pad (msg : list Z) : list Z :=
  let len := Z.of_nat (length msg) in
  let zeros := Z.to_nat ((55 - len) mod 64) in
  msg ++ [128] ++ repeat 0 zeros ++ le_bytes 8 ((8 * len) mod 2 ^ 64).

Definition round (M : list Z) (st : Z * Z * Z * Z) (i : Z) : Z * Z * Z * Z :=
  let '(a, b, c, d) := st in
  let '(f, g) :=
    if i <? 16 then (Z.lor (Z.land b c) (Z.land (lnot32 b) d), i)
    else if i <? 32 then
      (Z.lor (Z.land d b) (Z.land (lnot32 d) c), (5 * i + 1) mod 16)
    else if i <? 48 then (Z.lxor b (Z.lxor c d), (3 * i + 5) mod 16)
    else (Z.lxor c (Z.lor b (lnot32 d)), (7 * i) mod 16) in
  let f := w32 (f + a + nthZ K i + nthZ M g) in
  (d, w32 (b + rotl f (nthZ shifts i)), b, c).

Definition block (st : Z * Z * Z * Z) (M : list Z) : Z * Z * Z * Z :=
  let '(a0, b0, c0, d0) := st in
  let '(a, b, c, d) := fold_left (round M) (map Z.of_nat (seq 0 64)) st in
  (w32 (a0 + a), w32 (b0 + b), w32 (c0 + c), w32 (d0 + d)).

Fixpoint blocks (n : nat) (ws : list Z) : list (list Z) :=
  match n with
  | O => []
  | S n => take 16 ws :: blocks n (drop 16 ws)
  end.

(** The 16 bytes of the digest. *)
Definition digest (data : list byte) : list Z :=
  let bs := pad (map (λ b, Z.of_N (Byte.to_N b)) data) in
  let ws := words bs in
  let '(a, b, c, d) :=
    fold_left block (blocks (length ws / 16) ws)
      (0x67452301, 0xefcdab89, 0x98badcfe, 0x10325476) in
  le_bytes 4 a ++ le_bytes 4 b ++ le_bytes 4 c ++ le_bytes 4 d.

Definition hexDigit (x : Z) : ascii :=
  nth (Z.to_nat (x mod 16)) (chars "0123456789abcdef") "0"%char.

Definition hexByte (x : Z) : list ascii := [hexDigit (x / 16); hexDigit x].

Definition hexOf (bs : list Z) : list ascii := concat (map hexByte bs).

(** [digest('hex')] *)
Definition hex (data : list byte) : string := str (hexOf (digest data)).

End MD5.

Definition bytesOf (s : string) : list byte := list_byte_of_string s.


(** ** [JSON.parse] *)

Module JSON.

(** A decoded string is a sequence of UTF-16 code units: an escape
    [\uXXXX] can denote a unit above 255. *)
#[local] Set Warnings "-register-all".
Inductive json :=
| JNull
| JBool (b : bool)
| JNumber (lexeme : string)
| JString (units : list N)
| JArray (items : list json)
| JObject (members : list (list N * json)).

Definition units (s : string) : list N := map N_of_ascii (chars s).

(** Result of a parsing function: a value and the unread input, a syntax
    error, or not enough fuel (which [parse] never meets, see
    [value_fuel]). *)
Inductive res :=
| Ok (v : json) (rest : list ascii)
| SyntaxError
| OutOfFuel.

Definition isChar (c : ascii) (lit : ascii) : bool := Ascii.eqb c lit.

Definition isWs (c : ascii) : bool :=
  isChar c " " || isChar c "009" || isChar c "010" || isChar c "013".

Definition isDigit (c : ascii) : bool :=
  (48 <=? N_of_ascii c)%N && (N_of_ascii c <=? 57)%N.

Fixpoint skipWs (s : list ascii) : list ascii :=
  match s with
  | c :: r => if isWs c then skipWs r else s
  | [] => []
  end.

Fixpoint spanDigits (s : list ascii) : list ascii * list ascii :=
  match s with
  | c :: r => if isDigit c then let '(ds, rest) := spanDigits r in (c :: ds, rest)
              else ([], s)
  | [] => ([], [])
  end.

Definition hexVal (c : ascii) : option N :=
  let n := N_of_ascii c in
  if isDigit c then Some (n - 48)%N
  else if (97 <=? n)%N && (n <=? 102)%N then Some (n - 87)%N
  else if (65 <=? n)%N && (n <=? 70)%N then Some (n - 55)%N
  else None.

Definition hex4 (a b c d : ascii) : option N :=
  match hexVal a, hexVal b, hexVal c, hexVal d with
  | Some x, Some y, Some z, Some w => Some (((x * 16 + y) * 16 + z) * 16 + w)%N
  | _, _, _, _ => None
  end.

Definition simpleEscape (c : ascii) : option N :=
  if isChar c dq then Some 34%N
  else if isChar c "\" then Some 92%N
  else if isChar c "/" then Some 47%N
  else if isChar c "b" then Some 8%N
  else if isChar c "f" then Some 12%N
  else if isChar c "n" then Some 10%N
  else if isChar c "r" then Some 13%N
  else if isChar c "t" then Some 9%N
  else None.

(** The characters of a string literal after its opening quote; [acc] is
    the decoded prefix, newest unit first. *)
Fixpoint stringBody (s : list ascii) (acc : list N) : option (list N * list ascii) :=
  match s with
  | [] => None
  | c :: r =>
      if isChar c dq then Some (rev acc, r)
      else if isChar c "\" then
        match r with
        | e :: r1 =>
            if isChar e "u" then
              match r1 with
              | h1 :: h2 :: h3 :: h4 :: r2 =>
                  match hex4 h1 h2 h3 h4 with
                  | Some u => stringBody r2 (u :: acc)
                  | None => None
                  end
              | _ => None
              end
            else
              match simpleEscape e with
              | Some u => stringBody r1 (u :: acc)
              | None => None
              end
        | [] => None
        end
      else if (N_of_ascii c <? 32)%N then None
      else stringBody r (N_of_ascii c :: acc)
  end.

(** A number literal: an optional minus sign; an integer part, either a
    single zero or a non-zero digit followed by digits; an optional
    fraction, a dot and at least one digit; an optional exponent, e or E,
    an optional sign and at least one digit.  The result is the lexeme and
    the unread input. *)
Definition number (s : list ascii) : option (list ascii * list ascii) :=
  let '(sign, s) :=
    match s with
    | c :: r => if isChar c "-" then ([c], r) else ([], s)
    | [] => ([], s)
    end in
  match s with
  | [] => None
  | c :: r =>
      if negb (isDigit c) then None
      else
        let '(int, s) :=
          if isChar c "0" then ([c], r)
          else let '(ds, rest) := spanDigits r in (c :: ds, rest) in
        let frac :=
          match s with
          | p :: r =>
              if isChar p "." then
                match spanDigits r with
                | ([], _) => None
                | (ds, rest) => Some (p :: ds, rest)
                end
              else Some ([], s)
          | [] => Some ([], s)
          end in
        match frac with
        | None => None
        | Some (fr, s) =>
            let exp :=
              match s with
              | e :: r =>
                  if isChar e "e" || isChar e "E" then
                    let '(sg, r) :=
                      match r with
                      | g :: r' => if isChar g "+" || isChar g "-" then ([g], r') else ([], r)
                      | [] => ([], r)
                      end in
                    match spanDigits r with
                    | ([], _) => None
                    | (ds, rest) => Some (e :: sg ++ ds, rest)
                    end
                  else Some ([], s)
              | [] => Some ([], s)
              end in
            match exp with
            | None => None
            | Some (ex, s) => Some (sign ++ int ++ fr ++ ex, s)
            end
        end
  end.

Definition literal (s : list ascii) : res :=
  match Path.stripPrefix (chars "true") s with
  | Some r => Ok (JBool true) r
  | None =>
  match Path.stripPrefix (chars "false") s with
  | Some r => Ok (JBool false) r
  | None =>
  match Path.stripPrefix (chars "null") s with
  | Some r => Ok JNull r
  | None =>
  match number s with
  | Some (lx, r) => Ok (JNumber (str lx)) r
  | None => SyntaxError
  end end end end.

Fixpoint value (n : nat) (s : list ascii) {struct n} : res :=
  match n with
  | O => OutOfFuel
  | S n =>
      match skipWs s with
      | [] => SyntaxError
      | c :: r =>
          if isChar c "[" then
            match skipWs r with
            | d :: r' => if isChar d "]" then Ok (JArray []) r' else elements n r []
            | [] => SyntaxError
            end
          else if isChar c "{" then
            match skipWs r with
            | d :: r' => if isChar d "}" then Ok (JObject []) r' else members n r []
            | [] => SyntaxError
            end
          else if isChar c dq then
            match stringBody r [] with
            | Some (u, r') => Ok (JString u) r'
            | None => SyntaxError
            end
          else literal (c :: r)
      end
  end
with elements (n : nat) (s : list ascii) (acc : list json) {struct n} : res :=
  match n with
  | O => OutOfFuel
  | S n =>
      match value n s with
      | Ok v r =>
          match skipWs r with
          | c :: r' =>
              if isChar c "," then elements n r' (v :: acc)
              else if isChar c "]" then Ok (JArray (rev (v :: acc))) r'
              else SyntaxError
          | [] => SyntaxError
          end
      | e => e
      end
  end
with members (n : nat) (s : list ascii) (acc : list (list N * json)) {struct n} : res :=
  match n with
  | O => OutOfFuel
  | S n =>
      match skipWs s with
      | q :: r =>
          if isChar q dq then
            match stringBody r [] with
            | Some (k, r1) =>
                match skipWs r1 with
                | c :: r2 =>
                    if isChar c ":" then
                      match value n r2 with
                      | Ok v r3 =>
                          match skipWs r3 with
                          | d :: r4 =>
                              if isChar d "," then members n r4 ((k, v) :: acc)
                              else if isChar d "}" then Ok (JObject (rev ((k, v) :: acc))) r4
                              else SyntaxError
                          | [] => SyntaxError
                          end
                      | e => e
                      end
                    else SyntaxError
                | [] => SyntaxError
                end
            | None => SyntaxError
            end
          else SyntaxError
      | [] => SyntaxError
      end
  end.

(** [JSON.parse(text)]: the value, or [None] when a SyntaxError is
    thrown. *)
Definition parse (text : string) : option json :=
  match value (2 * String.length text + 1) (chars text) with
  | Ok v rest => match skipWs rest with [] => Some v | _ => None end
  | _ => None
  end.

(** A character that a string literal holds as it is. *)
Definition plain (c : ascii) : Prop :=
  isChar c dq = false ∧ isChar c "\" = false ∧ (N_of_ascii c <? 32)%N = false.

(** [JSON.stringify] of a string of plain characters. *)
Definition quote (s : string) : string := String dq (s ++ String dq "").

(** A JSON text written with apostrophes in place of double quotes. *)
Definition text (s : string) : string :=
  str (map (λ c, if Ascii.eqb c "'" then dq else c) (chars s)).

End JSON.

Import JSON.


(** ** Remote objects and the object [s3Map] *)

(** One entry of [data.Contents]; of its fields the program reads [Key] and
    [ETag].  [ETag] is [None] when the property is absent ([undefined]). *)
Record RemoteObject := { Key : string; ETag : option string }.

#[global] Instance RemoteObject_eq_dec : EqDecision RemoteObject.
Proof. solve_decision. Defined.

(** [s3Map] is created as [{}] and used as a dictionary (lines 134-137, 146,
    153, 160, 168).  A plain object has own properties and a prototype:
    - [d[k] = v] creates or overwrites the own property [k], except for
      [k = "__proto__"]: that name is an accessor of [Object.prototype], and
      the assignment makes [v] the prototype of [d] instead;
    - [d[k]] reads the own property [k], or else follows the prototype
      chain;
    - [delete d[k]] removes an own property and nothing else;
    - enumeration ([_.map(d, ...)]) visits the own properties. *)
Module Dict.

Record t := { own : gmap string RemoteObject; proto : option RemoteObject }.

Definition empty : t := {| own := ∅; proto := None |}.

Definition protoName : string := "__proto__".

(** [d[k] = v] *)
Definition set (d : t) (k : string) (v : RemoteObject) : t :=
  if decide (k = protoName)
  then {| own := own d; proto := Some v |}
  else {| own := <[k := v]> (own d); proto := proto d |}.

(** [lookup d x] is the record that [d[x]] evaluates to.  [d[x]] can also
    evaluate to a value found further up the prototype chain: a field of the
    prototype record, a method of [Object.prototype], or [Object.prototype]
    itself for [x = "__proto__"].  None of these has an [ETag] property, so
    in the test of line 146 they behave as [undefined] does, and [lookup]
    is [None] for them. *)
Definition lookup (d : t) (x : string) : option RemoteObject :=
  match own d !! x with
  | Some o => Some o
  | None => if decide (x = protoName) then proto d else None
  end.

(** [delete d[k]] *)
Definition remove (d : t) (k : string) : t :=
  {| own := delete k (own d); proto := proto d |}.

(** The own keys, as [_.map(d, function(a, b) {return b})] lists them.
    The order of the list is the map's, not JavaScript's; the properties
    below speak of membership only. *)
Definition keys (d : t) : list string := (map_to_list (own d)).*1.

End Dict.

(** ** The reconciliation ([main], lines 125-193) *)

Definition distDir : string := "dist/".

(** [x.substring(n)] *)
Fixpoint substringFrom (n : nat) (x : string) : string :=
  match n, x with
  | S n', String _ r => substringFrom n' r
  | _, _ => x
  end.

(** Line 141: the path relative to [distDir], the key of the file. *)
Definition relative (x : string) : string :=
  substringFrom (String.length distDir) x.

(** Lines 134-137. *)
Definition s3MapOf (s3Files : list RemoteObject) : Dict.t :=
  fold_left (λ a b, Dict.set a (Key b) b) s3Files Dict.empty.

(** The value of the variable [s3hash] at line 151. *)
Inductive jsval :=
| Undefined
| Parsed (v : json).

(** Lines 146-147, given the [ETag] found for the key ([None] when one of
    the two tests fails).  The result is [None] when [JSON.parse] throws. *)
Definition s3hashOf (etag : option string) : option jsval :=
  match etag with
  | Some e => Parsed <$> JSON.parse e
  | None => Some Undefined
  end.

Inductive verdict := Skip | Upload | Throw.

(** What the program prints and asks of S3. *)
Inductive event :=
| LogUploadingAll                     (* 'Uploading...' *)
| LogSkipping (x : string)            (* 'Skipping:' x *)
| LogUploading (x : string)           (* 'Uploading:' x *)
| PutObject (key ctype : string) (body : list byte)   (* s3.putObject *)
| LogUploaded (x : string)            (* 'Uploaded:' x *)
| LogDoneUploading                    (* 'Done uploading.' *)
| LogExtraFiles (ks : list string)    (* 'Extra files on S3: ...' *)
| LogRemovingExtra                    (* 'Removing extra files.' *)
| LogRemoving (k : string)            (* 'Removing:' k *)
| DeleteObject (k : string)           (* s3.deleteObject *)
| LogDone.                            (* 'Done.' *)

Inductive failure := ReadError | CallbackThrew | PutError.

(** Where the promise of one local file (lines 142-162) stands. *)
Inductive status :=
| Reading                      (* readFileAsync is pending *)
| Putting (data : list byte)   (* putS3 is pending *)
| Skipped                      (* resolved at line 154 *)
| Uploaded                     (* resolved at line 160 *)
| Failed (why : failure).      (* rejected *)

Record task := Task { path : string; stage : status }.

Inductive dstatus := Deleting | Deleted | DeleteFailed.

(** The promise chain of [main] as a whole. *)
Inductive promise := Pending | Fulfilled | Rejected.

(** The state of a run after the two listings have resolved.  [bucket] is
    the content of the bucket itself: for each key the [ETag] S3 reports.
    [deletes] is [None] until line 186 is reached.  [trace] has the newest
    event first. *)
Record state := State {
  s3Map : Dict.t;
  tasks : list task;
  deletes : option (list (string * dstatus));
  chain : promise;
  bucket : gmap string (option string);
  trace : list event
}.

(** A completion delivered by the event loop: the environment chooses which
    pending operation completes next, and whether a request to S3
    succeeds.  The outcome of a read is that of the file system. *)
Inductive completion :=
| ReadDone (i : nat)
| PutDone (i : nat) (ok : bool)
| DeleteDone (j : nat) (ok : bool).

Definition setStage (i : nat) (x : string) (st : status) (s : state) : state :=
  State (s3Map s) (<[i := Task x st]> (tasks s)) (deletes s) (chain s)
        (bucket s) (trace s).

Definition emit (evs : list event) (s : state) : state :=
  State (s3Map s) (tasks s) (deletes s) (chain s) (bucket s) (evs ++ trace s).

(** [delete s3Map[x]] *)
Definition claim (x : string) (s : state) : state :=
  State (Dict.remove (s3Map s) x) (tasks s) (deletes s) (chain s) (bucket s)
        (trace s).

(** A rejection reaches the chain of [main]; a promise settles once. *)
Definition reject (s : state) : state :=
  match chain s with
  | Pending => State (s3Map s) (tasks s) (deletes s) Rejected (bucket s) (trace s)
  | _ => s
  end.

Definition fulfil (s : state) : state :=
  State (s3Map s) (tasks s) (deletes s) Fulfilled (bucket s) (trace s).

Definition setDeletes (ds : list (string * dstatus)) (s : state) : state :=
  State (s3Map s) (tasks s) (Some ds) (chain s) (bucket s) (trace s).

Definition setBucket (b : gmap string (option string)) (s : state) : state :=
  State (s3Map s) (tasks s) (deletes s) (chain s) b (trace s).

Definition resolved (t : task) : bool :=
  match stage t with Skipped | Uploaded => true | _ => false end.

Definition isDeleted (d : string * dstatus) : bool :=
  match d.2 with Deleted => true | _ => false end.

(** Lines 167-192, run when the promise of line 140 has resolved: the
    remaining keys are listed; if there are none the chain ends with
    'Done.', otherwise a delete is requested for each. *)
Definition afterUploads (s : state) : state :=
  let extraFiles := Dict.keys (s3Map s) in
  match extraFiles with
  | [] => fulfil (emit [LogDone; LogDoneUploading] s)
  | _ =>
      setDeletes ((λ k, (k, Deleting)) <$> extraFiles)
        (emit (reverse (LogDoneUploading :: LogExtraFiles extraFiles
                    :: LogRemovingExtra
                    :: flat_map (λ k, [LogRemoving k; DeleteObject k]) extraFiles))
           s)
  end.

(** The continuations that become runnable: lines 163-189 once every file
    promise has resolved, line 191 once every delete has. *)
Definition settle (s : state) : state :=
  match chain s with
  | Pending =>
      match deletes s with
      | None => if forallb resolved (tasks s) then afterUploads s else s
      | Some ds =>
          if forallb isDeleted ds then fulfil (emit [LogDone] s) else s
      end
  | _ => s
  end.

Section Reconciler.

(** [v == localhash] for a parsed [v] that is a boolean, a number, an array
    or an object.  JavaScript converts the operands (ToPrimitive, ToNumber)
    before comparing, and the conversion of an object can throw ([None]).
    The development is parametric in this comparison. *)
Variable coerceEq : json → string → option bool.

(** [fs.readFileAsync]: the content of a file, [None] when the read fails.
    The files do not change during a run. *)
Variable readFile : string → option (list byte).

(** [s3hash == localhash] (line 151); [None] when the comparison throws. *)
Definition looseEq (s3hash : jsval) (localhash : string) : option bool :=
  match s3hash with
  | Undefined => Some false
  | Parsed JNull => Some false
  | Parsed (JString u) => Some (bool_decide (u = units localhash))
  | Parsed v => coerceEq v localhash
  end.

(** Lines 144-151: what the callback decides from the [ETag] found in
    [s3Map] and the bytes read. *)
Definition compare (etag : option string) (data : list byte) : verdict :=
  match s3hashOf etag with
  | None => Throw
  | Some s3hash =>
      match looseEq s3hash (MD5.hex data) with
      | Some true => Skip
      | Some false => Upload
      | None => Throw
      end
  end.

(** Lines 146-147: the two tests and the property read. *)
Definition etagAt (d : Dict.t) (x : string) : option string :=
  Dict.lookup d x ≫= ETag.

(** The callback of [readFileAsync] for task [i] (lines 143-161). *)
Definition onRead (i : nat) (x : string) (s : state) : state :=
  match readFile (distDir ++ x) with
  | None => reject (setStage i x (Failed ReadError) s)
  | Some data =>
      match compare (etagAt (s3Map s) x) data with
      | Throw => reject (setStage i x (Failed CallbackThrew) s)
      | Skip => setStage i x Skipped (claim x (emit [LogSkipping x] s))
      | Upload =>
          setStage i x (Putting data)
            (emit [PutObject x (contentType x) data; LogUploading x] s)
      end
  end.

(** The callback of [s3.putObject] for task [i] (lines 82-87, 158-161).  A
    successful put stores the object; S3 then reports its quoted MD5 as
    the [ETag]. *)
Definition onPut (i : nat) (x : string) (data : list byte) (ok : bool)
    (s : state) : state :=
  if ok then
    setStage i x Uploaded
      (claim x
         (emit [LogUploaded x]
            (setBucket (<[x := Some (JSON.quote (MD5.hex data))]> (bucket s)) s)))
  else reject (setStage i x (Failed PutError) s).

(** The callback of [s3.deleteObject] for the [j]-th extra key (lines
    99-104). *)
Definition onDelete (j : nat) (k : string) (ok : bool) (s : state) : state :=
  match deletes s with
  | Some ds =>
      if ok then
        setDeletes (<[j := (k, Deleted)]> ds)
          (setBucket (delete k (bucket s)) s)
      else reject (setDeletes (<[j := (k, DeleteFailed)]> ds) s)
  | None => s
  end.

(** One turn of the event loop.  A completion for an operation that is not
    pending changes nothing. *)
Definition step (s : state) (c : completion) : state :=
  match c with
  | ReadDone i =>
      match tasks s !! i with
      | Some (Task x Reading) => settle (onRead i x s)
      | _ => s
      end
  | PutDone i ok =>
      match tasks s !! i with
      | Some (Task x (Putting data)) => settle (onPut i x data ok s)
      | _ => s
      end
  | DeleteDone j ok =>
      match deletes s ≫= (.!! j) with
      | Some (k, Deleting) => settle (onDelete j k ok s)
      | _ => s
      end
  end.

(** Lines 130-142: the state when the callback of [spread] has run.  Every
    read is started at once; with no local file the promise of line 140 is
    already resolved. *)
Definition start (s3Files : list RemoteObject) (localFiles : list string)
    (b : gmap string (option string)) : state :=
  settle
    (State (s3MapOf s3Files)
       ((λ f, Task (relative f) Reading) <$> localFiles)
       None Pending b [LogUploadingAll]).

(** A run under a schedule. *)
Definition run (s3Files : list RemoteObject) (localFiles : list string)
    (b : gmap string (option string)) (sched : list completion) : state :=
  fold_left step sched (start s3Files localFiles b).

End Reconciler.

Definition skipDecided (t : task) : bool :=
  match stage t with Skipped => true | _ => false end.

Definition uploadDecided (t : task) : bool :=
  match stage t with
  | Putting _ | Uploaded | Failed PutError => true
  | _ => false
  end.

(** The three sets of the plan, read off a state: the keys whose callback
    took the branch of line 151, the keys whose callback reached line 157,
    and the keys line 186 maps over. *)
Definition unchanged (s : state) : list string :=
  path <$> filter (λ t, skipDecided t) (tasks s).

Definition toUpload (s : state) : list string :=
  path <$> filter (λ t, uploadDecided t) (tasks s).

Definition toDelete (s : state) : list string :=
  match deletes s with
  | Some ds => ds.*1
  | None => []
  end.

(** The listing S3 gives of a bucket. *)
Definition listing (b : gmap string (option string)) : list RemoteObject :=
  (λ kv, {| Key := kv.1; ETag := kv.2 |}) <$> map_to_list b.

(** ** The atomic transitions of a run *)

(** The keys whose promise has resolved: [delete s3Map[x]] has run for
    them. *)
Definition claimed (s : state) : list string :=
  path <$> filter (λ t, resolved t) (tasks s).

Definition isUploaded (t : task) : bool :=
  match stage t with Uploaded => true | _ => false end.

Definition uploaded (s : state) : list string :=
  path <$> filter (λ t, isUploaded t) (tasks s).

(** The keys whose delete has succeeded. *)
Definition deletedKeys (s : state) : list string :=
  match deletes s with
  | Some ds => (filter (λ d, isDeleted d) ds).*1
  | None => []
  end.

(** [ev] reports that the promise of the file with key [x] resolved. *)
Definition settles (x : string) (ev : event) : Prop :=
  ev = LogSkipping x ∨ ev = LogUploaded x.

(** In a trace (newest event first), every delete request comes after the
    promise of each of the keys [xs] has resolved. *)
Fixpoint deletesLast (xs : list string) (tr : list event) : Prop :=
  match tr with
  | [] => True
  | ev :: older =>
      (∀ k, ev = DeleteObject k → ∀ x, x ∈ xs → ∃ e, e ∈ older ∧ settles x e)
      ∧ deletesLast xs older
  end.

Section Transitions.

Variable coerceEq : json → string → option bool.
Variable readFile : string → option (list byte).

(** What becomes of the file with key [x] in a run whose listing gave the
    map [d]: [None] when it cannot be read, else the verdict of the
    comparison. *)
Definition fate (d : Dict.t) (x : string) : option verdict :=
  compare coerceEq (etagAt d x) <$> readFile (distDir ++ x).

(** A turn of the event loop is one callback, possibly followed by one
    continuation of the chain; each is an atomic transition. *)
Inductive atomic : state → state → Prop :=
| ReadFails i x s :
    tasks s !! i = Some (Task x Reading) →
    readFile (distDir ++ x) = None →
    atomic s (reject (setStage i x (Failed ReadError) s))
| CallbackThrows i x data s :
    tasks s !! i = Some (Task x Reading) →
    readFile (distDir ++ x) = Some data →
    compare coerceEq (etagAt (s3Map s) x) data = Throw →
    atomic s (reject (setStage i x (Failed CallbackThrew) s))
| Skips i x data s :
    tasks s !! i = Some (Task x Reading) →
    readFile (distDir ++ x) = Some data →
    compare coerceEq (etagAt (s3Map s) x) data = Skip →
    atomic s (setStage i x Skipped (claim x (emit [LogSkipping x] s)))
| StartsPut i x data s :
    tasks s !! i = Some (Task x Reading) →
    readFile (distDir ++ x) = Some data →
    compare coerceEq (etagAt (s3Map s) x) data = Upload →
    atomic s (setStage i x (Putting data)
                (emit [PutObject x (contentType x) data; LogUploading x] s))
| PutSucceeds i x data s :
    tasks s !! i = Some (Task x (Putting data)) →
    atomic s (onPut i x data true s)
| PutFails i x data s :
    tasks s !! i = Some (Task x (Putting data)) →
    atomic s (onPut i x data false s)
| DeleteSucceeds j k ds s :
    deletes s = Some ds → ds !! j = Some (k, Deleting) →
    atomic s (setDeletes (<[j := (k, Deleted)]> ds)
                (setBucket (delete k (bucket s)) s))
| DeleteFails j k ds s :
    deletes s = Some ds → ds !! j = Some (k, Deleting) →
    atomic s (reject (setDeletes (<[j := (k, DeleteFailed)]> ds) s))
| UploadsDone s :
    chain s = Pending → deletes s = None →
    forallb resolved (tasks s) = true →
    atomic s (afterUploads s)
| DeletesDone ds s :
    chain s = Pending → deletes s = Some ds →
    forallb isDeleted ds = true →
    atomic s (fulfil (emit [LogDone] s)).

(** Zero or more atomic transitions. *)
Inductive reaches (s1 : state) : state → Prop :=
| reaches_refl : reaches s1 s1
| reaches_step s2 s3 : reaches s1 s2 → atomic s2 s3 → reaches s1 s3.

End Transitions.

(** The state of line 138, before any continuation has run. *)
Definition initial (s3Files : list RemoteObject) (localFiles : list string)
    (b : gmap string (option string)) : state :=
  State (s3MapOf s3Files)
    ((λ f, Task (relative f) Reading) <$> localFiles)
    None Pending b [LogUploadingAll].

(** ** The invariant of a run *)

Section Invariant.

Variable readFile : string → option (list byte).
Variable s3Files : list RemoteObject.
Variable localFiles : list string.
Variable b0 : gmap string (option string).

(** What holds of every state of a run that started from the listing
    [s3Files], the local files [localFiles] and the bucket [b0]. *)
Record inv (s : state) : Prop := {
  inv_paths : path <$> tasks s = relative <$> localFiles;
  inv_proto : Dict.proto (s3Map s) = Dict.proto (s3MapOf s3Files);
  (* the map holds what was listed, without the claimed keys *)
  inv_own : ∀ k,
    Dict.own (s3Map s) !! k
    = if decide (k ∈ claimed s) then None
      else Dict.own (s3MapOf s3Files) !! k;
  inv_putting : ∀ i x data,
    tasks s !! i = Some (Task x (Putting data)) →
    readFile (distDir ++ x) = Some data;
  (* the lines printed and the requests sent are those of the plan *)
  inv_skip_log : ∀ x, LogSkipping x ∈ trace s ↔ x ∈ unchanged s;
  inv_upload_log : ∀ x, LogUploading x ∈ trace s ↔ x ∈ toUpload s;
  inv_put_req : ∀ x c d,
    PutObject x c d ∈ trace s →
    x ∈ toUpload s ∧ c = contentType x ∧ readFile (distDir ++ x) = Some d;
  inv_uploaded_log : ∀ x, LogUploaded x ∈ trace s ↔ x ∈ uploaded s;
  inv_delete_req : ∀ k, DeleteObject k ∈ trace s ↔ k ∈ toDelete s;
  (* deletes exist only once every file promise has resolved, and are the
     keys left in the map *)
  inv_deletes : ∀ ds,
    deletes s = Some ds →
    forallb resolved (tasks s) = true ∧ ds.*1 = Dict.keys (s3Map s);
  (* the bucket *)
  inv_bucket_up : ∀ x,
    x ∈ uploaded s →
    ∃ data, readFile (distDir ++ x) = Some data
            ∧ bucket s !! x = Some (Some (JSON.quote (MD5.hex data)));
  inv_bucket_rest : ∀ k,
    k ∉ uploaded s →
    bucket s !! k = if decide (k ∈ deletedKeys s) then None else b0 !! k;
  (* a fulfilled chain has nothing left to do *)
  inv_fulfilled :
    chain s = Fulfilled →
    forallb resolved (tasks s) = true
    ∧ match deletes s with
      | None => Dict.keys (s3Map s) = []
      | Some ds => forallb isDeleted ds = true
      end;
  inv_order : deletesLast (relative <$> localFiles) (trace s)
}.

End Invariant.

(** A stage agrees with the fate of its key. *)
Definition agrees (v : option verdict) (st : status) : Prop :=
  match st with
  | Reading => True
  | Skipped => v = Some Skip
  | Putting _ | Uploaded | Failed PutError => v = Some Upload
  | Failed ReadError => v = None
  | Failed CallbackThrew => v = Some Throw
  end.

(** Every file promise of [s] agrees with the fate of its key, in a run
    whose listing was [s3Files]. *)
Definition fated (coerceEq : json → string → option bool)
    (readFile : string → option (list byte)) (s3Files : list RemoteObject)
    (s : state) : Prop :=
  ∀ i x st, tasks s !! i = Some (Task x st) →
            agrees (fate coerceEq readFile (s3MapOf s3Files) x) st.

(** ** States at rest *)

(** No continuation of the chain is runnable. *)
Definition settled (s : state) : Prop :=
  chain s = Pending →
  match deletes s with
  | None => forallb resolved (tasks s) = false
  | Some ds => forallb isDeleted ds = false
  end.

(** A task or a delete has failed. *)
Definition hasFailure (s : state) : Prop :=
  (∃ i x why, tasks s !! i = Some (Task x (Failed why)))
  ∨ (∃ ds j k, deletes s = Some ds ∧ ds !! j = Some (k, DeleteFailed)).

(** The schedule in which the reads complete in order and nothing else
    happens. *)
Definition readAll (localFiles : list string) : list completion :=
  ReadDone <$> seq 0 (length localFiles).

(** The bucket [b] holds every local file under an etag the comparison
    accepts, and nothing else (but for an object named [__proto__]). *)
Definition inSync (coerceEq : json → string → option bool)
    (readFile : string → option (list byte)) (localFiles : list string)
    (b : gmap string (option string)) : Prop :=
  (∀ x : string, x ∈ relative <$> localFiles →
     ∃ e data, b !! x = Some (Some e)
               ∧ readFile (distDir ++ x)%string = Some data
               ∧ compare coerceEq (Some e) data = Skip)
  ∧ (∀ k, k ∉ relative <$> localFiles → k ≠ Dict.protoName → b !! k = None).

(** ** A concrete scenario (section 8 of the specification)

    The local tree holds [a.html] with content [hi] and [b.png]; the bucket
    holds [a.html] with the hash of [hi], and [c.css]. *)
Module Scenario.

(** No etag of the scenario decodes to anything but a string, so the
    comparison of other values is never consulted. *)
Definition coerceEq : json → string → option bool := λ _ _, Some false.

Definition readFile (p : string) : option (list byte) :=
  if String.eqb p "dist/a.html" then Some (bytesOf "hi")
  else if String.eqb p "dist/b.png" then Some (bytesOf "PNG")
  else None.

Definition localFiles : list string := ["dist/a.html"; "dist/b.png"].

Definition aHtml : RemoteObject :=
  {| Key := "a.html";
     ETag := Some (JSON.quote "49f68a5c8493ec2c0bf489821c21fc3b") |}.

Definition cCss : RemoteObject :=
  {| Key := "c.css";
     ETag := Some (JSON.quote "0cc175b9c0f1b6a831c399e269772661") |}.

Definition s3Files : list RemoteObject := [aHtml; cCss].

Definition bucket : gmap string (option string) :=
  list_to_map ((λ o, (Key o, ETag o)) <$> s3Files).

(** The reads complete, then the put, then the delete. *)
Definition sched : list completion :=
  [ReadDone 1; ReadDone 0; PutDone 1 true; DeleteDone 0 true].

(** The first run, over the listing of the bucket, and the bucket it
    leaves. *)
Definition first : state :=
  run coerceEq readFile (listing bucket) localFiles bucket sched.

(** The same tree after [a.html] was edited. *)
Definition readChanged (p : string) : option (list byte) :=
  if String.eqb p "dist/a.html" then Some (bytesOf "hi!") else None.

(** A bucket whose only object is named [__proto__], and no local file. *)
Definition protoObject : RemoteObject :=
  {| Key := "__proto__";
     ETag := Some (JSON.quote "d41d8cd98f00b204e9800998ecf8427e") |}.

Definition protoBucket : gmap string (option string) :=
  {[ Key protoObject := ETag protoObject ]}.

(** A multipart-style etag as S3 reports it, and the same token without
    its quotes. *)
Definition multipart : string :=
  JSON.quote "d41d8cd98f00b204e9800998ecf8427e-2".

Definition bareToken : string := "d41d8cd98f00b204e9800998ecf8427e-2".

Definition xJs (etag : option string) : RemoteObject :=
  {| Key := "x.js"; ETag := etag |}.

Definition readX (p : string) : option (list byte) :=
  if String.eqb p "dist/x.js" then Some (bytesOf "") else None.

End Scenario.

(** ** [iterS3] (lines 45-70) *)

Module Lister.

(** [data] of a [listObjects] callback. *)
Record page := { Contents : list RemoteObject; IsTruncated : bool }.

(** The arguments of a [listObjects] callback: [err] is [None] for [null],
    [data] is [None] for [null] or [undefined]. *)
Record response := { err : option string; data : option page }.

(** The promise [iterS3] returns. *)
Inductive settled :=
| Waiting
| ResolvedWith (objects : list RemoteObject)
| RejectedWith (reason : option string).

Record t := { keys : list RemoteObject; result : settled }.

(** [resolve] and [reject] act on a promise that is still pending only. *)
Definition settleWith (r : settled) (st : t) : t :=
  match result st with
  | Waiting => {| keys := keys st; result := r |}
  | _ => st
  end.

(** What the callback does after its last statement. *)
Inductive next :=
| Request (marker : string)   (* [iterPage] was called again *)
| Return                      (* the callback returned *)
| TypeError.                  (* the callback threw *)

(** [a.slice(-1)[0]] *)
Definition lastOf (a : list RemoteObject) : option RemoteObject := last a.

(** The callback of lines 53-64.  Line 55 does not return: the statements
    after it run also when the promise was rejected. *)
Definition onPage (st : t) (r : response) : t * next :=
  let st :=
    if bool_decide (is_Some (err r) ∨ data r = None)
    then settleWith (RejectedWith (err r)) st
    else st in
  match data r with
  | None => (st, TypeError)                 (* [data.Contents] of [null] *)
  | Some d =>
      let st := {| keys := keys st ++ Contents d; result := result st |} in
      if IsTruncated d then
        match lastOf (Contents d) with
        | Some o => (st, Request (Key o))
        | None => (st, TypeError)           (* [.Key] of [undefined] *)
        end
      else (settleWith (ResolvedWith (keys st)) st, Return)
  end.

Inductive ending := Returned | Threw | OutOfFuel.

(** A run of the lister: the final state, the exchanges with S3 in order
    (marker sent, response received) and how the last callback ended. *)
Record outcome := {
  final : t;
  exchanges : list (option string * response);
  ended : ending
}.

(** [iterPage]: [listObjects n marker] is the answer of S3 to the [n]-th
    request of the run. *)
Fixpoint iterPage (fuel : nat) (listObjects : nat → option string → response)
    (n : nat) (marker : option string) (st : t) : outcome :=
  match fuel with
  | O => {| final := st; exchanges := []; ended := OutOfFuel |}
  | S fuel =>
      let r := listObjects n marker in
      let '(st', nx) := onPage st r in
      match nx with
      | Request m =>
          let o := iterPage fuel listObjects (S n) (Some m) st' in
          {| final := final o; exchanges := (marker, r) :: exchanges o;
             ended := ended o |}
      | Return => {| final := st'; exchanges := [(marker, r)]; ended := Returned |}
      | TypeError => {| final := st'; exchanges := [(marker, r)]; ended := Threw |}
      end
  end.

Definition iterS3 (fuel : nat) (listObjects : nat → option string → response)
    : outcome :=
  iterPage fuel listObjects 0 None {| keys := []; result := Waiting |}.

(** A page request fails when it errors or answers nothing. *)
Definition failed (r : response) : Prop := is_Some (err r) ∨ data r = None.

#[global] Instance failed_dec r : Decision (failed r).
Proof. unfold failed. apply _. Defined.

End Lister.

(** ** [iterFS] (lines 110-122) *)

Module Walker.

(** The promise [iterFS] returns. *)
Inductive walked :=
| Files (paths : list string)
| Rejected
| OutOfFuel.

(** One directory entry whose [stat] succeeded: its path, what [stat]
    said, and whether line 115 printed it. *)
Record visit := { fullpath : string; isDirectory : bool; logged : bool }.


Definition isFile (v : visit) : bool := negb (isDirectory v).

(** The visited entries that are not directories. *)
Definition filesOf (vs : list visit) : list string :=
  map fullpath (List.filter isFile vs).

(** The decimal numeral of [n], as an array index is written. *)
Definition numeral (n : nat) : string :=
  DecimalString.NilZero.string_of_uint (Nat.to_uint n).

(** [Promise.reduce] of line 119 over the results of the entries, in the
    order of the listing: a rejected entry rejects the whole. *)
Definition concatAll (rs : list walked) : walked :=
  fold_left
    (λ a b, match a, b with
            | Files x, Files y => Files (x ++ y)
            | OutOfFuel, _ | _, OutOfFuel => OutOfFuel
            | _, _ => Rejected
            end) rs (Files []).

Section Walk.

(** [fs.readdirAsync] and [fs.statAsync]: [None] when the call fails;
    [stat] answers [isDirectory()]. *)
Variable readdir : string → option (list string).
Variable stat : string → option bool.

(** The names found on the prototype chain of an array ([concat], [push],
    [constructor], ...). *)
Variable inherited : string → bool.

(** [key in a] for an array [a]: [key] is one of its indices, or [length],
    or inherited.  The elements of [a] play no part. *)
Definition jsIn (key : string) (a : list string) : bool :=
  existsb (λ i, String.eqb key (numeral i)) (seq 0 (length a))
  || String.eqb key "length"
  || inherited key.

(** The array [ignore] (line 16 sets it to the empty array). *)
Variable ignore : list string.

(** [iterFS dirname]: the entries visited, and the promise.  Every entry
    is processed whether or not another one fails: [Promise.map] starts
    them all, and a rejection cancels nothing.  The visits are listed in
    the order of the directory listings; when the lines of 115 are
    printed relative to each other is the event loop's choice. *)
Fixpoint iterFS (fuel : nat) (dirname : string) : list visit * walked :=
  match fuel with
  | O => ([], OutOfFuel)
  | S fuel =>
      match readdir dirname with
      | None => ([], Rejected)
      | Some names =>
          let entries :=
            map (λ filename,
                   let fullpath := Path.join dirname filename in
                   match stat fullpath with
                   | None => ([], Rejected)
                   | Some isDir =>
                       let v := {| fullpath := fullpath; isDirectory := isDir;
                                   logged := jsIn fullpath ignore |} in
                       if isDir then
                         let '(vs, r) := iterFS fuel fullpath in (v :: vs, r)
                       else ([v], Files [fullpath])
                   end) names in
          (concat (map fst entries), concatAll (map snd entries))
      end
  end.

End Walk.

End Walker.

(** ** Names, pages and requests

    The vocabulary of the properties of the walk, of the listing and of
    the requests of a run. *)

(** [stem] does not end in a separator: its last portion is not empty. *)
Definition endsInName (stem : string) : Prop :=
  ∃ l c, chars stem = l ++ [c] ∧ c ≠ "/"%char.

(** [ext] is a suffix one writes after a dot: no dot, no separator. *)
Definition dotFree (ext : string) : Prop :=
  Forall (λ c, c ≠ "."%char ∧ c ≠ "/"%char) (chars ext).

(** A name as a directory listing gives it: not empty, without
    separator, and none of [.] and [..]. *)
Definition entryName (f : string) : Prop :=
  f ≠ "" ∧ ("/"%char ∉ chars f) ∧ f ≠ "." ∧ f ≠ "..".

(** A segment that [Path.normalizeString] keeps or skips, and never
    pops. *)
Definition plainSegment (seg : list ascii) : Prop :=
  ("/"%char ∉ seg) ∧ seg ≠ ["."%char] ∧ seg ≠ ["."%char; "."%char].

(** The names [names] written as one path. *)
Definition slashed (names : list string) : string :=
  str (Path.joinWith ["/"%char] (chars <$> names)).

(** The answer of S3 that carries the page [p]. *)
Definition pageOf (p : Lister.page) : Lister.response :=
  {| Lister.err := None; Lister.data := Some p |}.

(** The marker of the request that follows page [p]. *)
Definition markerAfter (p : Lister.page) : option string :=
  Key <$> Lister.lastOf (Lister.Contents p).

(** S3 answers the [n]-th request, made with [marker], and the requests
    after it with the pages [ps], each request carrying the marker of the
    page before. *)
Fixpoint serves (listObjects : nat → option string → Lister.response)
    (n : nat) (marker : option string) (ps : list Lister.page) : Prop :=
  match ps with
  | [] => True
  | p :: rest =>
      listObjects n marker = pageOf p
      ∧ serves listObjects (S n) (markerAfter p) rest
  end.

(** A page that announces more and names where to go on. *)
Definition continues (p : Lister.page) : Prop :=
  Lister.IsTruncated p = true ∧ Lister.Contents p ≠ [].

(** The objects of the pages [ps], in order. *)
Definition objectsOf (ps : list Lister.page) : list RemoteObject :=
  concat (Lister.Contents <$> ps).

(** The exchanges of a run that starts with [marker] and receives the
    pages [ps]. *)
Fixpoint exchangesOf (marker : option string) (ps : list Lister.page)
    : list (option string * Lister.response) :=
  match ps with
  | [] => []
  | p :: rest => (marker, pageOf p) :: exchangesOf (markerAfter p) rest
  end.

(** The marker of the request that follows the pages [ps], in a run that
    starts with [marker]. *)
Fixpoint markerPast (marker : option string) (ps : list Lister.page)
    : option string :=
  match ps with
  | [] => marker
  | p :: rest => markerPast (markerAfter p) rest
  end.

(** ** Sample inputs *)

Module Sample.

Definition objA : RemoteObject := {| Key := "a"; ETag := None |}.
Definition objB : RemoteObject := {| Key := "b"; ETag := None |}.
Definition objC : RemoteObject := {| Key := "c"; ETag := None |}.

Definition firstPage : Lister.page :=
  {| Lister.Contents := [objA; objB]; Lister.IsTruncated := true |}.

Definition lastPage : Lister.page :=
  {| Lister.Contents := [objC]; Lister.IsTruncated := false |}.

(** A page that announces more and holds nothing. *)
Definition hollowPage : Lister.page :=
  {| Lister.Contents := []; Lister.IsTruncated := true |}.

(** A bucket listed in two pages. *)
Definition twoPages (n : nat) (marker : option string) : Lister.response :=
  match marker with
  | None => pageOf firstPage
  | Some _ => pageOf lastPage
  end.

(** A listing whose second page is hollow. *)
Definition stalls (n : nat) (marker : option string) : Lister.response :=
  match marker with
  | None => pageOf firstPage
  | Some _ => pageOf hollowPage
  end.

(** A listing whose second request is answered by an error. *)
Definition breaks (n : nat) (marker : option string) : Lister.response :=
  match marker with
  | None => pageOf firstPage
  | Some _ => {| Lister.err := Some "SlowDown"; Lister.data := None |}
  end.

(** The tree [dist/index.html], [dist/css/site.css]. *)
Definition readdir (d : string) : option (list string) :=
  if String.eqb d "dist/" then Some ["index.html"; "css"]
  else if String.eqb d "dist/css" then Some ["site.css"]
  else None.

Definition stat (p : string) : option bool :=
  if String.eqb p "dist/css" then Some true
  else if String.eqb p "dist/index.html" || String.eqb p "dist/css/site.css"
  then Some false
  else None.

(** The same tree when [dist/css/site.css] cannot be examined. *)
Definition statBroken (p : string) : option bool :=
  if String.eqb p "dist/css" then Some true
  else if String.eqb p "dist/index.html" then Some false
  else None.




(** The content of the files of the tree. *)
Definition contents (p : string) : option (list byte) :=
  if String.eqb p "dist/index.html" then Some (bytesOf "<p>hi</p>")
  else if String.eqb p "dist/css/site.css" then Some (bytesOf "p{}")
  else None.

(** The bucket that [twoPages] lists. *)
Definition remote : gmap string (option string) :=
  list_to_map ((λ o, (Key o, ETag o)) <$> [objA; objB; objC]).

End Sample.

(** ** Requests, operations in flight and the order of a run *)

(** The keys of the put requests of a trace, and of its delete requests
    (newest first, as the trace is). *)
Definition putRequests (tr : list event) : list string :=
  flat_map (λ e, match e with PutObject k _ _ => [k] | _ => [] end) tr.

Definition deleteRequests (tr : list event) : list string :=
  flat_map (λ e, match e with DeleteObject k => [k] | _ => [] end) tr.

(** A read, a put or a delete has been started and has not completed. *)
Definition inFlight (s : state) : Prop :=
  (∃ i x, tasks s !! i = Some (Task x Reading))
  ∨ (∃ i x data, tasks s !! i = Some (Task x (Putting data)))
  ∨ (∃ ds j k, deletes s = Some ds ∧ ds !! j = Some (k, Deleting)).

(** How the chain, the failures and the lines of lines 170 and 191 go
    together in a state of a run. *)
Record orderly (s : state) : Prop := {
  ord_pending : chain s = Pending → ¬ hasFailure s;
  ord_done_uploading :
    LogDoneUploading ∈ trace s → chain s = Fulfilled ∨ is_Some (deletes s);
  ord_done : LogDone ∈ trace s ↔ chain s = Fulfilled;
  ord_head : chain s = Fulfilled → head (trace s) = Some LogDone;
  ord_deletes : deleteRequests (trace s) = reverse (toDelete s)
}.

(** An event of the upload phase (lines 143-161). *)
Definition ofUpload (e : event) : Prop :=
  match e with
  | LogSkipping _ | LogUploading _ | PutObject _ _ _ | LogUploaded _ => True
  | _ => False
  end.

(** In a trace (newest first) the line 'Done uploading.' closes the upload
    phase: it is printed once, nothing of the upload phase comes after it,
    and before it the promise of each of the keys [xs] has resolved. *)
Fixpoint phased (xs : list string) (tr : list event) : Prop :=
  match tr with
  | [] => True
  | e :: older =>
      (ofUpload e → LogDoneUploading ∉ older)
      ∧ (e = LogDoneUploading →
         (LogDoneUploading ∉ older)
         ∧ ∀ x, x ∈ xs → ∃ e', e' ∈ older ∧ settles x e')
      ∧ phased xs older
  end.

(** ** Directories and their entries *)

(** [dirname] names the directory reached through the names [segs],
    written with or without a closing separator. *)
Definition rooted (dirname : string) (segs : list string) : Prop :=
  segs ≠ [] ∧ Forall entryName segs
  ∧ (dirname = slashed segs ∨ dirname = (slashed segs ++ "/")%string).

Section Entries.

Variable readdir : string → option (list string).
Variable stat : string → option bool.
Variable inherited : string → bool.
Variable ignore : list string.

(** The directory [d] can be listed and every entry of it examined. *)
Definition readable (d : string) : Prop :=
  ∃ names, readdir d = Some names
           ∧ ∀ f, f ∈ names → is_Some (stat (Path.join d f)).

(** What the callback of line 111 contributes for the name [filename] of
    the listing of [dirname]: the body of the [map] in [Walker.iterFS]. *)
Definition visitEntry (fuel : nat) (dirname filename : string)
    : list Walker.visit * Walker.walked :=
  let fullpath := Path.join dirname filename in
  match stat fullpath with
  | None => ([], Walker.Rejected)
  | Some isDir =>
      let v := {| Walker.fullpath := fullpath; Walker.isDirectory := isDir;
                  Walker.logged := Walker.jsIn inherited fullpath ignore |} in
      if isDir then
        let '(vs, r) := Walker.iterFS readdir stat inherited ignore fuel
                          fullpath in
        (v :: vs, r)
      else ([v], Walker.Files [fullpath])
  end.

(** Every visit of the walk of a directory [d], reached through [segs],
    lies below it, and no path is visited twice. *)
Definition below (fuel : nat) : Prop :=
  ∀ d segs, rooted d segs →
    (∀ v, v ∈ (Walker.iterFS readdir stat inherited ignore fuel d).1 →
       ∃ more, more ≠ [] ∧ Forall entryName more
               ∧ Walker.fullpath v = slashed (segs ++ more))
    ∧ NoDup (Walker.fullpath
               <$> (Walker.iterFS readdir stat inherited ignore fuel d).1).

End Entries.

(** ** Schedules that complete a run *)

(** A completion that reports no failure of S3. *)
Definition succeeds (c : completion) : Prop :=
  match c with
  | ReadDone _ => True
  | PutDone _ ok | DeleteDone _ ok => ok = true
  end.

(** Every read completes, then every put succeeds, then every delete
    succeeds; [n] bounds the number of files and [m] the number of
    deletes. *)
Definition drain (n m : nat) : list completion :=
  (ReadDone <$> seq 0 n)
  ++ ((λ i, PutDone i true) <$> seq 0 n)
  ++ ((λ j, DeleteDone j true) <$> seq 0 m).

(** ** [main] as a whole (lines 125-193) *)

(** Lines 127-130.  The reconciliation starts when the listing of the
    bucket and the walk of [distDir] have both resolved, and works on
    their results.  When one of the two promises is rejected or never
    settles, the callback of [spread] does not run: nothing is printed
    and nothing is asked of S3 ([None]).  [ignore] is the empty array of
    line 16. *)
Definition main (coerceEq : json → string → option bool)
    (readFile : string → option (list byte))
    (listObjects : nat → option string → Lister.response)
    (readdir : string → option (list string)) (stat : string → option bool)
    (inherited : string → bool) (fuel : nat)
    (b : gmap string (option string)) (sched : list completion)
    : option state :=
  match Lister.result (Lister.final (Lister.iterS3 fuel listObjects)),
        (Walker.iterFS readdir stat inherited [] fuel distDir).2 with
  | Lister.ResolvedWith s3Files, Walker.Files localFiles =>
      Some (run coerceEq readFile s3Files localFiles b sched)
  | _, _ => None
  end.

(** * Examples of the library functions *)

Example extname_t1 : map Path.extname
["index.html"; "index.coffee.md"; "index."; "index"; ".index"; ".index.md";
 "a/b.c/d"; "a/b.gz/"; ".."; "..."; "..a"; ""; "///"; "x/.."; "a.b/.c"]
= [".html"; ".md"; "."; ""; ""; ".md"; ""; ".gz"; ""; "."; ".a"; ""; ""; ""; ""].
Proof. vm_compute. reflexivity. Qed.

Example basename_t1 : map (λ p, Path.basename p ".gz")
["foo.html.gz"; "sub/dir/a.gz"; "a.gz/"; "plain"; "x/y.tar.gz"]
= ["foo.html"; "a"; "a"; "plain"; "y.tar"].
Proof. vm_compute. reflexivity. Qed.

Example join_t1 : map (λ '(a, b), Path.join a b)
[("dist/", "a.html"); ("dist/sub", "f"); ("dist/", "sub"); ("", "x");
 (".", "length"); ("/foo", "bar"); ("a/b", ".."); ("a", "../../c"); ("", "")]
= ["dist/a.html"; "dist/sub/f"; "dist/sub"; "x"; "length"; "/foo/bar"; "a";
   "../c"; "."].
Proof. vm_compute. reflexivity. Qed.

Example contentType_t1 : map contentType
["foo.html.gz"; "index.html"; "a/b/c.css"; "README"; "x.PNG"; "pic.jpeg";
 "app.js.gz"; "archive.gz"; "a.tar.gz"; ".gz"; "logo.svg"]
= ["text/html"; "text/html"; "text/css"; "text/html";
   "application/octet-stream"; "image/jpeg"; "text/javascript"; "text/html";
   "application/octet-stream"; "text/html"; "image/svg+xml"].
Proof. vm_compute. reflexivity. Qed.

Example md5_t1 : map (λ s, MD5.hex (bytesOf s))
[""; "a"; "abc"; "message digest"; "hi"; "240610708";
 "12345678901234567890123456789012345678901234567890123456789012345678901234567890"]
= ["d41d8cd98f00b204e9800998ecf8427e"; "0cc175b9c0f1b6a831c399e269772661";
   "900150983cd24fb0d6963f7d28e17f72"; "f96b697d7cb7938d525a2f31aaf161d0";
   "49f68a5c8493ec2c0bf489821c21fc3b"; "0e462097431906509019562988736854";
   "57edf4a22be3c955ac49da2e2107b67a"].
Proof. vm_compute. reflexivity. Qed.

Example parse_t1 : map (λ t, JSON.parse (JSON.text t))
[ "'abc'"; "abc"; "'d41d8cd98f00b204e9800998ecf8427e-2'";
  "d41d8cd98f00b204e9800998ecf8427e-2"; " [1, 'a' , [ ] ,{'k' : null}] ";
  "0"; "01"; "-1.5e+3"; "1."; "'a\u0041\n'"; "'a"; "tru"; "[1,]"; "{}x"; "";
  "{'a':1,'b':[true,false]}" ]
= [ Some (JString [97; 98; 99]%N); None;
    Some (JString (units "d41d8cd98f00b204e9800998ecf8427e-2")); None;
    Some (JArray [JNumber "1"; JString [97%N]; JArray [];
                  JObject [([107%N], JNull)]]);
    Some (JNumber "0"); None; Some (JNumber "-1.5e+3"); None;
    Some (JString [97; 65; 10]%N); None; None; None; None; None;
    Some (JObject [([97%N], JNumber "1");
                   ([98%N], JArray [JBool true; JBool false])]) ].
Proof. vm_compute. reflexivity. Qed.

(** * Properties *)

(** ** Strings and paths *)

Lemma str_chars s : str (chars s) = s.
Proof. apply string_of_list_ascii_of_string. Qed.

Lemma chars_str l : chars (str l) = l.
Proof. apply list_ascii_of_string_of_list_ascii. Qed.

Lemma chars_inj s t : chars s = chars t → s = t.
Proof. intros H. rewrite <- (str_chars s), <- (str_chars t). by rewrite H. Qed.

Lemma take_drop_while p l : Path.takeWhile p l ++ Path.dropWhile p l = l.
Proof.
  induction l as [|c r IH]; simpl; [done|].
  destruct (p c); simpl; by rewrite ?IH.
Qed.
(** *** The fuel of [JSON.parse] is enough *)

Module JSONFacts.

Local Open Scope nat_scope.

Lemma skipWs_length s : length (skipWs s) ≤ length s.
Proof. induction s as [|c r IH]; simpl; [lia|]. destruct (isWs c); simpl; lia. Qed.

Lemma spanDigits_length s ds r : spanDigits s = (ds, r) → length r ≤ length s.
Proof.
  revert ds r. induction s as [|c s IH]; simpl; intros ds r H.
  - by inversion H.
  - destruct (isDigit c).
    + destruct (spanDigits s) as [ds' r'] eqn:E. inversion H; subst.
      specialize (IH _ _ eq_refl). lia.
    + inversion H; subst. simpl. lia.
Qed.

Lemma stringBody_length s acc u r :
  stringBody s acc = Some (u, r) → length r < length s.
Proof.
  revert acc. induction s as [s IH] using (well_founded_induction
    (well_founded_ltof _ (@length ascii))). unfold ltof in IH.
  intros acc H. destruct s as [|c s]; simpl in H; [done|].
  repeat case_match; simplify_eq; simpl in *;
    try match goal with
        | H : stringBody ?x _ = Some _ |- _ => apply IH in H; simpl in *; lia
        end; lia.
Qed.

Lemma stripPrefix_length pre s r :
  Path.stripPrefix pre s = Some r → length s = length pre + length r.
Proof.
  revert s. induction pre as [|a pre IH]; intros [|b s] H; simpl in *;
    simplify_eq; try done.
  destruct (Ascii.eqb a b); [|done]. apply IH in H. lia.
Qed.

Lemma number_length s lx r : number s = Some (lx, r) → length r < length s.
Proof.
  unfold number. intros H.
  repeat (case_match; simplify_eq; simpl in *);
    repeat match goal with
           | H : spanDigits _ = _ |- _ => apply spanDigits_length in H; simpl in H
           end; lia.
Qed.

Lemma literal_length s v r : literal s = Ok v r → length r < length s.
Proof.
  unfold literal. intros H.
  repeat (case_match; simplify_eq);
    repeat match goal with
           | H : Path.stripPrefix _ _ = Some _ |- _ =>
               apply stripPrefix_length in H; simpl in H
           | H : number _ = Some _ |- _ => apply number_length in H
           end; lia.
Qed.

Ltac lengths :=
  repeat match goal with
         | H : skipWs ?s = _ |- _ =>
             let L := fresh "L" in
             pose proof (skipWs_length s) as L; rewrite H in L; clear H
         | H : stringBody _ _ = Some _ |- _ => apply stringBody_length in H
         | H : literal _ = Ok _ _ |- _ => apply literal_length in H
         end; simpl in *.

Lemma parsers_consume n :
  (∀ s v r, value n s = Ok v r → length r < length s) ∧
  (∀ s acc v r, elements n s acc = Ok v r → length r < length s) ∧
  (∀ s acc v r, members n s acc = Ok v r → length r < length s).
Proof.
  induction n as [|n (IHv & IHe & IHm)]; [by repeat split|].
  repeat split; intros until r; simpl; intros H;
    repeat (case_match; simplify_eq);
    repeat match goal with
           | H : value n _ = Ok _ _ |- _ => apply IHv in H
           | H : elements n _ _ = Ok _ _ |- _ => apply IHe in H
           | H : members n _ _ = Ok _ _ |- _ => apply IHm in H
           end; lengths; lia.
Qed.

Lemma parsers_fuel n :
  (∀ s, 2 * length s < n → value n s ≠ OutOfFuel) ∧
  (∀ s acc, 2 * length s + 1 < n → elements n s acc ≠ OutOfFuel) ∧
  (∀ s acc, 2 * length s + 1 < n → members n s acc ≠ OutOfFuel).
Proof.
  induction n as [|n (IHv & IHe & IHm)]; [repeat split; intros; lia|].
  repeat split; intros *; simpl; intros Hn H;
    repeat (case_match; simplify_eq);
    repeat match goal with
           | H : value n _ = Ok _ _ |- _ => apply (proj1 (parsers_consume n)) in H
           | H : literal _ = OutOfFuel |- _ =>
               unfold literal in H; repeat (case_match; simplify_eq)
           end;
    lengths;
    match goal with
    | H : value n _ = OutOfFuel |- _ => apply IHv in H; [done|lia]
    | H : elements n _ _ = OutOfFuel |- _ => apply IHe in H; [done|lia]
    | H : members n _ _ = OutOfFuel |- _ => apply IHm in H; [done|lia]
    end.
Qed.

(** [JSON.parse] throws only on a genuine syntax error: the parser never
    runs out of fuel. *)
Lemma value_fuel text :
  value (2 * String.length text + 1) (chars text) ≠ OutOfFuel.
Proof.
  apply parsers_fuel.
  assert (length (chars text) = String.length text) as ->; [|lia].
  induction text; simpl; auto.
Qed.

End JSONFacts.

(** ** [contentType] *)

Lemma str_app a b : str (a ++ b) = (str a ++ str b)%string.
Proof. induction a as [|c a IH]; simpl; [done|]. by rewrite IH. Qed.

Lemma str_inj a b : str a = str b → a = b.
Proof. intros H. rewrite <- (chars_str a), <- (chars_str b). by rewrite H. Qed.

Lemma dropWhile_stops p l d r : Path.dropWhile p l = d :: r → p d = false.
Proof.
  induction l as [|c l IH]; simpl; [done|].
  destruct (p c) eqn:E; [done|]. intros [= <- <-]. done.
Qed.

Lemma stripPrefix_app pre l : Path.stripPrefix pre (pre ++ l) = Some l.
Proof.
  induction pre as [|a pre IH]; simpl; [done|].
  by rewrite Ascii.eqb_refl.
Qed.

(** When the extension is [.gz], the reversed last portion starts with the
    reversed suffix. *)
Lemma extname_gz_portion name :
  Path.extname name = ".gz" →
  ∃ rest, Path.lastPortionRev (chars name) = ["z"; "g"; "."]%char ++ rest.
Proof.
  unfold Path.extname. intros H.
  assert (Path.extnameRev (Path.lastPortionRev (chars name))
          = ["z"; "g"; "."]%char) as E.
  { apply (f_equal chars) in H. rewrite chars_str in H.
    apply (f_equal (@rev ascii)) in H. by rewrite rev_involutive in H. }
  clear H. set (f := Path.lastPortionRev (chars name)) in *.
  unfold Path.extnameRev in E.
  pose proof (take_drop_while (λ c, negb (Path.isDot c)) f) as TD.
  destruct (Path.dropWhile (λ c, negb (Path.isDot c)) f) as [|d [|d' r]] eqn:D;
    [done..|].
  case_decide; [done|].
  pose proof (dropWhile_stops _ _ _ _ D) as Hd.
  destruct (Path.takeWhile (λ c, negb (Path.isDot c)) f) as [|c1 [|c2 [|c3 t]]];
    simplify_eq/=; eexists; by rewrite <- TD.
Qed.

Lemma basename_gz name :
  Path.extname name = ".gz" →
  Path.lastPortion name = (Path.basename name ".gz" ++ ".gz")%string.
Proof.
  intros H. destruct (extname_gz_portion _ H) as [rest E].
  unfold Path.lastPortion, Path.basename. rewrite E.
  change (chars ".gz") with [".";"g";"z"]%char. cbv iota beta.
  change (rev [".";"g";"z"]%char) with ["z"; "g"; "."]%char.
  rewrite (stripPrefix_app ["z"; "g"; "."]%char rest).
  rewrite rev_app_distr. by rewrite str_app.
Qed.

Lemma dropSuffix_app s t : dropSuffix (String.length t) (s ++ t)%string = s.
Proof.
  unfold dropSuffix.
  assert (chars (s ++ t)%string = chars s ++ chars t) as ->.
  { induction s as [|c s IH]; simpl; [done|]. by rewrite IH. }
  assert (String.length t = length (chars t)) as ->.
  { induction t as [|c t IH]; simpl; auto. }
  rewrite length_app, Nat.add_sub, take_app_length. apply str_chars.
Qed.

Lemma withoutGz_basename name :
  withoutGz name
  = if String.eqb (Path.extname name) ".gz"
    then Path.basename name (Path.extname name) else name.
Proof.
  unfold withoutGz. destruct (String.eqb_spec (Path.extname name) ".gz") as [E|E].
  - rewrite decide_True by done. rewrite E, (basename_gz _ E).
    apply (dropSuffix_app _ ".gz").
  - by rewrite decide_False.
Qed.

(** C9. [contentType] is a function of the name alone, defined for every
    name: the type is the table's entry for the extension of the name, read
    after a compression suffix [.gz] has been stripped from the last
    portion of the name; an extension the table does not list gives
    [application/octet-stream]; [foo.html.gz] gives [text/html]. *)
Theorem contentType_table (name : string) :
  contentType name = mimeOf (Path.extname (withoutGz name))
  ∧ (∀ ext, assoc ext mimeTable = None →
       mimeOf ext = "application/octet-stream")
  ∧ (Path.extname name = ".gz" →
       Path.lastPortion name = (withoutGz name ++ ".gz")%string)
  ∧ (Path.extname name ≠ ".gz" → withoutGz name = name)
  ∧ contentType "foo.html.gz" = "text/html".
Proof.
  split_and!.
  - rewrite withoutGz_basename. unfold contentType, mimeOf, mimeTable, assoc.
    repeat case_match; simplify_eq; done.
  - intros ext H. unfold mimeOf. by rewrite H.
  - intros E. rewrite (basename_gz _ E). f_equal.
    rewrite withoutGz_basename, E. done.
  - intros E. unfold withoutGz. by rewrite decide_False.
  - vm_compute. reflexivity.
Qed.

(** ** [iterS3] *)

Module ListerFacts.

Import Lister.







End ListerFacts.


(** Two good pages and then an error: the promise carries that error, and
    the third request was made with the last key of the second page. *)
Example iterS3_third_page_fails :
  let svc (n : nat) (marker : option string) :=
    match n with
    | 0 => {| Lister.err := None;
              Lister.data := Some {| Lister.Contents := [Build_RemoteObject "a" None];
                                     Lister.IsTruncated := true |} |}
    | 1 => {| Lister.err := None;
              Lister.data := Some {| Lister.Contents := [Build_RemoteObject "b" None];
                                     Lister.IsTruncated := true |} |}
    | _ => {| Lister.err := Some "SlowDown"; Lister.data := None |}
    end in
  Lister.result (Lister.final (Lister.iterS3 9 svc))
    = Lister.RejectedWith (Some "SlowDown")
  ∧ map fst (Lister.exchanges (Lister.iterS3 9 svc)) = [None; Some "a"; Some "b"]
  ∧ Lister.ended (Lister.iterS3 9 svc) = Lister.Threw.
Proof. vm_compute. done. Qed.

(** ** [iterFS] *)

Module WalkerFacts.

Import Walker.

Lemma filesOf_app a b : filesOf (a ++ b) = filesOf a ++ filesOf b.
Proof. unfold filesOf. by rewrite List.filter_app, map_app. Qed.

Lemma concatAll_from acc rs paths :
  fold_left
    (λ a b, match a, b with
            | Files x, Files y => Files (x ++ y)
            | OutOfFuel, _ | _, OutOfFuel => OutOfFuel
            | _, _ => Rejected
            end) rs acc = Files paths →
  ∃ a ps, acc = Files a ∧ Forall2 (λ r p, r = Files p) rs ps
          ∧ paths = a ++ concat ps.
Proof.
  revert acc. induction rs as [|r rs IH]; simpl; intros acc H.
  - exists paths, []. split_and!; [done|constructor|]. simpl. by rewrite app_nil_r.
  - apply IH in H as (a & ps & Ha & Hps & ->).
    destruct acc as [x| |], r as [y| |]; simplify_eq.
    exists x, (y :: ps). split_and!; [done|by constructor|].
    simpl. by rewrite app_assoc.
Qed.

Section Walk.

Context (readdir : string → option (list string)) (stat : string → option bool)
        (inherited : string → bool).



Lemma iterFS_files ignore fuel dirname paths :
  (iterFS readdir stat inherited ignore fuel dirname).2 = Files paths →
  paths = filesOf (iterFS readdir stat inherited ignore fuel dirname).1.
Proof.
  revert dirname paths. induction fuel as [|fuel IH]; intros dirname paths;
    simpl; [done|].
  destruct (readdir dirname) as [names|]; simpl; [|done].
  unfold concatAll. intros H. apply concatAll_from in H as (a & ps & [= <-] & F & ->).
  simpl. clear -IH F. revert ps F.
  induction names as [|f names IHn]; simpl; intros ps F.
  - by inversion F.
  - inversion F as [|r p rs ps' Hr Hrs]; subst. simpl. rewrite filesOf_app.
    f_equal; [|by apply IHn].
    destruct (stat (Path.join dirname f)) as [[]|]; simpl in *; [| |done].
    + specialize (IH (Path.join dirname f) p).
      destruct (iterFS _ _ _ _ fuel _) as [vs r]. simpl in *.
      unfold filesOf. simpl. by apply IH.
    + by simplify_eq.
Qed.

End Walk.

End WalkerFacts.

(** A small tree walked from [.]: the file [length] is printed as ignored
    although [ignore] does not hold it, the file [dist/secret] is not
    printed although [ignore] holds it, and both are emitted. *)
Example iterFS_in_operator :
  let readdir (d : string) :=
    if String.eqb d "." then Some ["length"; "dist"]
    else if String.eqb d "dist" then Some ["secret"]
    else None in
  let stat (p : string) :=
    if String.eqb p "dist" then Some true
    else if String.eqb p "length" || String.eqb p "dist/secret" then Some false
    else None in
  Walker.iterFS readdir stat (λ _, false) ["dist/secret"] 3 "."
  = ([ {| Walker.fullpath := "length"; Walker.isDirectory := false;
          Walker.logged := true |};
       {| Walker.fullpath := "dist"; Walker.isDirectory := true;
          Walker.logged := false |};
       {| Walker.fullpath := "dist/secret"; Walker.isDirectory := false;
          Walker.logged := false |} ],
     Walker.Files ["length"; "dist/secret"]).
Proof. vm_compute. reflexivity. Qed.

(** ** The object [s3Map] *)

Module DictFacts.

Import Dict.

(** The name [__proto__] never becomes an own property. *)
Definition wf (d : t) : Prop := own d !! protoName = None.

Lemma wf_empty : wf empty.
Proof. done. Qed.

Lemma wf_set d k v : wf d → wf (set d k v).
Proof.
  unfold wf, set. intros H. case_decide; simpl; [done|].
  by rewrite lookup_insert_ne.
Qed.

Lemma wf_remove d k : wf d → wf (remove d k).
Proof.
  unfold wf, remove. simpl. intros H.
  destruct (decide (k = protoName)) as [->|?];
    [by rewrite lookup_delete_eq|by rewrite lookup_delete_ne].
Qed.

Lemma lookup_set d k v k' :
  wf d → lookup (set d k v) k' = if decide (k' = k) then Some v else lookup d k'.
Proof.
  unfold wf, lookup, set. intros H.
  destruct (decide (k = protoName)) as [->|Hk]; simpl.
  - destruct (decide (k' = protoName)) as [->|?]; [by rewrite H|done].
  - destruct (decide (k' = k)) as [->|?].
    + by rewrite lookup_insert_eq.
    + by rewrite lookup_insert_ne.
Qed.

Lemma elem_of_keys d k : k ∈ keys d ↔ is_Some (own d !! k).
Proof.
  unfold keys. rewrite list_elem_of_fmap. split.
  - intros ([k' o] & -> & H%elem_of_map_to_list). simpl. eauto.
  - intros [o H]. exists (k, o). split; [done|]. by apply elem_of_map_to_list.
Qed.

Lemma NoDup_keys d : NoDup (keys d).
Proof. apply NoDup_fst_map_to_list. Qed.

Lemma s3MapOf_snoc l o : s3MapOf (l ++ [o]) = set (s3MapOf l) (Key o) o.
Proof. unfold s3MapOf. by rewrite fold_left_app. Qed.

Lemma wf_s3MapOf l : wf (s3MapOf l).
Proof.
  induction l as [|o l IH] using rev_ind; [done|].
  rewrite s3MapOf_snoc. by apply wf_set.
Qed.

(** With distinct keys in the listing, [s3Map[k]] is the listed record
    whose [Key] is [k], for every [k], [__proto__] included. *)
Lemma lookup_s3MapOf l o :
  NoDup (Key <$> l) → o ∈ l → lookup (s3MapOf l) (Key o) = Some o.
Proof.
  induction l as [|o' l IH] using rev_ind; [by intros _ ?%elem_of_nil|].
  rewrite fmap_app, s3MapOf_snoc. simpl.
  intros [ND [Hnot _]]%NoDup_app Ho.
  rewrite lookup_set by apply wf_s3MapOf.
  apply elem_of_app in Ho as [Ho|Ho%list_elem_of_singleton].
  - rewrite decide_False; [by apply IH|].
    intros E. apply (Hnot (Key o)); [|rewrite E; by left].
    apply list_elem_of_fmap. eauto.
  - subst. by rewrite decide_True.
Qed.

Lemma lookup_s3MapOf_None l k : k ∉ Key <$> l → lookup (s3MapOf l) k = None.
Proof.
  induction l as [|o' l IH] using rev_ind.
  { intros _. unfold lookup. simpl. rewrite lookup_empty. by case_decide. }
  rewrite fmap_app, s3MapOf_snoc. simpl.
  intros [H1 [H2 _]%not_elem_of_cons]%not_elem_of_app.
  rewrite lookup_set by apply wf_s3MapOf.
  rewrite decide_False by done. by apply IH.
Qed.

(** The own keys are the listed keys other than [__proto__]. *)
Lemma own_s3MapOf l k :
  is_Some (own (s3MapOf l) !! k) ↔ k ∈ Key <$> l ∧ k ≠ protoName.
Proof.
  induction l as [|o l IH] using rev_ind.
  - simpl. rewrite lookup_empty. split; [by intros [? ?]|]. set_solver.
  - rewrite fmap_app, s3MapOf_snoc. unfold set. case_decide as E; simpl.
    + rewrite IH. rewrite elem_of_app, list_elem_of_singleton. naive_solver.
    + rewrite lookup_insert_is_Some', IH, elem_of_app, list_elem_of_singleton.
      naive_solver.
Qed.

End DictFacts.

(** ** Runs as sequences of atomic transitions *)

Section RunFacts.

Context (coerceEq : json → string → option bool)
        (readFile : string → option (list byte)).

Abbreviation atomic := (atomic coerceEq readFile).
Abbreviation reaches := (reaches coerceEq readFile).
Abbreviation step := (step coerceEq readFile).

Lemma reaches_trans s1 s2 s3 : reaches s1 s2 → reaches s2 s3 → reaches s1 s3.
Proof. intros H12 H23. induction H23; [done|]. by eapply reaches_step; eauto. Qed.

Lemma reaches_one s1 s2 : atomic s1 s2 → reaches s1 s2.
Proof. intros H. eapply reaches_step; [apply reaches_refl|done]. Qed.

Lemma chain_reject s : chain (reject s) ≠ Pending.
Proof. unfold reject. by destruct (chain s) eqn:E; simpl; rewrite ?E. Qed.

Lemma settle_reaches s : reaches s (settle s).
Proof.
  unfold settle. destruct (chain s) eqn:C; try apply reaches_refl.
  destruct (deletes s) as [ds|] eqn:D.
  - destruct (forallb isDeleted ds) eqn:F; [|apply reaches_refl].
    apply reaches_one. by eapply DeletesDone.
  - destruct (forallb resolved (tasks s)) eqn:F; [|apply reaches_refl].
    apply reaches_one. by apply UploadsDone.
Qed.

(** Every turn of the event loop is made of atomic transitions. *)
Lemma step_reaches s c : reaches s (step s c).
Proof.
  destruct c as [i|i ok|j ok]; simpl.
  - destruct (tasks s !! i) as [[x []]|] eqn:T; try apply reaches_refl.
    eapply reaches_trans; [|apply settle_reaches]. apply reaches_one.
    unfold onRead. destruct (readFile (distDir ++ x)) as [data|] eqn:R.
    + destruct (compare _ _ _) eqn:V.
      * by eapply Skips.
      * by eapply StartsPut.
      * by eapply CallbackThrows.
    + by eapply ReadFails.
  - destruct (tasks s !! i) as [[x []]|] eqn:T; try apply reaches_refl.
    eapply reaches_trans; [|apply settle_reaches]. apply reaches_one.
    destruct ok; [by eapply PutSucceeds|by eapply PutFails].
  - destruct (deletes s) as [ds|] eqn:D; simpl; [|apply reaches_refl].
    destruct (ds !! j) as [[k []]|] eqn:J; try apply reaches_refl.
    eapply reaches_trans; [|apply settle_reaches]. apply reaches_one.
    unfold onDelete. rewrite D.
    destruct ok; [by eapply DeleteSucceeds|by eapply DeleteFails].
Qed.

Lemma run_reaches s3Files localFiles b sched :
  reaches (initial s3Files localFiles b)
          (run coerceEq readFile s3Files localFiles b sched).
Proof.
  unfold run. induction sched as [|c sched IH] using rev_ind.
  - apply settle_reaches.
  - rewrite fold_left_app. simpl.
    eapply reaches_trans; [exact IH|apply step_reaches].
Qed.

End RunFacts.

(** ** The invariant holds in every state of a run *)

Section ListFacts.

Context (P : task → bool).

Lemma elem_of_paths (l : list task) y :
  y ∈ path <$> filter (λ t, P t) l
  ↔ ∃ i st, l !! i = Some (Task y st) ∧ P (Task y st) = true.
Proof.
  rewrite list_elem_of_fmap. split.
  - intros ([x st] & -> & [HP [i Hi]%list_elem_of_lookup]%list_elem_of_filter).
    exists i, st. split; [done|]. by apply Is_true_eq_true.
  - intros (i & st & Hi & HP). exists (Task y st). split; [done|].
    apply list_elem_of_filter. split; [by apply Is_true_eq_left|].
    apply list_elem_of_lookup. eauto.
Qed.

(** Task [i] changes from a stage outside [P] to one inside. *)
Lemma paths_insert_add (l : list task) i x st st' y :
  l !! i = Some (Task x st) → P (Task x st) = false → P (Task x st') = true →
  y ∈ path <$> filter (λ t, P t) (<[i := Task x st']> l)
  ↔ y = x ∨ y ∈ path <$> filter (λ t, P t) l.
Proof.
  intros Hi Hold Hnew. rewrite !elem_of_paths. split.
  - intros (j & st1 & Hj & HP). apply list_lookup_insert_Some in Hj.
    destruct Hj as [(<- & [= -> ->] & _)|[Hne Hj]]; [by left|]. right. eauto.
  - intros [->|(j & st1 & Hj & HP)].
    + exists i, st'. split; [|done]. apply list_lookup_insert_Some.
      left. split_and!; [done..|]. by eapply lookup_lt_Some.
    + exists j, st1. split; [|done]. apply list_lookup_insert_Some. right.
      split; [|done]. intros ->. congruence.
Qed.

(** Task [i] changes between two stages that [P] does not tell apart. *)
Lemma paths_insert_same (l : list task) i x st st' y :
  l !! i = Some (Task x st) → P (Task x st) = P (Task x st') →
  y ∈ path <$> filter (λ t, P t) (<[i := Task x st']> l)
  ↔ y ∈ path <$> filter (λ t, P t) l.
Proof.
  intros Hi Heq. rewrite !elem_of_paths. split.
  - intros (j & st1 & Hj & HP). apply list_lookup_insert_Some in Hj.
    destruct Hj as [(<- & [= -> ->] & _)|[Hne Hj]]; [|eauto].
    exists i, st. split; [done|]. congruence.
  - intros (j & st1 & Hj & HP). destruct (decide (j = i)) as [->|Hne].
    + rewrite Hi in Hj. injection Hj as -> ->. exists i, st'. split.
      * apply list_lookup_insert_Some. left. split_and!; [done..|].
        by eapply lookup_lt_Some.
      * congruence.
    + exists j, st1. split; [|done]. apply list_lookup_insert_Some. by right.
Qed.

End ListFacts.

Lemma paths_insert (l : list task) i x st st' :
  l !! i = Some (Task x st) → path <$> <[i := Task x st']> l = path <$> l.
Proof.
  intros Hi. rewrite list_fmap_insert. simpl.
  apply list_insert_id. rewrite list_lookup_fmap, Hi. done.
Qed.

Lemma forallb_resolved_insert (l : list task) i x st :
  l !! i = Some (Task x st) → resolved (Task x st) = false →
  forallb resolved l = true → False.
Proof.
  intros Hi Hr Hall. rewrite forallb_forall in Hall.
  specialize (Hall (Task x st)). rewrite Hr in Hall.
  enough (true = false) by done. symmetry. apply Hall.
  apply list_elem_of_In, list_elem_of_lookup. eauto.
Qed.

Lemma deletesLast_cons xs ev (tr : list event) :
  (∀ k, ev ≠ DeleteObject k) → deletesLast xs tr → deletesLast xs (ev :: tr).
Proof. intros H Htr. split; [|done]. intros k ->. by destruct (H k). Qed.

Lemma deletesLast_app xs (new tr : list event) :
  (∀ x, x ∈ xs → ∃ e, e ∈ tr ∧ settles x e) →
  deletesLast xs tr → deletesLast xs (new ++ tr).
Proof.
  intros H Htr. induction new as [|ev new IH]; [done|]. split; [|done].
  intros k _ x Hx. destruct (H x Hx) as (e & He & Hs).
  exists e. split; [|done]. apply elem_of_app. by right.
Qed.

(** The split form of [deletesLast]. *)
Lemma deletesLast_split xs (tr later : list event) k earlier :
  deletesLast xs tr → tr = later ++ DeleteObject k :: earlier →
  ∀ x, x ∈ xs → LogSkipping x ∈ earlier ∨ LogUploaded x ∈ earlier.
Proof.
  intros Htr ->. induction later as [|ev later IH]; simpl in Htr.
  - destruct Htr as [H _]. intros x Hx.
    destruct (H k eq_refl x Hx) as (e & He & [->| ->]); auto.
  - apply IH, Htr.
Qed.

Section InvFacts.

Context (coerceEq : json → string → option bool)
        (readFile : string → option (list byte))
        (s3Files : list RemoteObject) (localFiles : list string)
        (b0 : gmap string (option string)).

Abbreviation Inv := (inv readFile s3Files localFiles b0).
Abbreviation atomic := (atomic coerceEq readFile).
Abbreviation reaches := (reaches coerceEq readFile).

Lemma inv_initial : Inv (initial s3Files localFiles b0).
Proof.
  assert (∀ (P : task → bool) (l : list string),
    (∀ x, P (Task x Reading) = false) →
    filter (λ t, P t) ((λ f, Task (relative f) Reading) <$> l) = [])
    as Hnone.
  { intros P l HP. induction l as [|f l IH]; [reflexivity|]. simpl.
    rewrite filter_cons_False; [done|]. rewrite HP. by intros []. }
  constructor; simpl.
  - by rewrite <- list_fmap_compose.
  - done.
  - intros k. unfold claimed. simpl. rewrite Hnone by done.
    rewrite decide_False; [done|]. apply not_elem_of_nil.
  - intros i x data Hi. apply list_lookup_fmap_Some in Hi as (f & Hf & _).
    discriminate.
  - intros x. unfold unchanged. simpl. rewrite Hnone by done.
    rewrite list_elem_of_singleton. split; [done|by intros ?%elem_of_nil].
  - intros x. unfold toUpload. simpl. rewrite Hnone by done.
    rewrite list_elem_of_singleton. split; [done|by intros ?%elem_of_nil].
  - intros x c d. by rewrite list_elem_of_singleton.
  - intros x. unfold uploaded. simpl. rewrite Hnone by done.
    rewrite list_elem_of_singleton. split; [done|by intros ?%elem_of_nil].
  - intros k. unfold toDelete. simpl.
    rewrite list_elem_of_singleton. split; [done|by intros ?%elem_of_nil].
  - done.
  - intros x. unfold uploaded. simpl. rewrite Hnone by done.
    by intros ?%elem_of_nil.
  - done.
  - done.
  - split; [|done]. by intros k.
Qed.

(** A rejection changes the chain only. *)
Lemma inv_reject s : Inv s → Inv (reject s).
Proof.
  intros I. unfold reject. destruct (chain s) eqn:C; [|done..].
  destruct I. constructor; simpl; try done.
Qed.

(** While a file promise is pending there are no deletes and the chain is
    not fulfilled. *)
Lemma pending_task s i x st :
  Inv s → tasks s !! i = Some (Task x st) → resolved (Task x st) = false →
  deletes s = None ∧ chain s ≠ Fulfilled.
Proof.
  intros I Hi Hr. split.
  - destruct (deletes s) as [ds|] eqn:D; [|done].
    destruct (inv_deletes _ _ _ _ _ I ds D) as [Hall _].
    destruct (forallb_resolved_insert _ _ _ _ Hi Hr Hall).
  - intros C. destruct (inv_fulfilled _ _ _ _ _ I C) as [Hall _].
    destruct (forallb_resolved_insert _ _ _ _ Hi Hr Hall).
Qed.

(** A pending promise changes stage, and neither the plan's sets nor the
    trace change with it. *)
Lemma inv_setStage_quiet s i x st st' :
  Inv s → tasks s !! i = Some (Task x st) →
  resolved (Task x st) = false → resolved (Task x st') = false →
  skipDecided (Task x st) = skipDecided (Task x st') →
  uploadDecided (Task x st) = uploadDecided (Task x st') →
  (∀ data, st' = Putting data → readFile (distDir ++ x) = Some data) →
  Inv (setStage i x st' s).
Proof.
  intros I Hi Hr Hr' Hs Hu Hp.
  destruct (pending_task s i x st I Hi Hr) as [D C].
  assert (isUploaded (Task x st) = isUploaded (Task x st')) as Hup.
  { by destruct st, st'. }
  destruct I. constructor; simpl.
  - by rewrite (paths_insert _ _ _ _ _ Hi).
  - done.
  - intros k. rewrite inv_own0. unfold claimed. simpl.
    apply decide_ext. symmetry. eapply paths_insert_same; [done|congruence].
  - intros j y data Hj. apply list_lookup_insert_Some in Hj.
    destruct Hj as [(<- & [= -> ->] & _)|[_ Hj]]; [by apply Hp|eauto].
  - intros y. rewrite inv_skip_log0. unfold unchanged. simpl.
    symmetry. by eapply paths_insert_same.
  - intros y. rewrite inv_upload_log0. unfold toUpload. simpl.
    symmetry. by eapply paths_insert_same.
  - intros y c d Hy. destruct (inv_put_req0 y c d Hy) as (H1 & H2 & H3).
    split_and!; [|done..]. unfold toUpload. simpl.
    by eapply paths_insert_same.
  - intros y. rewrite inv_uploaded_log0. unfold uploaded. simpl.
    symmetry. by eapply paths_insert_same.
  - done.
  - intros ds. by rewrite D.
  - intros y Hy. apply inv_bucket_up0. unfold uploaded in *. simpl in Hy.
    exact (proj1 (paths_insert_same isUploaded _ i x st st' y Hi Hup) Hy).
  - intros k Hk. apply inv_bucket_rest0. unfold uploaded in *. simpl in Hk.
    intros Hk'. apply Hk.
    exact (proj2 (paths_insert_same isUploaded _ i x st st' k Hi Hup) Hk').
  - done.
  - done.
Qed.

(** The callback skips: line 152-154. *)
Lemma inv_skips s i x :
  Inv s → tasks s !! i = Some (Task x Reading) →
  Inv (setStage i x Skipped (claim x (emit [LogSkipping x] s))).
Proof.
  intros I Hi.
  destruct (pending_task s i x Reading I Hi eq_refl) as [D C].
  destruct I. constructor; simpl.
  - by rewrite (paths_insert _ _ _ _ _ Hi).
  - done.
  - intros k. unfold claimed. simpl.
    pose proof (paths_insert_add resolved (tasks s) i x Reading Skipped k Hi
                  eq_refl eq_refl) as E.
    destruct (decide (k = x)) as [->|Hk].
    + rewrite lookup_delete_eq. rewrite decide_True; [done|]. apply E. by left.
    + rewrite lookup_delete_ne by done. rewrite inv_own0.
      apply decide_ext. unfold claimed. rewrite E. naive_solver.
  - intros j y data Hj. apply list_lookup_insert_Some in Hj.
    destruct Hj as [(_ & [=] & _)|[_ Hj]]. eauto.
  - intros y. unfold unchanged. simpl.
    rewrite (paths_insert_add skipDecided (tasks s) i x Reading Skipped y Hi
               eq_refl eq_refl).
    rewrite elem_of_cons, inv_skip_log0. naive_solver.
  - intros y. unfold toUpload. simpl.
    rewrite (paths_insert_same uploadDecided (tasks s) i x Reading Skipped y Hi
               eq_refl).
    rewrite elem_of_cons, inv_upload_log0. naive_solver.
  - intros y c d [[=]|Hy]%elem_of_cons.
    destruct (inv_put_req0 y c d Hy) as (H1 & H2 & H3).
    split_and!; [|done..]. unfold toUpload. simpl.
    by apply (paths_insert_same uploadDecided (tasks s) i x Reading Skipped y Hi).
  - intros y. unfold uploaded. simpl.
    rewrite (paths_insert_same isUploaded (tasks s) i x Reading Skipped y Hi
               eq_refl).
    rewrite elem_of_cons, inv_uploaded_log0. naive_solver.
  - intros k. rewrite elem_of_cons, inv_delete_req0. naive_solver.
  - intros ds. by rewrite D.
  - intros y Hy. apply inv_bucket_up0. unfold uploaded in *. simpl in Hy.
    exact (proj1 (paths_insert_same isUploaded _ i x Reading Skipped y Hi
                    eq_refl) Hy).
  - intros k Hk. apply inv_bucket_rest0. unfold uploaded in *. simpl in Hk.
    intros Hk'. apply Hk.
    exact (proj2 (paths_insert_same isUploaded _ i x Reading Skipped k Hi
                    eq_refl) Hk').
  - done.
  - by apply deletesLast_cons.
Qed.

(** The callback starts a put: lines 157-158. *)
Lemma inv_startsPut s i x data :
  Inv s → tasks s !! i = Some (Task x Reading) →
  readFile (distDir ++ x) = Some data →
  Inv (setStage i x (Putting data)
         (emit [PutObject x (contentType x) data; LogUploading x] s)).
Proof.
  intros I Hi R.
  destruct (pending_task s i x Reading I Hi eq_refl) as [D C].
  pose proof (λ y, paths_insert_add uploadDecided (tasks s) i x Reading
                     (Putting data) y Hi eq_refl eq_refl) as EU.
  destruct I. constructor; simpl.
  - by rewrite (paths_insert _ _ _ _ _ Hi).
  - done.
  - intros k. rewrite inv_own0. unfold claimed. simpl.
    apply decide_ext. symmetry.
    by apply (paths_insert_same resolved (tasks s) i x Reading (Putting data)).
  - intros j y data' Hj. apply list_lookup_insert_Some in Hj.
    destruct Hj as [(_ & [= -> ->] & _)|[_ Hj]]; eauto.
  - intros y. unfold unchanged. simpl.
    rewrite (paths_insert_same skipDecided (tasks s) i x Reading (Putting data)
               y Hi eq_refl).
    rewrite !elem_of_cons, inv_skip_log0. naive_solver.
  - intros y. unfold toUpload. simpl. rewrite EU.
    rewrite !elem_of_cons, inv_upload_log0. naive_solver.
  - intros y c d. unfold toUpload. simpl. rewrite EU.
    intros [[= -> -> ->]|[[=]|Hy]%elem_of_cons]%elem_of_cons; [auto|].
    destruct (inv_put_req0 y c d Hy) as (H1 & H2 & H3). auto.
  - intros y. unfold uploaded. simpl.
    rewrite (paths_insert_same isUploaded (tasks s) i x Reading (Putting data)
               y Hi eq_refl).
    rewrite !elem_of_cons, inv_uploaded_log0. naive_solver.
  - intros k. rewrite !elem_of_cons, inv_delete_req0. naive_solver.
  - intros ds. by rewrite D.
  - intros y Hy. apply inv_bucket_up0. unfold uploaded in *. simpl in Hy.
    exact (proj1 (paths_insert_same isUploaded _ i x Reading (Putting data) y
                    Hi eq_refl) Hy).
  - intros k Hk. apply inv_bucket_rest0. unfold uploaded in *. simpl in Hk.
    intros Hk'. apply Hk.
    exact (proj2 (paths_insert_same isUploaded _ i x Reading (Putting data) k
                    Hi eq_refl) Hk').
  - done.
  - by do 2 (apply deletesLast_cons; [done|]).
Qed.

(** Which keys are uploaded or claimed, when every promise has resolved. *)
Lemma uploaded_claimed s x : x ∈ uploaded s → x ∈ claimed s.
Proof.
  unfold uploaded, claimed. rewrite !elem_of_paths.
  intros (i & st & Hi & Hu). exists i, st. split; [done|]. by destruct st.
Qed.

Lemma key_not_claimed s k :
  Inv s → k ∈ Dict.keys (s3Map s) → k ∉ claimed s.
Proof.
  intros I [o Ho]%DictFacts.elem_of_keys Hk.
  rewrite (inv_own _ _ _ _ _ I) in Ho. by rewrite decide_True in Ho.
Qed.

(** The put succeeds: lines 159-160. *)
Lemma inv_putSucceeds s i x data :
  Inv s → tasks s !! i = Some (Task x (Putting data)) →
  Inv (onPut i x data true s).
Proof.
  intros I Hi. unfold onPut.
  destruct (pending_task s i x (Putting data) I Hi eq_refl) as [D C].
  pose proof (inv_putting _ _ _ _ _ I i x data Hi) as R.
  pose proof (λ y, paths_insert_add isUploaded (tasks s) i x (Putting data)
                     Uploaded y Hi eq_refl eq_refl) as EU.
  destruct I. constructor; simpl.
  - by rewrite (paths_insert _ _ _ _ _ Hi).
  - done.
  - intros k. unfold claimed. simpl.
    pose proof (paths_insert_add resolved (tasks s) i x (Putting data) Uploaded
                  k Hi eq_refl eq_refl) as E.
    destruct (decide (k = x)) as [->|Hk].
    + rewrite lookup_delete_eq. rewrite decide_True; [done|]. apply E. by left.
    + rewrite lookup_delete_ne by done. rewrite inv_own0.
      apply decide_ext. unfold claimed. rewrite E. naive_solver.
  - intros j y data' Hj. apply list_lookup_insert_Some in Hj.
    destruct Hj as [(_ & [=] & _)|[_ Hj]]. eauto.
  - intros y. unfold unchanged. simpl.
    rewrite (paths_insert_same skipDecided (tasks s) i x (Putting data) Uploaded
               y Hi eq_refl).
    rewrite elem_of_cons, inv_skip_log0. naive_solver.
  - intros y. unfold toUpload. simpl.
    rewrite (paths_insert_same uploadDecided (tasks s) i x (Putting data)
               Uploaded y Hi eq_refl).
    rewrite elem_of_cons, inv_upload_log0. naive_solver.
  - intros y c d [[=]|Hy]%elem_of_cons.
    destruct (inv_put_req0 y c d Hy) as (H1 & H2 & H3).
    split_and!; [|done..]. unfold toUpload. simpl.
    by apply (paths_insert_same uploadDecided (tasks s) i x (Putting data)
                Uploaded y Hi).
  - intros y. unfold uploaded. simpl. rewrite EU.
    rewrite elem_of_cons, inv_uploaded_log0. naive_solver.
  - intros k. rewrite elem_of_cons, inv_delete_req0. naive_solver.
  - intros ds. by rewrite D.
  - intros y. unfold uploaded. simpl. rewrite EU.
    destruct (decide (y = x)) as [->|Hy].
    + intros _. exists data. by rewrite lookup_insert_eq.
    + intros [?|Hy']; [done|]. rewrite lookup_insert_ne by done.
      by apply inv_bucket_up0.
  - intros k. unfold uploaded. simpl. rewrite EU. intros Hk.
    rewrite lookup_insert_ne by naive_solver.
    apply inv_bucket_rest0. naive_solver.
  - done.
  - by apply deletesLast_cons.
Qed.

Lemma deletes_fst_insert (ds : list (string * dstatus)) j k st st' :
  ds !! j = Some (k, st) → (<[j := (k, st')]> ds).*1 = ds.*1.
Proof.
  intros Hj. rewrite list_fmap_insert. simpl.
  apply list_insert_id. by rewrite list_lookup_fmap, Hj.
Qed.

Lemma elem_of_deleted (ds : list (string * dstatus)) y :
  y ∈ (filter (λ d, isDeleted d) ds).*1 ↔ ∃ i, ds !! i = Some (y, Deleted).
Proof.
  rewrite list_elem_of_fmap. split.
  - intros ([k st] & -> & [Hd [i Hi]%list_elem_of_lookup]%list_elem_of_filter).
    exists i. by destruct st.
  - intros [i Hi]. exists (y, Deleted). split; [done|].
    apply list_elem_of_filter. split; [done|]. apply list_elem_of_lookup. eauto.
Qed.

Lemma forallb_isDeleted_lookup (ds : list (string * dstatus)) j k st :
  forallb isDeleted ds = true → ds !! j = Some (k, st) → st = Deleted.
Proof.
  intros Hall Hj. rewrite forallb_forall in Hall.
  specialize (Hall (k, st)). destruct st; try done;
    discriminate Hall; apply list_elem_of_In, list_elem_of_lookup; eauto.
Qed.

(** A delete succeeds. *)
Lemma inv_deleteSucceeds s j k ds :
  Inv s → deletes s = Some ds → ds !! j = Some (k, Deleting) →
  Inv (setDeletes (<[j := (k, Deleted)]> ds) (setBucket (delete k (bucket s)) s)).
Proof.
  intros I D Hj.
  destruct (inv_deletes _ _ _ _ _ I ds D) as [Hall Hkeys].
  assert (k ∈ Dict.keys (s3Map s)) as Hk.
  { rewrite <- Hkeys. apply list_elem_of_fmap. exists (k, Deleting).
    split; [done|]. apply list_elem_of_lookup. eauto. }
  pose proof (key_not_claimed s k I Hk) as Hnc.
  destruct I. constructor; simpl; try done.
  - intros k'. rewrite inv_delete_req0. unfold toDelete. simpl. rewrite D.
    by rewrite (deletes_fst_insert _ _ _ _ _ Hj).
  - intros ds' [= <-]. by rewrite (deletes_fst_insert _ _ _ _ _ Hj).
  - intros x Hx. destruct (inv_bucket_up0 x Hx) as (data & R & B).
    exists data. split; [done|]. rewrite lookup_delete_ne; [done|].
    intros ->. by apply Hnc, uploaded_claimed.
  - intros k' Hk'. unfold deletedKeys. simpl.
    destruct (decide (k' = k)) as [->|Hne].
    + rewrite lookup_delete_eq. rewrite decide_True; [done|].
      apply elem_of_deleted. exists j. apply list_lookup_insert_Some. left.
      split_and!; [done..|]. by eapply lookup_lt_Some.
    + rewrite lookup_delete_ne by done. rewrite (inv_bucket_rest0 k' Hk').
      apply decide_ext. unfold deletedKeys. rewrite D.
      rewrite !elem_of_deleted. split.
      * intros [i Hi]. exists i. apply list_lookup_insert_Some. right.
        split; [|done]. intros <-. congruence.
      * intros [i Hi]. apply list_lookup_insert_Some in Hi.
        destruct Hi as [(_ & [= ->] & _)|[_ Hi]]; [done|eauto].
  - intros C. destruct (inv_fulfilled0 C) as [_ Hd]. rewrite D in Hd.
    by pose proof (forallb_isDeleted_lookup _ _ _ _ Hd Hj).
Qed.

(** A delete fails. *)
Lemma inv_deleteFails s j k ds :
  Inv s → deletes s = Some ds → ds !! j = Some (k, Deleting) →
  Inv (setDeletes (<[j := (k, DeleteFailed)]> ds) s).
Proof.
  intros I D Hj.
  destruct (inv_deletes _ _ _ _ _ I ds D) as [Hall Hkeys].
  destruct I. constructor; simpl; try done.
  - intros k'. rewrite inv_delete_req0. unfold toDelete. simpl. rewrite D.
    by rewrite (deletes_fst_insert _ _ _ _ _ Hj).
  - intros ds' [= <-]. by rewrite (deletes_fst_insert _ _ _ _ _ Hj).
  - intros k' Hk'. rewrite (inv_bucket_rest0 k' Hk').
    apply decide_ext. unfold deletedKeys. simpl. rewrite D.
    rewrite !elem_of_deleted. split.
    + intros [i Hi]. exists i. apply list_lookup_insert_Some. right.
      split; [|done]. intros <-. congruence.
    + intros [i Hi]. apply list_lookup_insert_Some in Hi.
      destruct Hi as [(_ & [=] & _)|[_ Hi]]; eauto.
  - intros C. destruct (inv_fulfilled0 C) as [_ Hd]. rewrite D in Hd.
    by pose proof (forallb_isDeleted_lookup _ _ _ _ Hd Hj).
Qed.

(** When every promise has resolved, each local key has a line saying
    so. *)
Lemma all_settled s x :
  Inv s → forallb resolved (tasks s) = true → x ∈ relative <$> localFiles →
  ∃ e, e ∈ trace s ∧ settles x e.
Proof.
  intros I Hall Hx. rewrite <- (inv_paths _ _ _ _ _ I) in Hx.
  apply list_elem_of_fmap in Hx as ([y st] & -> & Ht). simpl.
  rewrite forallb_forall in Hall.
  specialize (Hall (Task y st) (proj1 (list_elem_of_In _ _) Ht)).
  apply list_elem_of_lookup in Ht as [i Hi].
  destruct st; try done.
  - exists (LogSkipping y). split; [|by left].
    apply (inv_skip_log _ _ _ _ _ I). unfold unchanged.
    apply elem_of_paths. eauto.
  - exists (LogUploaded y). split; [|by right].
    apply (inv_uploaded_log _ _ _ _ _ I). unfold uploaded.
    apply elem_of_paths. eauto.
Qed.

(** The events of lines 170-188. *)
Lemma elem_of_removal (extraFiles : list string) e :
  e ∈ reverse (LogDoneUploading :: LogExtraFiles extraFiles :: LogRemovingExtra
               :: flat_map (λ k, [LogRemoving k; DeleteObject k]) extraFiles)
  ↔ e = LogDoneUploading ∨ e = LogExtraFiles extraFiles ∨ e = LogRemovingExtra
    ∨ ∃ k, k ∈ extraFiles ∧ (e = LogRemoving k ∨ e = DeleteObject k).
Proof.
  rewrite elem_of_reverse, !elem_of_cons, list_elem_of_In, in_flat_map.
  setoid_rewrite <- list_elem_of_In. setoid_rewrite elem_of_cons.
  setoid_rewrite elem_of_cons. setoid_rewrite elem_of_nil. naive_solver.
Qed.

Lemma deleting_none (ks : list string) :
  (filter (λ d, isDeleted d) ((λ k, (k, Deleting)) <$> ks)).*1 = [].
Proof.
  induction ks as [|k ks IH]; [reflexivity|]. simpl.
  rewrite filter_cons_False; [done|]. by intros [].
Qed.

(** The continuation of lines 163-189. *)
#[local] Arguments reverse : simpl never.
#[local] Arguments flat_map : simpl never.

Lemma inv_afterUploads s :
  Inv s → chain s = Pending → deletes s = None →
  forallb resolved (tasks s) = true → Inv (afterUploads s).
Proof.
  intros I C D Hall. unfold afterUploads.
  pose proof (λ x, all_settled s x I Hall) as Hset.
  destruct (Dict.keys (s3Map s)) as [|k0 ks] eqn:K.
  - destruct I. constructor; simpl; try done.
    + intros y. rewrite !elem_of_cons, inv_skip_log0. naive_solver.
    + intros y. rewrite !elem_of_cons, inv_upload_log0. naive_solver.
    + intros y c d [[=]|[[=]|Hy]%elem_of_cons]%elem_of_cons. eauto.
    + intros y. rewrite !elem_of_cons, inv_uploaded_log0. naive_solver.
    + intros k. rewrite !elem_of_cons, inv_delete_req0. naive_solver.
    + intros _. by rewrite D.
  - remember (k0 :: ks) as E eqn:HE. clear HE.
    destruct I. constructor; simpl; try done.
    + intros y. rewrite elem_of_app, elem_of_removal, inv_skip_log0.
      naive_solver.
    + intros y. rewrite elem_of_app, elem_of_removal, inv_upload_log0.
      naive_solver.
    + intros y c d. rewrite elem_of_app, elem_of_removal.
      intros [H|H]; [naive_solver|eauto].
    + intros y. rewrite elem_of_app, elem_of_removal, inv_uploaded_log0.
      naive_solver.
    + intros k. rewrite elem_of_app, elem_of_removal, inv_delete_req0.
      unfold toDelete. simpl. rewrite D.
      rewrite <- list_fmap_compose, list_fmap_id.
      split; [|naive_solver].
      intros [H|H%elem_of_nil]; [|done]. naive_solver.
    + intros ds [= <-]. split; [done|].
      by rewrite <- list_fmap_compose, list_fmap_id.
    + intros k Hk. rewrite (inv_bucket_rest0 k Hk).
      apply decide_ext. unfold deletedKeys. simpl. rewrite D.
      rewrite deleting_none. done.
    + by rewrite C.
    + apply deletesLast_app; [|done]. intros x Hx. by apply Hset.
Qed.

(** The continuation of line 191. *)
Lemma inv_deletesDone s ds :
  Inv s → chain s = Pending → deletes s = Some ds →
  forallb isDeleted ds = true → Inv (fulfil (emit [LogDone] s)).
Proof.
  intros I C D Hall.
  destruct (inv_deletes _ _ _ _ _ I ds D) as [Hres Hkeys].
  destruct I. constructor; simpl; try done.
  - intros y. rewrite !elem_of_cons, inv_skip_log0. naive_solver.
  - intros y. rewrite !elem_of_cons, inv_upload_log0. naive_solver.
  - intros y c d [[=]|Hy]%elem_of_cons. eauto.
  - intros y. rewrite !elem_of_cons, inv_uploaded_log0. naive_solver.
  - intros k. rewrite !elem_of_cons, inv_delete_req0. naive_solver.
  - intros _. by rewrite D.
Qed.

(** Every atomic transition keeps the invariant. *)
Lemma inv_atomic s s' : Inv s → atomic s s' → Inv s'.
Proof.
  intros I A. destruct A.
  - apply inv_reject. by eapply inv_setStage_quiet.
  - apply inv_reject. by eapply inv_setStage_quiet.
  - by apply inv_skips.
  - by apply inv_startsPut.
  - by apply inv_putSucceeds.
  - unfold onPut. apply inv_reject.
    eapply inv_setStage_quiet; try done.
  - by apply inv_deleteSucceeds.
  - apply inv_reject. by apply inv_deleteFails.
  - by apply inv_afterUploads.
  - by eapply inv_deletesDone.
Qed.

Lemma inv_reaches s :
  reaches (initial s3Files localFiles b0) s → Inv s.
Proof.
  intros R. induction R; [apply inv_initial|]. by eapply inv_atomic.
Qed.

(** The invariant holds after every schedule. *)
Lemma inv_run sched :
  Inv (run coerceEq readFile s3Files localFiles b0 sched).
Proof. apply inv_reaches, run_reaches. Qed.

End InvFacts.

(** ** With distinct local keys, each file meets its fate *)

Section FateFacts.

Context (coerceEq : json → string → option bool)
        (readFile : string → option (list byte))
        (s3Files : list RemoteObject) (localFiles : list string)
        (b0 : gmap string (option string)).

Abbreviation Inv := (inv readFile s3Files localFiles b0).
Abbreviation atomic := (atomic coerceEq readFile).
Abbreviation reaches := (reaches coerceEq readFile).
Abbreviation fateOf := (fate coerceEq readFile (s3MapOf s3Files)).
Abbreviation theRun := (run coerceEq readFile s3Files localFiles b0).

(** An unclaimed key is found in the map as it was listed. *)
Lemma etagAt_unclaimed s x :
  Inv s → x ∉ claimed s → etagAt (s3Map s) x = etagAt (s3MapOf s3Files) x.
Proof.
  intros I Hx. unfold etagAt, Dict.lookup.
  rewrite (inv_own _ _ _ _ _ I), (inv_proto _ _ _ _ _ I).
  by rewrite decide_False.
Qed.

Lemma claimed_local s x : Inv s → x ∈ claimed s → x ∈ relative <$> localFiles.
Proof.
  intros I. rewrite <- (inv_paths _ _ _ _ _ I). unfold claimed.
  rewrite elem_of_paths. intros (i & st & Hi & _).
  apply list_elem_of_fmap. exists (Task x st). split; [done|].
  apply list_elem_of_lookup. eauto.
Qed.

Hypothesis distinct : NoDup (relative <$> localFiles).

(** A key whose promise is pending is not claimed: no other promise has
    the same key. *)
Lemma pending_unclaimed s i x st :
  Inv s → tasks s !! i = Some (Task x st) → resolved (Task x st) = false →
  x ∉ claimed s.
Proof.
  intros I Hi Hr. unfold claimed. rewrite elem_of_paths.
  intros (j & st' & Hj & Hr').
  assert (i = j) as ->; [|congruence].
  pose proof distinct as ND. rewrite <- (inv_paths _ _ _ _ _ I) in ND.
  eapply (NoDup_lookup _ i j x ND); rewrite list_lookup_fmap.
  - by rewrite Hi.
  - by rewrite Hj.
Qed.

Abbreviation fated := (fated coerceEq readFile s3Files).

Lemma fated_insert s i x st st' s' :
  fated s → tasks s !! i = Some (Task x st) →
  tasks s' = <[i := Task x st']> (tasks s) →
  agrees (fateOf x) st' → fated s'.
Proof.
  intros F Hi E Ha j y st1 Hj. rewrite E in Hj.
  apply list_lookup_insert_Some in Hj.
  destruct Hj as [(_ & [= <- <-] & _)|[_ Hj]]; [done|by eapply F].
Qed.

Lemma fated_same s s' : fated s → tasks s' = tasks s → fated s'.
Proof. intros F E j y st1 Hj. rewrite E in Hj. by eapply F. Qed.

Lemma tasks_reject s : tasks (reject s) = tasks s.
Proof. unfold reject. by destruct (chain s). Qed.

Lemma fated_atomic s s' : Inv s → fated s → atomic s s' → fated s'.
Proof.
  intros I F A.
  destruct A as [i x s Hi R|i x data s Hi R V|i x data s Hi R V
                |i x data s Hi R V|i x data s Hi|i x data s Hi
                |j k ds s D Hj|j k ds s D Hj|s C D Hall|ds s C D Hall].
  - eapply fated_insert; [done..|by rewrite tasks_reject|].
    simpl. unfold fate. by rewrite R.
  - eapply fated_insert; [done..|by rewrite tasks_reject|].
    simpl. unfold fate. rewrite R. simpl.
    rewrite <- (etagAt_unclaimed s x I); [by rewrite V|].
    by eapply pending_unclaimed.
  - eapply fated_insert; [done..|].
    simpl. unfold fate. rewrite R. simpl.
    rewrite <- (etagAt_unclaimed s x I); [by rewrite V|].
    by eapply pending_unclaimed.
  - eapply fated_insert; [done..|].
    simpl. unfold fate. rewrite R. simpl.
    rewrite <- (etagAt_unclaimed s x I); [by rewrite V|].
    by eapply pending_unclaimed.
  - eapply fated_insert; [done..|]. exact (F i x _ Hi).
  - unfold onPut. eapply fated_insert; [done..|by rewrite tasks_reject|].
    exact (F i x _ Hi).
  - by eapply fated_same.
  - eapply fated_same; [done|]. by rewrite tasks_reject.
  - eapply fated_same; [done|]. unfold afterUploads.
    by destruct (Dict.keys (s3Map s)).
  - by eapply fated_same.
Qed.

Lemma fated_reaches s :
  reaches (initial s3Files localFiles b0) s → fated s.
Proof.
  intros R. induction R as [|s2 s3 R IH A].
  - intros i x st Hi. simpl in Hi.
    apply list_lookup_fmap_Some in Hi as (f & [= -> ->] & _). done.
  - eapply fated_atomic; [|done..]. by eapply inv_reaches.
Qed.

(** In every state of a run, the stage of each file promise agrees with
    the fate of its key. *)
Lemma fated_run sched : fated (theRun sched).
Proof. apply fated_reaches, run_reaches. Qed.

(** A key is in one set of the plan at most. *)
Lemma plan_disjoint sched x :
  ¬ (x ∈ toUpload (theRun sched) ∧ x ∈ unchanged (theRun sched)).
Proof.
  pose proof (inv_run coerceEq readFile s3Files localFiles b0 sched) as I.
  unfold toUpload, unchanged. rewrite !elem_of_paths.
  intros [(i & st & Hi & Hu) (j & st' & Hj & Hs)].
  assert (i = j) as ->.
  { pose proof distinct as ND. rewrite <- (inv_paths _ _ _ _ _ I) in ND.
    eapply (NoDup_lookup _ i j x ND); rewrite list_lookup_fmap.
    - by rewrite Hi.
    - by rewrite Hj. }
  rewrite Hi in Hj. injection Hj as ->. by destruct st'.
Qed.

End FateFacts.

(** ** Properties of the reconciliation *)

(** Closes a decidable goal by evaluation. *)
Ltac by_compute :=
  match goal with
  | |- ?P => apply (@bool_decide_unpack P _); vm_compute; exact I
  end.

Section RunClaims.

Context (coerceEq : json → string → option bool)
        (readFile : string → option (list byte))
        (s3Files : list RemoteObject) (localFiles : list string)
        (b0 : gmap string (option string)).

Abbreviation Inv := (inv readFile s3Files localFiles b0).
Abbreviation theRun := (run coerceEq readFile s3Files localFiles b0).
Abbreviation fateOf := (fate coerceEq readFile (s3MapOf s3Files)).

Lemma run_snoc sched c :
  theRun (sched ++ [c]) = step coerceEq readFile (theRun sched) c.
Proof. unfold run. by rewrite fold_left_app. Qed.

Lemma tasks_settle s : tasks (settle s) = tasks s.
Proof.
  unfold settle, afterUploads. by repeat case_match.
Qed.

(** When the read of a pending file completes, its promise leaves the
    reading stage. *)
Lemma read_completes s i x :
  tasks s !! i = Some (Task x Reading) →
  ∃ st, tasks (step coerceEq readFile s (ReadDone i)) !! i = Some (Task x st)
        ∧ st ≠ Reading.
Proof.
  intros Hi. simpl. rewrite Hi. rewrite tasks_settle. unfold onRead.
  assert (i < length (tasks s)) as Hlt by by eapply lookup_lt_Some.
  repeat case_match; rewrite ?tasks_reject; simpl;
    rewrite list_lookup_insert_eq by done; eauto.
Qed.

Lemma resolved_claimed s x :
  Inv s → forallb resolved (tasks s) = true → x ∈ relative <$> localFiles →
  x ∈ claimed s.
Proof.
  intros I Hall. rewrite <- (inv_paths _ _ _ _ _ I).
  intros ([y st] & -> & Ht)%list_elem_of_fmap. simpl.
  rewrite forallb_forall in Hall.
  pose proof (Hall _ (proj1 (list_elem_of_In _ _) Ht)) as Hr.
  apply list_elem_of_lookup in Ht as [i Hi].
  unfold claimed. apply elem_of_paths. eauto.
Qed.

(** The key of a local file is never in the delete set. *)
Lemma local_not_deleted sched x :
  x ∈ relative <$> localFiles → x ∉ toDelete (theRun sched).
Proof.
  pose proof (inv_run coerceEq readFile s3Files localFiles b0 sched) as I.
  intros Hx. unfold toDelete.
  destruct (deletes (theRun sched)) as [ds|] eqn:D; [|apply not_elem_of_nil].
  destruct (inv_deletes _ _ _ _ _ I ds D) as [Hall ->].
  intros Hk. apply (key_not_claimed _ _ _ _ _ _ I Hk).
  by apply resolved_claimed.
Qed.

(** The fate of a key whose listed etag decodes to the local hash. *)
Lemma fate_match o x data e :
  NoDup (Key <$> s3Files) → o ∈ s3Files → Key o = x → ETag o = Some e →
  JSON.parse e = Some (JString (units (MD5.hex data))) →
  readFile (distDir ++ x) = Some data →
  fateOf x = Some Skip.
Proof.
  intros ND Ho <- He Hp R. unfold fate, etagAt. rewrite R. simpl.
  rewrite (DictFacts.lookup_s3MapOf _ _ ND Ho). simpl. rewrite He.
  unfold compare, s3hashOf. rewrite Hp. simpl.
  by rewrite bool_decide_eq_true_2.
Qed.

(** What a run does with a key whose fate is to be skipped. *)
Lemma skipped_key sched x :
  NoDup (relative <$> localFiles) → fateOf x = Some Skip →
  (∀ i st, tasks (theRun sched) !! i = Some (Task x st) →
     st = Reading ∨ st = Skipped)
  ∧ x ∉ toUpload (theRun sched).
Proof.
  intros ND Hf.
  pose proof (fated_run coerceEq readFile s3Files localFiles b0 ND sched) as F.
  assert (∀ i st, tasks (theRun sched) !! i = Some (Task x st) →
            st = Reading ∨ st = Skipped) as H.
  { intros i st Hi. specialize (F i x st Hi). rewrite Hf in F.
    destruct st as [| | | |[]]; simpl in F; auto; discriminate. }
  split; [done|]. unfold toUpload. rewrite elem_of_paths.
  intros (i & st & Hi & Hu). by destruct (H i st Hi) as [-> | ->].
Qed.

(** C1. A local file whose MD5, in hexadecimal, is what the etag listed
    under its key decodes to is skipped: in every state of every run its
    promise is still reading or was skipped, and the completion of its read
    skips it; no put is announced or requested for its key; once skipped,
    the key is no longer in [s3Map]; and no delete is ever requested for
    it. *)
Theorem skip_when_hash_matches (sched : list completion) (o : RemoteObject)
    (f : string) (data : list byte) (e : string) :
  NoDup (Key <$> s3Files) → NoDup (relative <$> localFiles) →
  o ∈ s3Files → f ∈ localFiles → Key o = relative f →
  ETag o = Some e →
  JSON.parse e = Some (JString (units (MD5.hex data))) →
  readFile (distDir ++ relative f) = Some data →
  (∀ i st, tasks (theRun sched) !! i = Some (Task (relative f) st) →
     st = Reading ∨ st = Skipped)
  ∧ (∀ i, tasks (theRun sched) !! i = Some (Task (relative f) Reading) →
       (tasks (theRun (sched ++ [ReadDone i])) !! i
        = Some (Task (relative f) Skipped))
       ∧ LogSkipping (relative f) ∈ trace (theRun (sched ++ [ReadDone i])))
  ∧ (LogUploading (relative f) ∉ trace (theRun sched))
  ∧ (∀ c d, PutObject (relative f) c d ∉ trace (theRun sched))
  ∧ (relative f ∈ unchanged (theRun sched) →
       relative f ∉ Dict.keys (s3Map (theRun sched)))
  ∧ (DeleteObject (relative f) ∉ trace (theRun sched)).
Proof.
  intros NDr NDl Ho Hf Hk He Hp R.
  pose proof (fate_match o _ data e NDr Ho Hk He Hp R) as Hfate.
  pose proof (λ sc, inv_run coerceEq readFile s3Files localFiles b0 sc) as I.
  pose proof (λ sc, skipped_key sc _ NDl Hfate) as Hs.
  assert (relative f ∈ relative <$> localFiles) as Hx.
  { by apply list_elem_of_fmap_2. }
  split_and!.
  - apply Hs.
  - intros i Hi. destruct (read_completes _ i _ Hi) as (st & Hst & Hne).
    rewrite <- run_snoc in Hst.
    destruct (proj1 (Hs (sched ++ [ReadDone i])) i st Hst) as [->| ->];
      [done|]. split; [done|].
    apply (inv_skip_log _ _ _ _ _ (I _)). unfold unchanged.
    apply elem_of_paths. eauto.
  - rewrite (inv_upload_log _ _ _ _ _ (I sched)). apply Hs.
  - intros c d Hput.
    destruct (inv_put_req _ _ _ _ _ (I sched) _ c d Hput) as [Hu _].
    by apply (proj2 (Hs sched)).
  - intros Hu Hkeys. apply (key_not_claimed _ _ _ _ _ _ (I sched) Hkeys).
    unfold unchanged in Hu. unfold claimed.
    apply elem_of_paths in Hu as (i & st & Hi & Hsk).
    apply elem_of_paths. exists i, st. split; [done|]. by destruct st.
  - rewrite (inv_delete_req _ _ _ _ _ (I sched)). by apply local_not_deleted.
Qed.

Lemma trace_settle s e : e ∈ trace s → e ∈ trace (settle s).
Proof.
  unfold settle, afterUploads. intros H.
  repeat case_match; simpl; rewrite ?elem_of_cons, ?elem_of_app; auto.
Qed.

(** What a run does with a key whose fate is to be uploaded. *)
Lemma uploaded_key sched x data :
  NoDup (relative <$> localFiles) →
  readFile (distDir ++ x) = Some data → fateOf x = Some Upload →
  (∀ i st, tasks (theRun sched) !! i = Some (Task x st) →
     st = Reading ∨ st = Putting data ∨ st = Uploaded ∨ st = Failed PutError)
  ∧ (∀ i, tasks (theRun sched) !! i = Some (Task x Reading) →
       (tasks (theRun (sched ++ [ReadDone i])) !! i
        = Some (Task x (Putting data)))
       ∧ PutObject x (contentType x) data
         ∈ trace (theRun (sched ++ [ReadDone i])))
  ∧ x ∉ unchanged (theRun sched).
Proof.
  intros ND R Hf.
  pose proof (fated_run coerceEq readFile s3Files localFiles b0 ND sched) as F.
  pose proof (inv_run coerceEq readFile s3Files localFiles b0 sched) as I.
  assert (∀ i st, tasks (theRun sched) !! i = Some (Task x st) →
            st = Reading ∨ st = Putting data ∨ st = Uploaded
            ∨ st = Failed PutError) as H.
  { intros i st Hi. pose proof (F i x st Hi) as Fi. rewrite Hf in Fi.
    destruct st as [|d| | |[]]; simpl in Fi; auto; try discriminate.
    pose proof (inv_putting _ _ _ _ _ I i x d Hi) as Rd.
    rewrite R in Rd. injection Rd as ->. auto. }
  split_and!; [done| |].
  - intros i Hi. rewrite run_snoc. simpl. rewrite Hi. unfold onRead.
    rewrite R.
    rewrite (etagAt_unclaimed readFile s3Files localFiles b0 _ x I)
      by (by eapply pending_unclaimed).
    unfold fate in Hf. rewrite R in Hf. simpl in Hf. injection Hf as ->.
    split.
    + rewrite tasks_settle. simpl. apply list_lookup_insert_eq.
      by eapply lookup_lt_Some.
    + apply trace_settle. simpl. by left.
  - unfold unchanged. rewrite elem_of_paths. intros (i & st & Hi & Hs).
    by destruct (H i st Hi) as [->|[->|[->| ->]]].
Qed.

Lemma fate_absent o x data :
  NoDup (Key <$> s3Files) → o ∈ s3Files → Key o = x → ETag o = None →
  readFile (distDir ++ x) = Some data →
  fateOf x = Some Upload.
Proof.
  intros ND Ho <- He R. unfold fate, etagAt. rewrite R. simpl.
  rewrite (DictFacts.lookup_s3MapOf _ _ ND Ho). simpl. by rewrite He.
Qed.

Lemma fate_other_string o x data e u :
  NoDup (Key <$> s3Files) → o ∈ s3Files → Key o = x → ETag o = Some e →
  JSON.parse e = Some (JString u) → u ≠ units (MD5.hex data) →
  readFile (distDir ++ x) = Some data →
  fateOf x = Some Upload.
Proof.
  intros ND Ho <- He Hp Hu R. unfold fate, etagAt. rewrite R. simpl.
  rewrite (DictFacts.lookup_s3MapOf _ _ ND Ho). simpl. rewrite He.
  unfold compare, s3hashOf. rewrite Hp. simpl.
  by rewrite bool_decide_eq_false_2.
Qed.

(** C10. A local file whose key is listed with no [ETag] is uploaded:
    nothing is decoded and nothing is thrown ([s3hash] stays [undefined],
    the comparison answers [false]); in every state of every run its
    promise is reading, putting, uploaded or failed by the put itself; the
    completion of its read requests the put; it is never skipped. *)
Theorem upload_when_etag_absent (sched : list completion) (o : RemoteObject)
    (f : string) (data : list byte) :
  NoDup (Key <$> s3Files) → NoDup (relative <$> localFiles) →
  o ∈ s3Files → f ∈ localFiles → Key o = relative f →
  ETag o = None →
  readFile (distDir ++ relative f) = Some data →
  s3hashOf (etagAt (s3MapOf s3Files) (relative f)) = Some Undefined
  ∧ compare coerceEq (etagAt (s3MapOf s3Files) (relative f)) data = Upload
  ∧ (∀ i st, tasks (theRun sched) !! i = Some (Task (relative f) st) →
       st = Reading ∨ st = Putting data ∨ st = Uploaded
       ∨ st = Failed PutError)
  ∧ (∀ i, tasks (theRun sched) !! i = Some (Task (relative f) Reading) →
       (tasks (theRun (sched ++ [ReadDone i])) !! i
        = Some (Task (relative f) (Putting data)))
       ∧ PutObject (relative f) (contentType (relative f)) data
         ∈ trace (theRun (sched ++ [ReadDone i])))
  ∧ (LogSkipping (relative f) ∉ trace (theRun sched)).
Proof.
  intros NDr NDl Ho Hf Hk He R.
  pose proof (fate_absent o _ data NDr Ho Hk He R) as Hfate.
  destruct (uploaded_key sched _ data NDl R Hfate) as (H1 & H2 & H3).
  assert (etagAt (s3MapOf s3Files) (relative f) = None) as E.
  { unfold etagAt. rewrite <- Hk, (DictFacts.lookup_s3MapOf _ _ NDr Ho).
    simpl. done. }
  split_and!; try done.
  - by rewrite E.
  - by rewrite E.
  - by rewrite (inv_skip_log _ _ _ _ _
                  (inv_run coerceEq readFile s3Files localFiles b0 sched)).
Qed.

(** What a run does with a key whose callback is to throw. *)
Lemma thrown_key sched x data :
  NoDup (relative <$> localFiles) →
  readFile (distDir ++ x) = Some data → fateOf x = Some Throw →
  (∀ i st, tasks (theRun sched) !! i = Some (Task x st) →
     st = Reading ∨ st = Failed CallbackThrew)
  ∧ (∀ i, tasks (theRun sched) !! i = Some (Task x Reading) →
       (tasks (theRun (sched ++ [ReadDone i])) !! i
        = Some (Task x (Failed CallbackThrew)))
       ∧ chain (theRun (sched ++ [ReadDone i])) = Rejected)
  ∧ (x ∉ toUpload (theRun sched))
  ∧ (∀ i why, tasks (theRun sched) !! i = Some (Task x (Failed why)) →
       chain (theRun sched) ≠ Fulfilled ∧ deletes (theRun sched) = None).
Proof.
  intros ND R Hf.
  pose proof (fated_run coerceEq readFile s3Files localFiles b0 ND sched) as F.
  pose proof (inv_run coerceEq readFile s3Files localFiles b0 sched) as I.
  assert (∀ i st, tasks (theRun sched) !! i = Some (Task x st) →
            st = Reading ∨ st = Failed CallbackThrew) as H.
  { intros i st Hi. pose proof (F i x st Hi) as Fi. rewrite Hf in Fi.
    destruct st as [|d| | |[]]; simpl in Fi; auto; discriminate. }
  split_and!; [done| | |].
  - intros i Hi.
    pose proof (inv_run coerceEq readFile s3Files localFiles b0
                  (sched ++ [ReadDone i])) as I'.
    assert (tasks (theRun (sched ++ [ReadDone i])) !! i
            = Some (Task x (Failed CallbackThrew))) as Ht.
    { rewrite run_snoc. simpl. rewrite Hi. unfold onRead. rewrite R.
      rewrite (etagAt_unclaimed readFile s3Files localFiles b0 _ x I)
        by (by eapply pending_unclaimed).
      unfold fate in Hf. rewrite R in Hf. simpl in Hf. injection Hf as ->.
      rewrite tasks_settle, tasks_reject. simpl.
      apply list_lookup_insert_eq. by eapply lookup_lt_Some. }
    split; [done|].
    destruct (pending_task readFile s3Files localFiles b0 _ i x _ I' Ht eq_refl)
      as [_ Hnf].
    destruct (chain (theRun (sched ++ [ReadDone i]))) eqn:C;
      [|by destruct Hnf|done].
    exfalso. revert C. rewrite run_snoc. simpl. rewrite Hi. unfold onRead.
    rewrite R.
    rewrite (etagAt_unclaimed readFile s3Files localFiles b0 _ x I)
      by (by eapply pending_unclaimed).
    unfold fate in Hf. rewrite R in Hf. simpl in Hf. injection Hf as ->.
    unfold settle.
    pose proof (chain_reject (setStage i x (Failed CallbackThrew) (theRun sched)))
      as Hr.
    destruct (chain (reject _)) eqn:E; [by destruct Hr|..];
      intros C; congruence.
  - unfold toUpload. rewrite elem_of_paths. intros (i & st & Hi & Hu).
    by destruct (H i st Hi) as [-> | ->].
  - intros i why Hi.
    destruct (pending_task readFile s3Files localFiles b0 _ i x _ I Hi eq_refl).
    done.
Qed.

Lemma fate_not_json o x data e :
  NoDup (Key <$> s3Files) → o ∈ s3Files → Key o = x → ETag o = Some e →
  JSON.parse e = None →
  readFile (distDir ++ x) = Some data →
  fateOf x = Some Throw.
Proof.
  intros ND Ho <- He Hp R. unfold fate, etagAt. rewrite R. simpl.
  rewrite (DictFacts.lookup_s3MapOf _ _ ND Ho). simpl. rewrite He.
  unfold compare, s3hashOf. by rewrite Hp.
Qed.

(** C5, as amended. A local file whose key is listed with an [ETag]:
    - if the etag is a JSON text for a string other than the file's hash
      (a quoted multipart token, say), the file is uploaded, whatever the
      content of the remote object: the comparison answers [Upload],
      nothing is thrown, the completion of the read requests the put, and
      the file is never skipped;
    - if the etag is not a JSON text, [JSON.parse] throws in the callback:
      the completion of the read rejects the promise of the file and the
      chain of [main], no put is announced for the key, and from then on
      the run neither completes nor deletes. *)
Theorem upload_when_etag_is_other_string (sched : list completion)
    (o : RemoteObject) (f : string) (data : list byte) (e : string) :
  NoDup (Key <$> s3Files) → NoDup (relative <$> localFiles) →
  o ∈ s3Files → f ∈ localFiles → Key o = relative f →
  ETag o = Some e →
  readFile (distDir ++ relative f) = Some data →
  (∀ u, JSON.parse e = Some (JString u) → u ≠ units (MD5.hex data) →
     compare coerceEq (Some e) data = Upload
     ∧ (∀ i st, tasks (theRun sched) !! i = Some (Task (relative f) st) →
          st = Reading ∨ st = Putting data ∨ st = Uploaded
          ∨ st = Failed PutError)
     ∧ (∀ i, tasks (theRun sched) !! i = Some (Task (relative f) Reading) →
          (tasks (theRun (sched ++ [ReadDone i])) !! i
           = Some (Task (relative f) (Putting data)))
          ∧ PutObject (relative f) (contentType (relative f)) data
            ∈ trace (theRun (sched ++ [ReadDone i])))
     ∧ (LogSkipping (relative f) ∉ trace (theRun sched)))
  ∧ (JSON.parse e = None →
     compare coerceEq (Some e) data = Throw
     ∧ (∀ i st, tasks (theRun sched) !! i = Some (Task (relative f) st) →
          st = Reading ∨ st = Failed CallbackThrew)
     ∧ (∀ i, tasks (theRun sched) !! i = Some (Task (relative f) Reading) →
          (tasks (theRun (sched ++ [ReadDone i])) !! i
           = Some (Task (relative f) (Failed CallbackThrew)))
          ∧ chain (theRun (sched ++ [ReadDone i])) = Rejected)
     ∧ (LogUploading (relative f) ∉ trace (theRun sched))
     ∧ (∀ i why,
          tasks (theRun sched) !! i = Some (Task (relative f) (Failed why)) →
          chain (theRun sched) ≠ Fulfilled ∧ deletes (theRun sched) = None)).
Proof.
  intros NDr NDl Ho Hf Hk He R.
  pose proof (inv_run coerceEq readFile s3Files localFiles b0 sched) as I.
  split.
  - intros u Hp Hu.
    pose proof (fate_other_string o _ data e u NDr Ho Hk He Hp Hu R) as Hfate.
    destruct (uploaded_key sched _ data NDl R Hfate) as (H1 & H2 & H3).
    split_and!; try done.
    + unfold compare, s3hashOf. rewrite Hp. simpl.
      by rewrite bool_decide_eq_false_2.
    + by rewrite (inv_skip_log _ _ _ _ _ I).
  - intros Hp.
    pose proof (fate_not_json o _ data e NDr Ho Hk He Hp R) as Hfate.
    destruct (thrown_key sched _ data NDl R Hfate) as (H1 & H2 & H3 & H4).
    split_and!; try done.
    + unfold compare, s3hashOf. by rewrite Hp.
    + by rewrite (inv_upload_log _ _ _ _ _ I).
Qed.

(** C8. No delete starts before every file's decision is final.  In the
    trace of every run, each delete request comes after a line
    ['Skipping:'] or ['Uploaded:'] for each local file, that is after
    every comparison and every put of the run has completed; the delete set
    exists only when every file promise has resolved, and is then the list
    of keys left in [s3Map]. *)
Theorem deletes_after_all_decisions (sched : list completion) :
  (∀ later k earlier,
     trace (theRun sched) = later ++ DeleteObject k :: earlier →
     ∀ f, f ∈ localFiles →
       LogSkipping (relative f) ∈ earlier ∨ LogUploaded (relative f) ∈ earlier)
  ∧ (∀ ds, deletes (theRun sched) = Some ds →
       forallb resolved (tasks (theRun sched)) = true
       ∧ ds.*1 = Dict.keys (s3Map (theRun sched)))
  ∧ (∀ k, DeleteObject k ∈ trace (theRun sched) →
       forallb resolved (tasks (theRun sched)) = true).
Proof.
  pose proof (inv_run coerceEq readFile s3Files localFiles b0 sched) as I.
  split_and!.
  - intros later k earlier E f Hf.
    eapply deletesLast_split; [apply (inv_order _ _ _ _ _ I)|exact E|].
    by apply list_elem_of_fmap_2.
  - apply (inv_deletes _ _ _ _ _ I).
  - intros k Hk. apply (inv_delete_req _ _ _ _ _ I) in Hk.
    unfold toDelete in Hk.
    destruct (deletes (theRun sched)) as [ds|] eqn:D;
      [|by apply elem_of_nil in Hk].
    by destruct (inv_deletes _ _ _ _ _ I ds D).
Qed.

(** In a fulfilled run the delete set is the list of keys left in
    [s3Map], and every file promise has resolved. *)
Lemma fulfilled_plan sched :
  chain (theRun sched) = Fulfilled →
  forallb resolved (tasks (theRun sched)) = true
  ∧ ∀ k, k ∈ toDelete (theRun sched) ↔ k ∈ Dict.keys (s3Map (theRun sched)).
Proof.
  pose proof (inv_run coerceEq readFile s3Files localFiles b0 sched) as I.
  intros C. destruct (inv_fulfilled _ _ _ _ _ I C) as [Hall Hd].
  split; [done|]. intros k. unfold toDelete.
  destruct (deletes (theRun sched)) as [ds|] eqn:D.
  - by destruct (inv_deletes _ _ _ _ _ I ds D) as [_ ->].
  - by rewrite Hd.
Qed.

(** The keys left in [s3Map] are the listed keys, other than [__proto__],
    that no resolved promise has claimed. *)
Lemma keys_left sched k :
  k ∈ Dict.keys (s3Map (theRun sched))
  ↔ k ∈ Key <$> s3Files ∧ k ≠ Dict.protoName ∧ k ∉ claimed (theRun sched).
Proof.
  pose proof (inv_run coerceEq readFile s3Files localFiles b0 sched) as I.
  rewrite DictFacts.elem_of_keys, (inv_own _ _ _ _ _ I).
  case_decide as Hc.
  - split; [by intros [? ?]|naive_solver].
  - rewrite DictFacts.own_s3MapOf. naive_solver.
Qed.

(** C4, as amended. In a run that completes, over distinct local keys:
    every listed key other than [__proto__] is in exactly one of
    [toUpload], [unchanged] and [toDelete]; every local key is in exactly
    one of [toUpload] and [unchanged], and not in [toDelete]; the three
    sets are pairwise disjoint. *)
Theorem plan_is_a_partition (sched : list completion) :
  NoDup (relative <$> localFiles) →
  chain (theRun sched) = Fulfilled →
  (∀ k, k ∈ Key <$> s3Files → k ≠ Dict.protoName →
     (k ∈ toUpload (theRun sched) ∧ (k ∉ unchanged (theRun sched))
      ∧ (k ∉ toDelete (theRun sched)))
     ∨ ((k ∉ toUpload (theRun sched)) ∧ k ∈ unchanged (theRun sched)
        ∧ (k ∉ toDelete (theRun sched)))
     ∨ ((k ∉ toUpload (theRun sched)) ∧ (k ∉ unchanged (theRun sched))
        ∧ k ∈ toDelete (theRun sched)))
  ∧ (∀ x, x ∈ relative <$> localFiles →
       ((x ∈ toUpload (theRun sched) ∧ (x ∉ unchanged (theRun sched)))
        ∨ ((x ∉ toUpload (theRun sched)) ∧ x ∈ unchanged (theRun sched)))
       ∧ (x ∉ toDelete (theRun sched)))
  ∧ (∀ k, ¬ (k ∈ toUpload (theRun sched) ∧ k ∈ unchanged (theRun sched))
          ∧ ¬ (k ∈ toUpload (theRun sched) ∧ k ∈ toDelete (theRun sched))
          ∧ ¬ (k ∈ unchanged (theRun sched) ∧ k ∈ toDelete (theRun sched))).
Proof.
  intros ND C.
  pose proof (inv_run coerceEq readFile s3Files localFiles b0 sched) as I.
  destruct (fulfilled_plan sched C) as [Hall Hdel].
  pose proof (plan_disjoint coerceEq readFile s3Files localFiles b0 ND sched)
    as Hdis.
  assert (∀ x, x ∈ toUpload (theRun sched) ∨ x ∈ unchanged (theRun sched)
               → x ∈ relative <$> localFiles) as Hloc.
  { intros x. rewrite <- (inv_paths _ _ _ _ _ I).
    unfold toUpload, unchanged. rewrite !elem_of_paths.
    intros [(i & st & Hi & _)|(i & st & Hi & _)];
      apply list_elem_of_fmap; exists (Task x st);
      (split; [done|]); apply list_elem_of_lookup; eauto. }
  assert (∀ x, x ∈ relative <$> localFiles →
            x ∈ toUpload (theRun sched) ∨ x ∈ unchanged (theRun sched))
    as Hdec.
  { intros x. rewrite <- (inv_paths _ _ _ _ _ I).
    intros ([y st] & -> & Ht)%list_elem_of_fmap. simpl.
    rewrite forallb_forall in Hall.
    pose proof (Hall _ (proj1 (list_elem_of_In _ _) Ht)) as Hr.
    apply list_elem_of_lookup in Ht as [i Hi].
    unfold toUpload, unchanged. rewrite !elem_of_paths.
    destruct st; try done; [right|left]; eauto. }
  pose proof (λ x, local_not_deleted sched x) as Hnd.
  assert (∀ k, k ∈ toDelete (theRun sched) →
            k ∈ Key <$> s3Files ∧ k ∉ relative <$> localFiles) as Hdk.
  { intros k Hk. split.
    - apply Hdel, keys_left in Hk. tauto.
    - intros Hl. by apply (Hnd k Hl). }
  split_and!.
  - intros k Hk Hp.
    destruct (decide (k ∈ relative <$> localFiles)) as [Hl|Hl].
    + destruct (Hdec k Hl) as [Hu|Hs]; [left|right; left];
        split_and!; auto; intros ?; apply (Hdis k); auto.
    + right; right. split_and!; [naive_solver..|].
      apply Hdel, keys_left. split_and!; [done..|].
      intros Hc. apply Hl. by eapply claimed_local.
  - intros x Hx. split; [|by apply Hnd].
    destruct (Hdec x Hx) as [Hu|Hs]; [left|right]; split; auto;
      intros ?; apply (Hdis x); auto.
  - intros k. split_and!; [apply Hdis|..]; intros [H1 H2];
      apply (Hnd k); auto.
Qed.

(** In a fulfilled run every requested delete has succeeded. *)
Lemma toDelete_deleted sched k :
  chain (theRun sched) = Fulfilled →
  k ∈ toDelete (theRun sched) → k ∈ deletedKeys (theRun sched).
Proof.
  pose proof (inv_run coerceEq readFile s3Files localFiles b0 sched) as I.
  intros C. unfold toDelete, deletedKeys.
  destruct (inv_fulfilled _ _ _ _ _ I C) as [_ Hd].
  destruct (deletes (theRun sched)) as [ds|]; [|done].
  intros ([k' st] & -> & [j Hj]%list_elem_of_lookup)%list_elem_of_fmap.
  apply elem_of_deleted. exists j.
  by rewrite (forallb_isDeleted_lookup _ _ _ _ Hd Hj) in Hj.
Qed.

(** X1. Every listed key without a local file, other than [__proto__],
    is deleted by a run that completes: the delete is requested and the
    object has left the bucket.  The key of a local file is never in the
    delete set, and no delete is requested for it. *)
Theorem orphans_are_deleted (sched : list completion) :
  (∀ k, chain (theRun sched) = Fulfilled →
        k ∈ Key <$> s3Files → k ≠ Dict.protoName →
        k ∉ relative <$> localFiles →
        k ∈ toDelete (theRun sched)
        ∧ DeleteObject k ∈ trace (theRun sched)
        ∧ bucket (theRun sched) !! k = None)
  ∧ (∀ x, x ∈ relative <$> localFiles →
          (x ∉ toDelete (theRun sched))
          ∧ (DeleteObject x ∉ trace (theRun sched))).
Proof.
  pose proof (inv_run coerceEq readFile s3Files localFiles b0 sched) as I.
  split.
  - intros k C Hk Hp Hl.
    destruct (fulfilled_plan sched C) as [Hall Hdel].
    assert (k ∈ toDelete (theRun sched)) as Hd.
    { apply Hdel, keys_left. split_and!; [done..|].
      intros Hc.
      by apply Hl, (claimed_local readFile s3Files localFiles b0 (theRun sched) k). }
    split_and!; [done|by apply (inv_delete_req _ _ _ _ _ I)|].
    rewrite (inv_bucket_rest _ _ _ _ _ I).
    + rewrite decide_True; [done|]. by apply toDelete_deleted.
    + intros Hu. apply Hl.
      apply (claimed_local readFile s3Files localFiles b0 (theRun sched) k);
        [done|]. by apply uploaded_claimed.
  - intros x Hx. split; [by apply local_not_deleted|].
    rewrite (inv_delete_req _ _ _ _ _ I). by apply local_not_deleted.
Qed.

Lemma fate_missing x data :
  x ∉ Key <$> s3Files → readFile (distDir ++ x) = Some data →
  fateOf x = Some Upload.
Proof.
  intros Hx R. unfold fate, etagAt. rewrite R. simpl.
  by rewrite (DictFacts.lookup_s3MapOf_None _ _ Hx).
Qed.

(** X2. A local file with no listed key is uploaded: it is never
    skipped, the completion of its read requests the put, and when the
    run completes the bucket holds the key under the quoted MD5 of the
    file. *)
Theorem upload_when_not_listed (sched : list completion) (f : string)
    (data : list byte) :
  NoDup (relative <$> localFiles) → f ∈ localFiles →
  relative f ∉ Key <$> s3Files →
  readFile (distDir ++ relative f) = Some data →
  (LogSkipping (relative f) ∉ trace (theRun sched))
  ∧ (∀ i, tasks (theRun sched) !! i = Some (Task (relative f) Reading) →
       PutObject (relative f) (contentType (relative f)) data
       ∈ trace (theRun (sched ++ [ReadDone i])))
  ∧ (chain (theRun sched) = Fulfilled →
     bucket (theRun sched) !! relative f
     = Some (Some (JSON.quote (MD5.hex data)))).
Proof.
  intros ND Hf Hx R.
  pose proof (inv_run coerceEq readFile s3Files localFiles b0 sched) as I.
  pose proof (fate_missing _ data Hx R) as Hfate.
  destruct (uploaded_key sched _ data ND R Hfate) as (H1 & H2 & H3).
  split_and!.
  - by rewrite (inv_skip_log _ _ _ _ _ I).
  - intros i Hi. by destruct (H2 i Hi).
  - intros C. destruct (fulfilled_plan sched C) as [Hall _].
    assert (relative f ∈ uploaded (theRun sched)) as Hu.
    { assert (relative f ∈ claimed (theRun sched)) as Hc.
      { apply (resolved_claimed _ _ I Hall). by apply list_elem_of_fmap_2. }
      unfold claimed in Hc. apply elem_of_paths in Hc as (i & st & Hi & Hr).
      unfold uploaded. apply elem_of_paths. exists i, st. split; [done|].
      destruct (H1 i st Hi) as [->|[->|[->| ->]]]; done. }
    destruct (inv_bucket_up _ _ _ _ _ I _ Hu) as (d & Rd & B).
    rewrite R in Rd. by injection Rd as <-.
Qed.

End RunClaims.

(** The scenario: [a.html] is skipped and stays. *)
Lemma skip_when_hash_matches_witness :
  (∀ i st,
     tasks (run Scenario.coerceEq Scenario.readFile Scenario.s3Files
              Scenario.localFiles Scenario.bucket Scenario.sched) !! i
     = Some (Task (relative "dist/a.html") st) →
     st = Reading ∨ st = Skipped)
  ∧ DeleteObject (relative "dist/a.html")
    ∉ trace (run Scenario.coerceEq Scenario.readFile Scenario.s3Files
               Scenario.localFiles Scenario.bucket Scenario.sched).
Proof.
  pose proof (skip_when_hash_matches Scenario.coerceEq Scenario.readFile
                Scenario.s3Files Scenario.localFiles Scenario.bucket
                Scenario.sched Scenario.aHtml "dist/a.html" (bytesOf "hi")
                (JSON.quote "49f68a5c8493ec2c0bf489821c21fc3b")) as H.
  destruct H as (H1 & _ & _ & _ & _ & H6).
  - by_compute.
  - by_compute.
  - by_compute.
  - by_compute.
  - reflexivity.
  - reflexivity.
  - vm_compute. reflexivity.
  - reflexivity.
  - split; [exact H1|exact H6].
Defined.

(** A key listed without [ETag], with a local file: the read completion
    requests the put. *)
Lemma upload_when_etag_absent_witness :
  PutObject "x.js" "text/javascript" []
  ∈ trace (run Scenario.coerceEq Scenario.readX [Scenario.xJs None]
             ["dist/x.js"] ∅ [ReadDone 0]).
Proof.
  pose proof (upload_when_etag_absent Scenario.coerceEq Scenario.readX
                [Scenario.xJs None] ["dist/x.js"] ∅ [] (Scenario.xJs None)
                "dist/x.js" []) as H.
  destruct H as (_ & _ & _ & H & _).
  - by_compute.
  - by_compute.
  - by_compute.
  - by_compute.
  - reflexivity.
  - reflexivity.
  - reflexivity.
  - exact (proj2 (H 0 eq_refl)).
Defined.

(** The quoted multipart token: the file is uploaded. *)
Lemma upload_when_etag_is_other_string_witness :
  PutObject "x.js" "text/javascript" []
  ∈ trace (run Scenario.coerceEq Scenario.readX
             [Scenario.xJs (Some Scenario.multipart)]
             ["dist/x.js"] ∅ [ReadDone 0]).
Proof.
  pose proof (upload_when_etag_is_other_string Scenario.coerceEq
                Scenario.readX [Scenario.xJs (Some Scenario.multipart)]
                ["dist/x.js"] ∅ [] (Scenario.xJs (Some Scenario.multipart))
                "dist/x.js" [] Scenario.multipart) as H.
  destruct H as [H _].
  - by_compute.
  - by_compute.
  - by_compute.
  - by_compute.
  - reflexivity.
  - reflexivity.
  - reflexivity.
  - destruct (H (units "d41d8cd98f00b204e9800998ecf8427e-2"))
      as (_ & _ & H3 & _).
    + vm_compute. reflexivity.
    + vm_compute. discriminate.
    + exact (proj2 (H3 0 eq_refl)).
Defined.

(** C5 as stated fails: the same token without quotes is not a JSON text;
    [JSON.parse] throws in the callback, the promise of the file is
    rejected, no put is requested and the chain of [main] is rejected. *)
Lemma bare_token_aborts :
  JSON.parse Scenario.bareToken = None
  ∧ compare Scenario.coerceEq (Some Scenario.bareToken) [] = Throw
  ∧ tasks (run Scenario.coerceEq Scenario.readX
             [Scenario.xJs (Some Scenario.bareToken)] ["dist/x.js"] ∅
             [ReadDone 0])
    = [Task "x.js" (Failed CallbackThrew)]
  ∧ chain (run Scenario.coerceEq Scenario.readX
             [Scenario.xJs (Some Scenario.bareToken)] ["dist/x.js"] ∅
             [ReadDone 0])
    = Rejected
  ∧ trace (run Scenario.coerceEq Scenario.readX
             [Scenario.xJs (Some Scenario.bareToken)] ["dist/x.js"] ∅
             [ReadDone 0])
    = [LogUploadingAll].
Proof. vm_compute. done. Qed.

(** The scenario: [a.html] is unchanged, [b.png] is uploaded, [c.css] is
    deleted; the three sets do not meet. *)
Lemma plan_is_a_partition_witness :
  ¬ ("a.html" ∈ toUpload (run Scenario.coerceEq Scenario.readFile
                            Scenario.s3Files Scenario.localFiles
                            Scenario.bucket Scenario.sched)
     ∧ "a.html" ∈ unchanged (run Scenario.coerceEq Scenario.readFile
                               Scenario.s3Files Scenario.localFiles
                               Scenario.bucket Scenario.sched))
  ∧ ¬ ("a.html" ∈ toUpload (run Scenario.coerceEq Scenario.readFile
                              Scenario.s3Files Scenario.localFiles
                              Scenario.bucket Scenario.sched)
       ∧ "a.html" ∈ toDelete (run Scenario.coerceEq Scenario.readFile
                                Scenario.s3Files Scenario.localFiles
                                Scenario.bucket Scenario.sched))
  ∧ ¬ ("a.html" ∈ unchanged (run Scenario.coerceEq Scenario.readFile
                               Scenario.s3Files Scenario.localFiles
                               Scenario.bucket Scenario.sched)
       ∧ "a.html" ∈ toDelete (run Scenario.coerceEq Scenario.readFile
                                Scenario.s3Files Scenario.localFiles
                                Scenario.bucket Scenario.sched)).
Proof.
  refine (proj2 (proj2 (plan_is_a_partition Scenario.coerceEq
                          Scenario.readFile Scenario.s3Files
                          Scenario.localFiles Scenario.bucket Scenario.sched
                          _ _)) "a.html").
  - by_compute.
  - vm_compute. reflexivity.
Defined.

(** C4 as stated fails: [a.html] is listed and its local file was edited.
    The run completes; the key is in [toUpload], and in neither
    [unchanged] nor [toDelete]. *)
Lemma changed_key_is_uploaded :
  chain (run Scenario.coerceEq Scenario.readChanged [Scenario.aHtml]
           ["dist/a.html"] ∅ [ReadDone 0; PutDone 0 true]) = Fulfilled
  ∧ Key <$> [Scenario.aHtml] = ["a.html"]
  ∧ unchanged (run Scenario.coerceEq Scenario.readChanged [Scenario.aHtml]
                 ["dist/a.html"] ∅ [ReadDone 0; PutDone 0 true]) = []
  ∧ toDelete (run Scenario.coerceEq Scenario.readChanged [Scenario.aHtml]
                ["dist/a.html"] ∅ [ReadDone 0; PutDone 0 true]) = []
  ∧ toUpload (run Scenario.coerceEq Scenario.readChanged [Scenario.aHtml]
                ["dist/a.html"] ∅ [ReadDone 0; PutDone 0 true]) = ["a.html"].
Proof. vm_compute. done. Qed.

(** C2 fails for the key [__proto__]: the assignment of line 135 makes the
    listed record the prototype of [s3Map] instead of a property of it, so
    line 168 does not list the key.  With that object alone in the bucket
    and no local file, the run completes without a delete, whatever the
    comparison and the files are, and the object stays. *)
Lemma proto_key_is_not_deleted :
  ∀ (coerceEq : json → string → option bool)
    (readFile : string → option (list byte)),
    listing Scenario.protoBucket = [Scenario.protoObject]
    ∧ relative <$> [] = ([] : list string)
    ∧ chain (run coerceEq readFile [Scenario.protoObject] []
               Scenario.protoBucket []) = Fulfilled
    ∧ trace (run coerceEq readFile [Scenario.protoObject] []
               Scenario.protoBucket [])
      = [LogDone; LogDoneUploading; LogUploadingAll]
    ∧ toDelete (run coerceEq readFile [Scenario.protoObject] []
                  Scenario.protoBucket []) = []
    ∧ Dict.proto (s3Map (run coerceEq readFile [Scenario.protoObject] []
                           Scenario.protoBucket []))
      = Some Scenario.protoObject
    ∧ bucket (run coerceEq readFile [Scenario.protoObject] []
                Scenario.protoBucket []) !! "__proto__"
      = Some (ETag Scenario.protoObject).
Proof. intros coerceEq readFile. vm_compute. done. Qed.

(** The scenario: [b.png] is not listed; the run uploads it. *)
Lemma upload_when_not_listed_witness :
  bucket (run Scenario.coerceEq Scenario.readFile Scenario.s3Files
            Scenario.localFiles Scenario.bucket Scenario.sched)
    !! relative "dist/b.png"
  = Some (Some (JSON.quote (MD5.hex (bytesOf "PNG")))).
Proof.
  refine (proj2 (proj2 (upload_when_not_listed Scenario.coerceEq
                          Scenario.readFile Scenario.s3Files
                          Scenario.localFiles Scenario.bucket Scenario.sched
                          "dist/b.png" (bytesOf "PNG") _ _ _ _)) _).
  - by_compute.
  - by_compute.
  - by_compute.
  - reflexivity.
  - vm_compute. reflexivity.
Defined.

(** The scenarios of the specification (section 8). *)
Example scenario_plan :
  unchanged (run Scenario.coerceEq Scenario.readFile Scenario.s3Files
               Scenario.localFiles Scenario.bucket Scenario.sched)
  = ["a.html"]
  ∧ toUpload (run Scenario.coerceEq Scenario.readFile Scenario.s3Files
                Scenario.localFiles Scenario.bucket Scenario.sched)
    = ["b.png"]
  ∧ toDelete (run Scenario.coerceEq Scenario.readFile Scenario.s3Files
                Scenario.localFiles Scenario.bucket Scenario.sched)
    = ["c.css"]
  ∧ reverse (trace (run Scenario.coerceEq Scenario.readFile Scenario.s3Files
                      Scenario.localFiles Scenario.bucket Scenario.sched))
    = [ LogUploadingAll; LogUploading "b.png";
        PutObject "b.png" "image/png" (bytesOf "PNG"); LogSkipping "a.html";
        LogUploaded "b.png"; LogDoneUploading; LogExtraFiles ["c.css"];
        LogRemovingExtra; LogRemoving "c.css"; DeleteObject "c.css"; LogDone ]
  ∧ dom (bucket (run Scenario.coerceEq Scenario.readFile Scenario.s3Files
                   Scenario.localFiles Scenario.bucket Scenario.sched))
    = {[ "a.html"; "b.png" ]}.
Proof. split_and!; [vm_compute; reflexivity..|]. by_compute. Qed.

(** Nothing local and nothing remote: nothing is put or deleted.  Nothing
    local and two objects remote: both are deleted. *)
Example scenario_empty_tree :
  (∀ (coerceEq : json → string → option bool)
     (readFile : string → option (list byte)),
     trace (run coerceEq readFile [] [] ∅ [])
     = [LogDone; LogDoneUploading; LogUploadingAll])
  ∧ (∀ (coerceEq : json → string → option bool)
       (readFile : string → option (list byte)),
       toDelete (run coerceEq readFile Scenario.s3Files [] Scenario.bucket
                   [DeleteDone 0 true; DeleteDone 1 true])
       ≡ₚ ["a.html"; "c.css"]
       ∧ chain (run coerceEq readFile Scenario.s3Files [] Scenario.bucket
                  [DeleteDone 0 true; DeleteDone 1 true]) = Fulfilled
       ∧ bucket (run coerceEq readFile Scenario.s3Files [] Scenario.bucket
                   [DeleteDone 0 true; DeleteDone 1 true]) = ∅).
Proof.
  split; intros coerceEq readFile; [vm_compute; reflexivity|].
  split_and!; [vm_compute; apply Permutation_swap|vm_compute; reflexivity|].
  apply map_eq. intros k. apply option_eq. intros e.
  rewrite lookup_empty, <- elem_of_map_to_list. vm_compute.
  split; [by intros ?%elem_of_nil|done].
Qed.

(** ** The etag of an uploaded object decodes to its hash *)

Module QuoteFacts.

Lemma stringBody_plain l acc rest :
  Forall plain l →
  stringBody (l ++ dq :: rest) acc = Some (rev acc ++ map N_of_ascii l, rest).
Proof.
  intros H. revert acc. induction H as [|c l (H1 & H2 & H3) _ IH]; intros acc.
  - simpl. by rewrite app_nil_r.
  - cbn [app stringBody]. rewrite H1, H2, H3, IH. simpl.
    by rewrite <- app_assoc.
Qed.

Lemma chars_app s t : chars (s ++ t)%string = chars s ++ chars t.
Proof. induction s as [|c s IH]; simpl; [done|]. by rewrite IH. Qed.

(** [JSON.parse] undoes [JSON.quote] on a string of plain characters. *)
Lemma parse_quote h :
  Forall plain (chars h) → JSON.parse (JSON.quote h) = Some (JString (units h)).
Proof.
  intros H. unfold JSON.parse, JSON.quote.
  replace (2 * String.length (String dq (h ++ String dq "")) + 1)
    with (S (2 * String.length (String dq (h ++ String dq "")))) by lia.
  cbn [chars list_ascii_of_string]. fold (chars (h ++ String dq "")).
  rewrite chars_app. cbn [chars list_ascii_of_string].
  cbn [value skipWs]. change (isWs dq) with false. cbv iota.
  change (isChar dq "[") with false. change (isChar dq "{") with false.
  change (isChar dq dq) with true. cbv iota.
  rewrite (stringBody_plain (chars h) [] [] H). simpl. done.
Qed.

Lemma plain_hexDigit z : plain (MD5.hexDigit z).
Proof.
  unfold MD5.hexDigit.
  assert (Forall plain (chars "0123456789abcdef")) as Hall.
  { repeat constructor. }
  destruct (nth_in_or_default (Z.to_nat (z mod 16))
              (chars "0123456789abcdef") "0"%char) as [Hin| ->].
  - rewrite Forall_forall in Hall. by apply Hall, list_elem_of_In.
  - repeat constructor.
Qed.

Lemma plain_hex data : Forall plain (chars (MD5.hex data)).
Proof.
  unfold MD5.hex. rewrite chars_str. unfold MD5.hexOf.
  induction (MD5.digest data) as [|b bs IH]; simpl; [constructor|].
  repeat (constructor; [apply plain_hexDigit|]). exact IH.
Qed.

(** The etag S3 reports for an object put by the program decodes to the
    MD5 of its bytes. *)
Lemma parse_quote_hex data :
  JSON.parse (JSON.quote (MD5.hex data)) = Some (JString (units (MD5.hex data))).
Proof. apply parse_quote, plain_hex. Qed.

End QuoteFacts.

(** ** A second run changes nothing *)

Section ListingFacts.

Context (b : gmap string (option string)) (l : list RemoteObject).

Hypothesis listed : l ≡ₚ listing b.

Lemma elem_of_listed o : o ∈ l ↔ b !! Key o = Some (ETag o).
Proof.
  rewrite listed. unfold listing. rewrite list_elem_of_fmap. split.
  - intros ([k e] & -> & H%elem_of_map_to_list). done.
  - intros H. exists (Key o, ETag o). split; [by destruct o|].
    by apply elem_of_map_to_list.
Qed.

Lemma NoDup_listed : NoDup (Key <$> l).
Proof.
  rewrite listed. unfold listing. rewrite <- list_fmap_compose.
  apply NoDup_fst_map_to_list.
Qed.

Lemma key_listed k : k ∈ Key <$> l ↔ is_Some (b !! k).
Proof.
  rewrite list_elem_of_fmap. split.
  - intros (o & -> & Ho%elem_of_listed). eauto.
  - intros [e He]. exists {| Key := k; ETag := e |}. split; [done|].
    by apply elem_of_listed.
Qed.

(** The [ETag] found in [s3Map] for a key is the bucket's, for every key,
    [__proto__] included. *)
Lemma etagAt_listed x : etagAt (s3MapOf l) x = b !! x ≫= id.
Proof.
  unfold etagAt. destruct (b !! x) as [e|] eqn:E.
  - assert ({| Key := x; ETag := e |} ∈ l) as Ho by by apply elem_of_listed.
    pose proof (DictFacts.lookup_s3MapOf l _ NoDup_listed Ho) as H.
    simpl in H. by rewrite H.
  - rewrite DictFacts.lookup_s3MapOf_None; [done|].
    rewrite key_listed, E. by intros [? ?].
Qed.

End ListingFacts.

Section SettledFacts.

Context (coerceEq : json → string → option bool)
        (readFile : string → option (list byte)).

Lemma settled_settle s : settled (settle s).
Proof.
  unfold settled, settle, afterUploads.
  destruct (chain s) eqn:C; simpl; rewrite ?C; try done.
  destruct (deletes s) as [ds|] eqn:D; simpl.
  - destruct (forallb isDeleted ds) eqn:F; simpl; rewrite ?C, ?D; done.
  - destruct (forallb resolved (tasks s)) eqn:F; simpl; rewrite ?C, ?D;
      [|done].
    destruct (Dict.keys (s3Map s)); simpl; rewrite ?C; done.
Qed.

Lemma settled_step s c : settled s → settled (step coerceEq readFile s c).
Proof.
  intros H. destruct c; simpl; repeat case_match; try done;
    apply settled_settle.
Qed.

Lemma settled_run s3Files localFiles b sched :
  settled (run coerceEq readFile s3Files localFiles b sched).
Proof.
  unfold run. induction sched as [|c sched IH] using rev_ind.
  - apply settled_settle.
  - rewrite fold_left_app. simpl. by apply settled_step.
Qed.

(** A chain is rejected by a failure only. *)
Lemma rejected_atomic s s' :
  (chain s = Rejected → hasFailure s) →
  atomic coerceEq readFile s s' → chain s' = Rejected → hasFailure s'.
Proof.
  intros IH A.
  assert (∀ s1 s2 : state,
            (chain s2 = Rejected → chain s1 = Rejected) →
            (hasFailure s1 → hasFailure s2) →
            (chain s1 = Rejected → hasFailure s1) →
            chain s2 = Rejected → hasFailure s2) as Hkeep by naive_solver.
  assert (∀ (s1 : state) i x st st',
            tasks s1 !! i = Some (Task x st) → st ≠ Failed ReadError →
            (∀ why, st ≠ Failed why) →
            ∀ s2, tasks s2 = <[i := Task x st']> (tasks s1) →
                  deletes s2 = deletes s1 →
                  hasFailure s1 → hasFailure s2) as Htask.
  { intros s1 i x st st' Hi _ Hnf s2 Ht Hd [(j & y & why & Hj)|(ds & j & k & D & Hj)].
    - left. exists j, y, why. rewrite Ht. apply list_lookup_insert_Some.
      right. split; [|done]. intros <-. rewrite Hi in Hj.
      injection Hj as _ ->. by destruct (Hnf why).
    - right. exists ds, j, k. by rewrite Hd. }
  assert (∀ (s1 : state) i x why,
            i < length (tasks s1) →
            ∀ s2, tasks s2 = <[i := Task x (Failed why)]> (tasks s1) →
                  hasFailure s2) as Hfail.
  { intros s1 i x why Hlt s2 Ht. left. exists i, x, why. rewrite Ht.
    by apply list_lookup_insert_eq. }
  destruct A as [i x s Hi R|i x data s Hi R V|i x data s Hi R V
                |i x data s Hi R V|i x data s Hi|i x data s Hi
                |j k ds s D Hj|j k ds s D Hj|s C D Hall|ds s C D Hall].
  - intros _. eapply (Hfail s i x ReadError); [by eapply lookup_lt_Some|].
    by rewrite tasks_reject.
  - intros _. eapply (Hfail s i x CallbackThrew); [by eapply lookup_lt_Some|].
    by rewrite tasks_reject.
  - apply (Hkeep s); [done| |done].
    by eapply (Htask s i x Reading Skipped).
  - apply (Hkeep s); [done| |done].
    by eapply (Htask s i x Reading (Putting data)).
  - apply (Hkeep s); [done| |done]. unfold onPut.
    by eapply (Htask s i x (Putting data) Uploaded).
  - intros _. unfold onPut.
    eapply (Hfail s i x PutError); [by eapply lookup_lt_Some|].
    by rewrite tasks_reject.
  - apply (Hkeep s); [done| |done].
    intros [(i & y & why & Hi)|(ds' & j' & k' & D' & Hj')].
    + left. eauto.
    + right. rewrite D in D'. injection D' as <-.
      exists (<[j := (k, Deleted)]> ds), j', k'. split; [done|].
      apply list_lookup_insert_Some. right. split; [|done].
      intros <-. congruence.
  - intros _. right. exists (<[j := (k, DeleteFailed)]> ds), j, k.
    split.
    + unfold reject. by destruct (chain _).
    + apply list_lookup_insert_eq. by eapply lookup_lt_Some.
  - unfold afterUploads. destruct (Dict.keys (s3Map s)); simpl; [done|].
    congruence.
  - done.
Qed.

Lemma rejected_run s3Files localFiles b sched :
  chain (run coerceEq readFile s3Files localFiles b sched) = Rejected →
  hasFailure (run coerceEq readFile s3Files localFiles b sched).
Proof.
  pose proof (run_reaches coerceEq readFile s3Files localFiles b sched) as R.
  induction R as [|s2 s3 R IH A]; [done|]. by eapply rejected_atomic.
Qed.

End SettledFacts.

Section InSync.

Context (coerceEq : json → string → option bool)
        (readFile : string → option (list byte))
        (localFiles : list string).

Hypothesis distinct : NoDup (relative <$> localFiles).

Abbreviation inSync := (inSync coerceEq readFile localFiles).

Lemma paths_local s3Files b sched i x st :
  tasks (run coerceEq readFile s3Files localFiles b sched) !! i
  = Some (Task x st) →
  x ∈ relative <$> localFiles.
Proof.
  intros Hi.
  rewrite <- (inv_paths _ _ _ _ _
                (inv_run coerceEq readFile s3Files localFiles b sched)).
  apply list_elem_of_fmap. exists (Task x st). split; [done|].
  apply list_elem_of_lookup. eauto.
Qed.

Lemma deleted_toDelete s k : k ∈ deletedKeys s → k ∈ toDelete s.
Proof.
  unfold deletedKeys, toDelete. destruct (deletes s) as [ds|]; [|done].
  rewrite elem_of_deleted. intros [i Hi].
  apply list_elem_of_fmap. exists (k, Deleted). split; [done|].
  apply list_elem_of_lookup. eauto.
Qed.

(** A run that completes leaves the bucket in sync with the local tree. *)
Lemma inSync_after_run b0 l1 sched :
  l1 ≡ₚ listing b0 →
  chain (run coerceEq readFile l1 localFiles b0 sched) = Fulfilled →
  inSync (bucket (run coerceEq readFile l1 localFiles b0 sched)).
Proof.
  intros L C.
  pose proof (inv_run coerceEq readFile l1 localFiles b0 sched) as I.
  pose proof (fated_run coerceEq readFile l1 localFiles b0 distinct sched) as F.
  destruct (fulfilled_plan coerceEq readFile l1 localFiles b0 sched C)
    as [Hall Hdel].
  set (s := run coerceEq readFile l1 localFiles b0 sched) in *.
  pose proof (λ k, toDelete_deleted coerceEq readFile l1 localFiles b0 sched k C)
    as Hdd.
  assert (∀ x, x ∈ uploaded s → x ∈ relative <$> localFiles) as Hul.
  { intros x Hx. by eapply claimed_local, uploaded_claimed. }
  split.
  - intros x Hx.
    pose proof (resolved_claimed readFile l1 localFiles b0 s x I Hall Hx) as Hc.
    unfold claimed in Hc. apply elem_of_paths in Hc as (i & st & Hi & Hr).
    destruct st; try done.
    + (* skipped *)
      pose proof (F i x _ Hi) as Hf. simpl in Hf. unfold fate in Hf.
      destruct (readFile (distDir ++ x)) as [data|] eqn:R; [|done].
      simpl in Hf. injection Hf as Hf.
      rewrite (etagAt_listed b0 l1 L) in Hf.
      destruct (b0 !! x) as [[e|]|] eqn:B; simpl in Hf; try done.
      exists e, data. split_and!; [|done..].
      rewrite (inv_bucket_rest _ _ _ _ _ I).
      * rewrite decide_False; [done|]. intros Hd%deleted_toDelete.
        by apply (local_not_deleted coerceEq readFile l1 localFiles b0 sched x).
      * unfold uploaded. rewrite elem_of_paths.
        intros (j & st' & Hj & Hu).
        assert (i = j) as ->.
        { pose proof distinct as ND. rewrite <- (inv_paths _ _ _ _ _ I) in ND.
          eapply (NoDup_lookup _ i j x ND); rewrite list_lookup_fmap.
          - by rewrite Hi.
          - by rewrite Hj. }
        rewrite Hi in Hj. by injection Hj as <-.
    + (* uploaded *)
      destruct (inv_bucket_up _ _ _ _ _ I x) as (data & R & B).
      { unfold uploaded. apply elem_of_paths. eauto. }
      exists (JSON.quote (MD5.hex data)), data. split_and!; [done..|].
      unfold compare, s3hashOf. rewrite QuoteFacts.parse_quote_hex. simpl.
      by rewrite bool_decide_eq_true_2.
  - intros k Hk Hp.
    rewrite (inv_bucket_rest _ _ _ _ _ I) by (intros ?; by apply Hk, Hul).
    case_decide as Hd; [done|].
    destruct (b0 !! k) as [e|] eqn:B; [|done].
    destruct Hd. apply Hdd, Hdel.
    apply (keys_left coerceEq readFile l1 localFiles b0 sched).
    split_and!; [|done|].
    + apply (key_listed b0 l1 L). by rewrite B.
    + intros Hc. by apply Hk, (claimed_local readFile l1 localFiles b0 s).
Qed.

(** A resolved promise stays as it is. *)
Lemma resolved_stays_atomic s s' i x st :
  atomic coerceEq readFile s s' →
  tasks s !! i = Some (Task x st) → resolved (Task x st) = true →
  tasks s' !! i = Some (Task x st).
Proof.
  intros A Hi Hr.
  assert (∀ j y st1 st2 (s2 : state),
            tasks s !! j = Some (Task y st1) → resolved (Task y st1) = false →
            tasks s2 = <[j := Task y st2]> (tasks s) →
            tasks s2 !! i = Some (Task x st)) as Hins.
  { intros j y st1 st2 s2 Hj Hnr ->. rewrite list_lookup_insert_ne; [done|].
    intros ->. rewrite Hi in Hj. injection Hj as -> ->. congruence. }
  destruct A as [j y s Hj R|j y data s Hj R V|j y data s Hj R V
                |j y data s Hj R V|j y data s Hj|j y data s Hj
                |j k ds s D Hj|j k ds s D Hj|s C D Hall|ds s C D Hall].
  - eapply (Hins j y Reading); [done..|]. by rewrite tasks_reject.
  - eapply (Hins j y Reading); [done..|]. by rewrite tasks_reject.
  - by eapply (Hins j y Reading).
  - by eapply (Hins j y Reading).
  - unfold onPut. by eapply (Hins j y (Putting data)).
  - unfold onPut. eapply (Hins j y (Putting data)); [done..|].
    by rewrite tasks_reject.
  - done.
  - by rewrite tasks_reject.
  - unfold afterUploads. by destruct (Dict.keys (s3Map s)).
  - done.
Qed.

Lemma resolved_stays s s' i x st :
  reaches coerceEq readFile s s' →
  tasks s !! i = Some (Task x st) → resolved (Task x st) = true →
  tasks s' !! i = Some (Task x st).
Proof.
  intros R Hi Hr. induction R as [|s2 s3 R IH A]; [done|].
  by eapply resolved_stays_atomic.
Qed.

Section OverSyncedBucket.

Context (b1 : gmap string (option string)) (l2 : list RemoteObject).

Hypothesis listed : l2 ≡ₚ listing b1.
Hypothesis synced : inSync b1.

Abbreviation again := (run coerceEq readFile l2 localFiles b1).

Lemma fate_synced x :
  x ∈ relative <$> localFiles →
  fate coerceEq readFile (s3MapOf l2) x = Some Skip.
Proof.
  intros Hx. destruct (proj1 synced x Hx) as (e & data & B & R & V).
  unfold fate. rewrite R. simpl. rewrite (etagAt_listed b1 l2 listed), B.
  simpl. by rewrite V.
Qed.

Lemma stage_synced sched i x st :
  tasks (again sched) !! i = Some (Task x st) → st = Reading ∨ st = Skipped.
Proof.
  intros Hi.
  pose proof (paths_local l2 b1 sched i x st Hi) as Hx.
  by eapply (proj1 (skipped_key coerceEq readFile l2 localFiles b1 sched x
                      distinct (fate_synced x Hx))).
Qed.

Lemma toUpload_synced sched x : x ∉ toUpload (again sched).
Proof.
  unfold toUpload. rewrite elem_of_paths. intros (i & st & Hi & Hu).
  by destruct (stage_synced sched i x st Hi) as [-> | ->].
Qed.

Lemma uploaded_synced sched x : x ∉ uploaded (again sched).
Proof.
  unfold uploaded. rewrite elem_of_paths. intros (i & st & Hi & Hu).
  by destruct (stage_synced sched i x st Hi) as [-> | ->].
Qed.

Lemma toDelete_synced sched k : k ∉ toDelete (again sched).
Proof.
  pose proof (inv_run coerceEq readFile l2 localFiles b1 sched) as I.
  intros Hk.
  assert (k ∉ relative <$> localFiles) as Hl.
  { intros Hl.
    by apply (local_not_deleted coerceEq readFile l2 localFiles b1 sched k). }
  unfold toDelete in Hk.
  destruct (deletes (again sched)) as [ds|] eqn:D; [|by apply elem_of_nil in Hk].
  destruct (inv_deletes _ _ _ _ _ I ds D) as [_ E]. rewrite E in Hk.
  apply (keys_left coerceEq readFile l2 localFiles b1 sched) in Hk
    as (Hlisted & Hp & _).
  apply (key_listed b1 l2 listed) in Hlisted as [e He].
  by rewrite (proj2 synced k Hl Hp) in He.
Qed.

(** After the reads of the first [n] files have completed, their promises
    are skipped. *)
Lemma reads_skip n i x st :
  i < n →
  tasks (again (ReadDone <$> seq 0 n)) !! i = Some (Task x st) →
  st = Skipped.
Proof.
  revert i x st. induction n as [|n IH]; intros i x st Hlt Hi; [lia|].
  rewrite seq_S, fmap_app in Hi. simpl in Hi.
  destruct (stage_synced _ i x st Hi) as [->|]; [|done]. exfalso.
  rewrite run_snoc in Hi.
  assert (∃ st0, tasks (again (ReadDone <$> seq 0 n)) !! i = Some (Task x st0))
    as [st0 Hi0].
  { pose proof (inv_run coerceEq readFile l2 localFiles b1
                  (ReadDone <$> seq 0 n)) as I0.
    pose proof (inv_run coerceEq readFile l2 localFiles b1
                  ((ReadDone <$> seq 0 n) ++ [ReadDone n])) as I1.
    rewrite run_snoc in I1.
    pose proof (inv_paths _ _ _ _ _ I1) as E1.
    rewrite <- (inv_paths _ _ _ _ _ I0) in E1.
    apply (f_equal (.!! i)) in E1. rewrite !list_lookup_fmap in E1.
    rewrite Hi in E1.
    destruct (tasks (again (ReadDone <$> seq 0 n)) !! i) as [[y st0]|];
      simplify_eq/=. eauto. }
  destruct (decide (i = n)) as [->|Hne].
  - destruct (stage_synced _ n x st0 Hi0) as [->| ->].
    + destruct (read_completes coerceEq readFile _ n x Hi0) as (st & Hst & Hn).
      rewrite Hi in Hst. by injection Hst as <-.
    + pose proof (resolved_stays _ _ n x Skipped
                    (step_reaches coerceEq readFile _ (ReadDone n)) Hi0 eq_refl).
      congruence.
  - assert (st0 = Skipped) as -> by (apply (IH i x st0); [lia|done]).
    pose proof (resolved_stays _ _ i x Skipped
                  (step_reaches coerceEq readFile _ (ReadDone n)) Hi0 eq_refl).
    congruence.
Qed.

(** A run over a bucket in sync with the local tree uploads nothing,
    deletes nothing and leaves the bucket as it is; once the reads have
    completed, every file has been skipped and the run is complete. *)
Lemma synced_run sched :
  (∀ x, LogUploading x ∉ trace (again sched))
  ∧ (∀ x c d, PutObject x c d ∉ trace (again sched))
  ∧ (∀ k, DeleteObject k ∉ trace (again sched))
  ∧ bucket (again sched) = b1
  ∧ (∀ i x st, tasks (again sched) !! i = Some (Task x st) →
       st = Reading ∨ st = Skipped)
  ∧ (chain (again sched) = Fulfilled →
       Dict.keys (s3Map (again sched)) = []
       ∧ ∀ i x st, tasks (again sched) !! i = Some (Task x st) → st = Skipped)
  ∧ chain (again (readAll localFiles)) = Fulfilled.
Proof.
  pose proof (inv_run coerceEq readFile l2 localFiles b1 sched) as I.
  split_and!.
  - intros x. rewrite (inv_upload_log _ _ _ _ _ I). apply toUpload_synced.
  - intros x c d H. destruct (inv_put_req _ _ _ _ _ I x c d H) as [Hu _].
    by apply (toUpload_synced sched x).
  - intros k. rewrite (inv_delete_req _ _ _ _ _ I). apply toDelete_synced.
  - apply map_eq. intros k.
    rewrite (inv_bucket_rest _ _ _ _ _ I) by apply uploaded_synced.
    rewrite decide_False; [done|]. intros Hd%deleted_toDelete.
    by apply (toDelete_synced sched k).
  - apply stage_synced.
  - intros C.
    destruct (fulfilled_plan coerceEq readFile l2 localFiles b1 sched C)
      as [Hall Hdel].
    split.
    + destruct (Dict.keys (s3Map (again sched))) as [|k ks] eqn:K; [done|].
      destruct (toDelete_synced sched k). apply Hdel. by left.
    + intros i x st Hi. destruct (stage_synced sched i x st Hi) as [->|];
        [|done].
      destruct (forallb_resolved_insert _ _ _ _ Hi eq_refl Hall).
  - set (sc := readAll localFiles).
    pose proof (inv_run coerceEq readFile l2 localFiles b1 sc) as Ic.
    assert (forallb resolved (tasks (again sc)) = true) as Hall.
    { apply forallb_forall. intros [x st] Ht.
      apply list_elem_of_In, list_elem_of_lookup in Ht as [i Hi].
      assert (i < length localFiles) as Hlt.
      { pose proof (lookup_lt_Some _ _ _ Hi) as Hlt.
        pose proof (f_equal length (inv_paths _ _ _ _ _ Ic)) as El.
        rewrite !length_fmap in El. by rewrite <- El. }
      by rewrite (reads_skip (length localFiles) i x st Hlt Hi). }
    destruct (chain (again sc)) eqn:C; [|done|].
    + pose proof (settled_run coerceEq readFile l2 localFiles b1 sc C) as St.
      destruct (deletes (again sc)) as [ds|] eqn:D; [|congruence].
      destruct ds as [|[k st] ds]; [done|].
      destruct (toDelete_synced sc k). unfold toDelete. rewrite D. by left.
    + destruct (rejected_run coerceEq readFile l2 localFiles b1 sc C)
        as [(i & x & why & Hi)|(ds & j & k & D & Hj)].
      * by destruct (stage_synced sc i x _ Hi).
      * destruct (toDelete_synced sc k). unfold toDelete. rewrite D.
        apply list_elem_of_fmap. exists (k, DeleteFailed). split; [done|].
        apply list_elem_of_lookup. eauto.
Qed.

End OverSyncedBucket.

(** C3. A run that completes, then a second run over the same local tree
    and over the bucket the first run left (a successful put being
    reported by S3 as the quoted MD5 of the bytes put): the second run
    announces and requests no upload, requests no delete and leaves the
    bucket as it found it; every file promise is reading or skipped; when
    the second run completes, every file was skipped and [s3Map] is empty;
    and it does complete once the reads have completed. *)
Theorem second_run_is_idle (b0 : gmap string (option string))
    (l1 l2 : list RemoteObject) (sched1 sched2 : list completion) :
  l1 ≡ₚ listing b0 →
  chain (run coerceEq readFile l1 localFiles b0 sched1) = Fulfilled →
  l2 ≡ₚ listing (bucket (run coerceEq readFile l1 localFiles b0 sched1)) →
  (∀ x, LogUploading x
        ∉ trace (run coerceEq readFile l2 localFiles
                   (bucket (run coerceEq readFile l1 localFiles b0 sched1))
                   sched2))
  ∧ (∀ x c d, PutObject x c d
              ∉ trace (run coerceEq readFile l2 localFiles
                         (bucket (run coerceEq readFile l1 localFiles b0 sched1))
                         sched2))
  ∧ (∀ k, DeleteObject k
          ∉ trace (run coerceEq readFile l2 localFiles
                     (bucket (run coerceEq readFile l1 localFiles b0 sched1))
                     sched2))
  ∧ bucket (run coerceEq readFile l2 localFiles
              (bucket (run coerceEq readFile l1 localFiles b0 sched1)) sched2)
    = bucket (run coerceEq readFile l1 localFiles b0 sched1)
  ∧ (∀ i x st,
       tasks (run coerceEq readFile l2 localFiles
                (bucket (run coerceEq readFile l1 localFiles b0 sched1))
                sched2) !! i = Some (Task x st) →
       st = Reading ∨ st = Skipped)
  ∧ (chain (run coerceEq readFile l2 localFiles
              (bucket (run coerceEq readFile l1 localFiles b0 sched1)) sched2)
     = Fulfilled →
     Dict.keys (s3Map (run coerceEq readFile l2 localFiles
                         (bucket (run coerceEq readFile l1 localFiles b0 sched1))
                         sched2)) = []
     ∧ ∀ i x st,
         tasks (run coerceEq readFile l2 localFiles
                  (bucket (run coerceEq readFile l1 localFiles b0 sched1))
                  sched2) !! i = Some (Task x st) →
         st = Skipped)
  ∧ chain (run coerceEq readFile l2 localFiles
             (bucket (run coerceEq readFile l1 localFiles b0 sched1))
             (readAll localFiles))
    = Fulfilled.
Proof.
  intros L1 C L2.
  apply (synced_run _ l2 L2). by apply inSync_after_run.
Qed.

End InSync.

(** The scenario, run twice: the second run completes without a put or a
    delete. *)
Lemma second_run_is_idle_witness :
  (∀ k, DeleteObject k
        ∉ trace (run Scenario.coerceEq Scenario.readFile
                   (listing (bucket Scenario.first)) Scenario.localFiles
                   (bucket Scenario.first) (readAll Scenario.localFiles)))
  ∧ (∀ x c d, PutObject x c d
              ∉ trace (run Scenario.coerceEq Scenario.readFile
                         (listing (bucket Scenario.first)) Scenario.localFiles
                         (bucket Scenario.first) (readAll Scenario.localFiles)))
  ∧ chain (run Scenario.coerceEq Scenario.readFile
             (listing (bucket Scenario.first)) Scenario.localFiles
             (bucket Scenario.first) (readAll Scenario.localFiles))
    = Fulfilled.
Proof.
  pose proof (second_run_is_idle Scenario.coerceEq Scenario.readFile
                Scenario.localFiles) as H.
  specialize (H ltac:(by_compute) Scenario.bucket (listing Scenario.bucket)
                (listing (bucket Scenario.first)) Scenario.sched
                (readAll Scenario.localFiles)).
  destruct H as (_ & H2 & H3 & _ & _ & _ & H7).
  - reflexivity.
  - vm_compute. reflexivity.
  - reflexivity.
  - split_and!; [exact H3|exact H2|exact H7].
Defined.

(** ** Extensions and last portions *)

Module PathFacts.

Import Path.

Lemma takeWhile_all p (l : list ascii) :
  Forall (λ c, p c = true) l → ∀ r, takeWhile p (l ++ r) = l ++ takeWhile p r.
Proof. induction 1 as [|c l H _ IH]; intros r; simpl; [done|]. by rewrite H, IH. Qed.

Lemma dropWhile_all p (l : list ascii) :
  Forall (λ c, p c = true) l → ∀ r, dropWhile p (l ++ r) = dropWhile p r.
Proof. induction 1 as [|c l H _ IH]; intros r; simpl; [done|]. by rewrite H, IH. Qed.

Lemma takeWhile_holds p (l : list ascii) : Forall (λ c, p c = true) (takeWhile p l).
Proof.
  induction l as [|c l IH]; simpl; [constructor|].
  destruct (p c) eqn:E; by constructor.
Qed.

Lemma elem_of_rev (l : list ascii) c : c ∈ rev l ↔ c ∈ l.
Proof. rewrite !list_elem_of_In. symmetry. apply in_rev. Qed.

Lemma isSlash_false c : c ≠ "/"%char → isSlash c = false.
Proof. intros H. unfold isSlash. by apply Ascii.eqb_neq. Qed.

Lemma isDot_false c : c ≠ "."%char → isDot c = false.
Proof. intros H. unfold isDot. by apply Ascii.eqb_neq. Qed.

(** The reversed last portion of a portion is the portion. *)
Lemma lastPortionRev_fixed (f : list ascii) :
  Forall (λ c, negb (isSlash c) = true) f →
  lastPortionRev (rev f) = f.
Proof.
  intros H. unfold lastPortionRev. rewrite rev_involutive.
  destruct H as [|c f Hc H]; [done|].
  cbn [dropWhile]. apply negb_true_iff in Hc as Hc'. rewrite Hc'.
  rewrite <- (app_nil_r (c :: f)) at 1.
  rewrite takeWhile_all; [by rewrite app_nil_r|by constructor].
Qed.

Lemma lastPortionRev_lastPortion name :
  lastPortionRev (chars (lastPortion name)) = lastPortionRev (chars name).
Proof.
  unfold lastPortion. rewrite chars_str. apply lastPortionRev_fixed.
  unfold lastPortionRev. apply takeWhile_holds.
Qed.

Lemma extname_lastPortion name : extname (lastPortion name) = extname name.
Proof. unfold extname. by rewrite lastPortionRev_lastPortion. Qed.

Lemma basename_lastPortion name ext :
  basename (lastPortion name) ext = basename name ext.
Proof. unfold basename. by rewrite lastPortionRev_lastPortion. Qed.

(** The reversed last portion of [stem.ext]. *)
Lemma lastPortionRev_suffix stem ext :
  endsInName stem → dotFree ext →
  ∃ c lp, lastPortionRev (chars stem) = c :: lp
          ∧ lastPortionRev (chars (stem ++ "." ++ ext))
            = rev (chars ext) ++ "."%char :: c :: lp.
Proof.
  intros (l & c & El & Hc) He. unfold lastPortionRev.
  rewrite !QuoteFacts.chars_app, El. cbn [chars list_ascii_of_string].
  fold (chars ext). rewrite !rev_app_distr. cbn [rev app].
  rewrite <- !app_assoc. cbn [app dropWhile].
  rewrite (isSlash_false _ Hc).
  exists c, (takeWhile (λ c, negb (isSlash c)) (rev l)). split.
  { cbn [takeWhile]. by rewrite (isSlash_false _ Hc). }
  assert (Forall (λ c, negb (isSlash c) = true) (rev (chars ext))) as Hns.
  { apply Forall_rev. eapply Forall_impl; [exact He|].
    intros a [_ Ha]. simpl. by rewrite (isSlash_false _ Ha). }
  assert (dropWhile isSlash (rev (chars ext) ++ "."%char :: c :: rev l)
          = rev (chars ext) ++ "."%char :: c :: rev l) as ->.
  { destruct Hns as [|a r Ha _]; [done|]. cbn [app dropWhile].
    by apply negb_true_iff in Ha as ->. }
  rewrite (takeWhile_all _ _ Hns). cbn [takeWhile].
  change (isSlash ".") with false. cbn [negb].
  by rewrite (isSlash_false _ Hc).
Qed.

Lemma extnameRev_suffix (e lp : list ascii) c :
  Forall (λ c, c ≠ "."%char ∧ c ≠ "/"%char) e → e ≠ [] →
  extnameRev (rev e ++ "."%char :: c :: lp) = rev e ++ ["."%char].
Proof.
  intros He Hne. unfold extnameRev.
  assert (Forall (λ c, negb (isDot c) = true) (rev e)) as Hnd.
  { apply Forall_rev. eapply Forall_impl; [exact He|].
    intros a [Ha _]. simpl. by rewrite (isDot_false _ Ha). }
  rewrite (takeWhile_all _ _ Hnd), (dropWhile_all _ _ Hnd).
  cbn [takeWhile dropWhile]. change (isDot ".") with true. cbn [negb].
  rewrite app_nil_r. rewrite decide_False; [done|].
  destruct (rev e) as [|a r] eqn:E.
  - apply (f_equal (@rev ascii)) in E. rewrite rev_involutive in E. done.
  - inversion Hnd as [|? ? Ha _]; subst. intros [= -> _].
    by vm_compute in Ha.
Qed.

(** The extension of [stem.ext] is [.ext]. *)
Lemma extname_suffix stem ext :
  endsInName stem → dotFree ext → ext ≠ "" →
  extname (stem ++ "." ++ ext) = ("." ++ ext)%string.
Proof.
  intros Hs He Hne. unfold extname.
  destruct (lastPortionRev_suffix stem ext Hs He) as (c & lp & _ & ->).
  rewrite extnameRev_suffix; [|done|].
  - rewrite rev_app_distr, rev_involutive. simpl. by rewrite str_chars.
  - intros E. apply Hne. apply chars_inj. by rewrite E.
Qed.

(** *** Joining a directory and a name *)

Lemma joinWith_snoc sep (parts : list (list ascii)) p :
  parts ≠ [] → joinWith sep (parts ++ [p]) = joinWith sep parts ++ sep ++ p.
Proof.
  induction parts as [|q [|q' rest] IH]; intros H; [done|done|].
  change (joinWith sep ((q :: q' :: rest) ++ [p]))
    with (q ++ sep ++ joinWith sep ((q' :: rest) ++ [p])).
  rewrite IH by done.
  change (joinWith sep (q :: q' :: rest))
    with (q ++ sep ++ joinWith sep (q' :: rest)).
  by rewrite <- !app_assoc.
Qed.

Lemma splitSlash_app p : ∀ cur r,
  "/"%char ∉ p → splitSlash cur (p ++ r) = splitSlash (rev p ++ cur) r.
Proof.
  induction p as [|c p IH]; intros cur r H; [done|].
  cbn [app splitSlash]. rewrite isSlash_false.
  - rewrite IH. + cbn [rev]. by rewrite <- app_assoc.
    + intros ?. apply H. by right.
  - intros ->. apply H. by left.
Qed.

Lemma splitSlash_joinWith (parts : list (list ascii)) : ∀ p cur,
  Forall (λ q, "/"%char ∉ q) (p :: parts) →
  splitSlash cur (joinWith ["/"%char] (p :: parts)) = (rev cur ++ p) :: parts.
Proof.
  induction parts as [|q rest IH]; intros p cur H.
  - cbn [joinWith]. rewrite <- (app_nil_r p) at 1.
    rewrite splitSlash_app by by inversion H. cbn [splitSlash].
    by rewrite rev_app_distr, rev_involutive.
  - change (joinWith ["/"%char] (p :: q :: rest))
      with (p ++ "/"%char :: joinWith ["/"%char] (q :: rest)).
    inversion H as [|? ? Hp Hrest]; subst.
    rewrite splitSlash_app by done. cbn [splitSlash].
    change (isSlash "/") with true. cbv iota.
    rewrite IH by done. by rewrite rev_app_distr, rev_involutive.
Qed.

Lemma fold_pushSegment b (parts : list (list ascii)) : ∀ stack,
  Forall plainSegment parts →
  fold_left (pushSegment b) parts stack
  = rev (filter (λ p, p ≠ []) parts) ++ stack.
Proof.
  induction parts as [|p parts IH]; intros stack H; [done|].
  inversion H as [|? ? (_ & H1 & H2) Hrest]; subst.
  cbn [fold_left]. rewrite IH by done. unfold pushSegment.
  destruct (decide (p = [])) as [->|Hne].
  - by rewrite filter_cons_False by (intros ?; done).
  - rewrite filter_cons_True by done. rewrite !decide_False by done.
    cbn [rev]. by rewrite <- app_assoc.
Qed.

Lemma joinWith_nonempty sep (p : list ascii) parts :
  p ≠ [] → joinWith sep (p :: parts) ≠ [].
Proof. destruct p, parts; done. Qed.

(** Normalising a relative path made of plain segments drops the empty
    ones. *)
Lemma normalize_plain (first : list ascii) (mid : list (list ascii))
    (final : list ascii) c :
  first ≠ [] → Forall plainSegment (first :: mid ++ [final ++ [c]]) →
  normalize (joinWith ["/"%char] (first :: mid ++ [final ++ [c]]))
  = joinWith ["/"%char]
      (filter (λ p, p ≠ []) (first :: mid ++ [final ++ [c]])).
Proof.
  intros Hne Hall.
  assert (Forall (λ q, "/"%char ∉ q) (first :: mid ++ [final ++ [c]])) as Hns.
  { eapply Forall_impl; [exact Hall|]. by intros q (? & _). }
  set (parts := first :: mid ++ [final ++ [c]]) in *.
  assert (normalizeString true (joinWith ["/"%char] parts)
          = joinWith ["/"%char] (filter (λ p, p ≠ []) parts)) as Hn.
  { unfold normalizeString. unfold parts at 1.
    rewrite (splitSlash_joinWith _ first []) by done. cbn [rev app].
    fold parts. rewrite fold_pushSegment by done.
    by rewrite app_nil_r, rev_involutive. }
  assert (filter (λ p, p ≠ []) parts
          = first :: filter (λ p, p ≠ []) (mid ++ [final ++ [c]])) as Hf.
  { unfold parts. by rewrite filter_cons_True. }
  destruct first as [|a first]; [done|].
  assert (∃ rest, joinWith ["/"%char] parts = a :: rest) as [rest Hj].
  { unfold parts. destruct (mid ++ [final ++ [c]]); eexists; reflexivity. }
  assert (a ≠ "/"%char) as Ha.
  { intros ->. inversion Hns as [|? ? H _]; subst. apply H. by left. }
  assert (lastIsSlash (joinWith ["/"%char] parts) = false) as Hl.
  { unfold parts.
    change ((a :: first) :: mid ++ [final ++ [c]])
      with (((a :: first) :: mid) ++ [final ++ [c]]).
    rewrite joinWith_snoc by done. unfold lastIsSlash.
    rewrite !app_assoc, rev_app_distr. cbn [rev app].
    apply isSlash_false. intros ->.
    unfold parts in Hall. clear -Hall.
    inversion Hall as [|? ? _ H]; subst.
    apply Forall_app in H as [_ H]. inversion H as [|? ? (H1 & _) _]; subst.
    apply H1. apply elem_of_app. right. by left. }
  unfold normalize. rewrite Hj at 1. rewrite (isSlash_false _ Ha).
  cbn [negb]. rewrite Hn, Hl.
  destruct (joinWith ["/"%char] (filter (λ p, p ≠ []) parts)) eqn:E; [|done].
  rewrite Hf in E. by apply joinWith_nonempty in E.
Qed.

End PathFacts.

(** ** [contentType], by the suffix of the name *)

Lemma contentType_mimeOf name :
  contentType name
  = mimeOf (Path.extname
              (if String.eqb (Path.extname name) ".gz"
               then Path.basename name (Path.extname name) else name)).
Proof.
  unfold contentType, mimeOf, mimeTable, assoc.
  repeat case_match; simplify_eq; done.
Qed.

Lemma contentType_no_extension name :
  Path.extname name = "" → contentType name = "text/html".
Proof. intros E. rewrite contentType_mimeOf, E. simpl. by rewrite E. Qed.

Lemma append_assoc (a b c : string) : ((a ++ b) ++ c = a ++ b ++ c)%string.
Proof.
  induction a as [|x a IH]; [done|].
  change (String x ((a ++ b) ++ c) = String x (a ++ b ++ c))%string.
  by f_equal.
Qed.

Lemma endsInName_suffix stem ext :
  dotFree ext → ext ≠ "" → endsInName (stem ++ "." ++ ext).
Proof.
  intros He Hne. unfold endsInName.
  rewrite !QuoteFacts.chars_app. cbn [chars list_ascii_of_string].
  fold (chars ext).
  assert (chars ext ≠ []) as Hne'.
  { intros E. apply Hne, chars_inj. by rewrite E. }
  destruct (exists_last Hne') as (e & a & E). rewrite E.
  exists (chars stem ++ "."%char :: e), a. split.
  - by rewrite <- app_assoc.
  - unfold dotFree in He. rewrite E in He.
    apply Forall_app in He as [_ He]. by inversion He as [|? ? [_ ?] _].
Qed.

(** X3. A name that ends in a dot and a suffix gets the type the table
    gives for that suffix, whether or not [.gz] follows it. *)
Theorem contentType_by_suffix (stem ext : string) :
  endsInName stem → dotFree ext → ext ≠ "" →
  Path.extname (stem ++ "." ++ ext) = ("." ++ ext)%string
  ∧ (ext ≠ "gz" → contentType (stem ++ "." ++ ext) = mimeOf ("." ++ ext))
  ∧ contentType (stem ++ "." ++ ext ++ ".gz") = mimeOf ("." ++ ext).
Proof.
  intros Hs He Hne.
  pose proof (PathFacts.extname_suffix stem ext Hs He Hne) as E.
  split_and!; [done| |].
  - intros Hgz. rewrite contentType_mimeOf, E.
    destruct (String.eqb_spec ("." ++ ext) ".gz") as [H|_];
      [|by rewrite E].
    by injection H.
  - set (stem' := (stem ++ "." ++ ext)%string).
    assert ((stem ++ "." ++ ext ++ ".gz")%string
            = (stem' ++ "." ++ "gz")%string) as ->.
    { unfold stem'. by rewrite !append_assoc. }
    assert (endsInName stem') as Hs' by by apply endsInName_suffix.
    assert (dotFree "gz") as Hgz by (repeat constructor; done).
    pose proof (PathFacts.extname_suffix stem' "gz" Hs' Hgz ltac:(done)) as E'.
    change ("." ++ "gz")%string with ".gz" in *.
    rewrite contentType_mimeOf, E'. simpl String.eqb. cbv iota.
    f_equal.
    assert (Path.basename (stem' ++ ".gz") ".gz"
            = Path.lastPortion stem') as ->.
    { pose proof (basename_gz _ E') as B.
      rewrite <- (dropSuffix_app (Path.basename _ _) ".gz"), <- B.
      unfold Path.lastPortion.
      destruct (PathFacts.lastPortionRev_suffix stem' "gz" Hs' Hgz)
        as (c & lp & E1 & E2).
      change ("." ++ "gz")%string with ".gz" in E2. rewrite E1, E2.
      change (rev (chars "gz") ++ "."%char :: c :: lp)
        with (rev (chars ".gz") ++ c :: lp).
      rewrite rev_app_distr, rev_involutive, str_app, str_chars.
      apply (dropSuffix_app _ ".gz"). }
    by rewrite PathFacts.extname_lastPortion.
Qed.

(** [site/css/style.css] and [site/css/style.css.gz] are both served as
    [text/css]. *)
Lemma contentType_by_suffix_witness :
  contentType "site/css/style.css" = "text/css"
  ∧ contentType "site/css/style.css.gz" = "text/css".
Proof.
  assert (endsInName "site/css/style") as Hs.
  { exists (chars "site/css/styl"), "e"%char. split; [reflexivity|done]. }
  assert (dotFree "css") as He by (repeat constructor; done).
  destruct (contentType_by_suffix "site/css/style" "css" Hs He ltac:(done))
    as (_ & H1 & H2).
  split; [apply H1; done|apply H2].
Defined.

(** X4. The type depends on the last portion of the name only: the
    directories of a key play no part, even when their names hold dots.
    A last portion without a dot, or whose only dot is its first
    character, is served as [text/html]. *)
Theorem contentType_last_portion (name : string) :
  contentType name = contentType (Path.lastPortion name)
  ∧ ("."%char ∉ chars (Path.lastPortion name) →
     contentType name = "text/html")
  ∧ (∀ s, Path.lastPortion name = ("." ++ s)%string → "."%char ∉ chars s →
          contentType name = "text/html").
Proof.
  assert (∀ l : list ascii, "."%char ∉ l →
            Forall (λ c, negb (Path.isDot c) = true) l) as Hnd.
  { intros l Hl. apply Forall_forall. intros c Hc.
    rewrite PathFacts.isDot_false; [done|]. by intros ->. }
  assert (chars (Path.lastPortion name)
          = rev (Path.lastPortionRev (chars name))) as Hlp.
  { unfold Path.lastPortion. by rewrite chars_str. }
  split_and!.
  - rewrite !contentType_mimeOf, PathFacts.extname_lastPortion,
      PathFacts.basename_lastPortion.
    destruct (String.eqb _ _); [done|].
    by rewrite PathFacts.extname_lastPortion.
  - intros Hdot. apply contentType_no_extension.
    rewrite Hlp in Hdot. unfold Path.extname, Path.extnameRev.
    assert ("."%char ∉ Path.lastPortionRev (chars name)) as Hdot'.
    { intros H. apply Hdot. by apply PathFacts.elem_of_rev in H. }
    rewrite <- (app_nil_r (Path.lastPortionRev (chars name))).
    by rewrite (PathFacts.dropWhile_all _ _ (Hnd _ Hdot')).
  - intros s Es Hdot. apply contentType_no_extension.
    rewrite Es in Hlp.
    change (chars ("." ++ s)) with ("."%char :: chars s) in Hlp.
    apply (f_equal (@rev ascii)) in Hlp. rewrite rev_involutive in Hlp.
    cbn [rev] in Hlp. unfold Path.extname, Path.extnameRev. rewrite <- Hlp.
    assert ("."%char ∉ rev (chars s)) as Hdot'.
    { intros H. apply Hdot. by apply PathFacts.elem_of_rev. }
    by rewrite (PathFacts.dropWhile_all _ _ (Hnd _ Hdot')).
Qed.

(** ** [iterS3]: the pages of a listing *)

Module PagingFacts.

Import Lister.

Lemma onPage_continues st p :
  continues p →
  ∃ o, lastOf (Contents p) = Some o
       ∧ onPage st (pageOf p)
         = ({| keys := keys st ++ Contents p; result := result st |},
            Request (Key o)).
Proof.
  intros [T N]. unfold onPage, pageOf. simpl.
  rewrite T. destruct (lastOf (Contents p)) as [o|] eqn:L.
  - by exists o.
  - apply last_None in L. done.
Qed.

Lemma iterPage_pages svc ps : ∀ fuel n marker st last,
  result st = Waiting →
  serves svc n marker (ps ++ [last]) → Forall continues ps →
  length ps < fuel →
  iterPage fuel svc n marker st
  = (let '(st', nx) := onPage {| keys := keys st ++ objectsOf ps;
                                 result := Waiting |} (pageOf last) in
     {| final := st';
        exchanges := exchangesOf marker (ps ++ [last]);
        ended := match nx with Return => Returned | _ => Threw end |})
  ∨ ∃ m, (onPage {| keys := keys st ++ objectsOf ps; result := Waiting |}
            (pageOf last)).2 = Request m.
Proof.
  induction ps as [|p ps IH]; intros fuel n marker st last W Sv F L.
  - destruct fuel as [|fuel]; [simpl in L; lia|].
    destruct Sv as [Sv _]. cbn [iterPage app]. rewrite Sv.
    unfold objectsOf. cbn [fmap list_fmap concat]. rewrite app_nil_r.
    assert (st = {| keys := keys st; result := Waiting |}) as <-.
    { destruct st as [k r]. simpl in W. by rewrite W. }
    destruct (onPage st (pageOf last)) as [st' nx] eqn:E.
    destruct nx; [right; by eexists|left; done..].
  - destruct fuel as [|fuel]; [simpl in L; lia|].
    destruct Sv as [Sv Sv']. inversion F as [|? ? Fp Fps]; subst.
    cbn [iterPage app]. rewrite Sv.
    destruct (onPage_continues st p Fp) as (o & Lo & ->).
    assert (markerAfter p = Some (Key o)) as M.
    { unfold markerAfter. by rewrite Lo. }
    rewrite M in Sv'.
    destruct (IH fuel (S n) (Some (Key o))
                {| keys := keys st ++ Contents p; result := result st |}
                last W Sv' Fps ltac:(simpl in L; lia)) as [E|E].
    + left. rewrite E. clear E. cbn [keys].
      unfold objectsOf. cbn [fmap list_fmap concat].
      rewrite <- app_assoc.
      destruct (onPage _ (pageOf last)) as [st' nx]. cbn [final exchanges ended].
      cbn [exchangesOf]. by rewrite M.
    + right. cbn [keys] in E. unfold objectsOf.
      cbn [fmap list_fmap concat]. by rewrite app_assoc.
Qed.

(** Good pages, then an answer without data. *)
Lemma iterPage_null svc ps : ∀ fuel n marker st r,
  result st = Waiting →
  serves svc n marker ps → Forall continues ps →
  svc (n + length ps) (markerPast marker ps) = r → data r = None →
  length ps < fuel →
  iterPage fuel svc n marker st
  = {| final := {| keys := keys st ++ objectsOf ps;
                   result := RejectedWith (err r) |};
       exchanges := exchangesOf marker ps ++ [(markerPast marker ps, r)];
       ended := Threw |}.
Proof.
  induction ps as [|p ps IH]; intros fuel n marker st r W Sv F Hr Hd L.
  - destruct fuel as [|fuel]; [simpl in L; lia|].
    cbn [iterPage markerPast length] in *. rewrite Nat.add_0_r in Hr.
    rewrite Hr. unfold onPage. rewrite Hd.
    rewrite bool_decide_eq_true_2 by by right.
    unfold settleWith. rewrite W. unfold objectsOf. simpl.
    by rewrite app_nil_r.
  - destruct fuel as [|fuel]; [simpl in L; lia|].
    destruct Sv as [Sv Sv']. inversion F as [|? ? Fp Fps]; subst.
    cbn [iterPage]. rewrite Sv.
    destruct (onPage_continues st p Fp) as (o & Lo & ->).
    assert (markerAfter p = Some (Key o)) as M.
    { unfold markerAfter. by rewrite Lo. }
    cbn [markerPast length] in *. rewrite M in *.
    rewrite (IH fuel (S n) (Some (Key o))
               {| keys := keys st ++ Contents p; result := result st |}
               (svc (n + S (length ps)) (markerPast (Some (Key o)) ps)));
      try done.
    + cbn [final exchanges ended keys exchangesOf]. rewrite M.
      unfold objectsOf. cbn [fmap list_fmap concat].
      by rewrite <- app_assoc.
    + f_equal. lia.
    + lia.
Qed.

(** A listing served in good pages resolves with their objects. *)
Lemma iterS3_result svc ps last fuel :
  serves svc 0 None (ps ++ [last]) →
  Forall continues ps → IsTruncated last = false →
  length ps < fuel →
  result (final (iterS3 fuel svc)) = ResolvedWith (objectsOf (ps ++ [last])).
Proof.
  intros Sv F T L. unfold iterS3.
  assert (objectsOf (ps ++ [last]) = objectsOf ps ++ Contents last) as ->.
  { unfold objectsOf. rewrite fmap_app, concat_app. simpl.
    by rewrite app_nil_r. }
  destruct (iterPage_pages svc ps fuel 0 None
              {| keys := []; result := Waiting |}
              last eq_refl Sv F L) as [E|[m E]].
  - rewrite E. unfold onPage, pageOf. simpl. by rewrite T.
  - revert E. unfold onPage, pageOf. simpl. by rewrite T.
Qed.

End PagingFacts.

(** X5. A listing that S3 serves in pages resolves with the objects of all
    pages, in order: when every page but the last announces more and is
    not empty, and the last announces no more, [iterS3] requests each page
    once, the first without marker and each next one with the key of the
    last object of the page before, and resolves with the concatenation
    of the pages. *)
Theorem iterS3_concatenates_pages
    (listObjects : nat → option string → Lister.response)
    (ps : list Lister.page) (last : Lister.page) (fuel : nat) :
  serves listObjects 0 None (ps ++ [last]) →
  Forall continues ps → Lister.IsTruncated last = false →
  length ps < fuel →
  Lister.iterS3 fuel listObjects
  = {| Lister.final :=
         {| Lister.keys := objectsOf (ps ++ [last]);
            Lister.result := Lister.ResolvedWith (objectsOf (ps ++ [last])) |};
       Lister.exchanges := exchangesOf None (ps ++ [last]);
       Lister.ended := Lister.Returned |}.
Proof.
  intros S F T L. unfold Lister.iterS3.
  assert (objectsOf (ps ++ [last]) = objectsOf ps ++ Lister.Contents last) as ->.
  { unfold objectsOf. rewrite fmap_app, concat_app. simpl.
    by rewrite app_nil_r. }
  destruct (PagingFacts.iterPage_pages listObjects ps fuel 0 None
              {| Lister.keys := []; Lister.result := Lister.Waiting |}
              last eq_refl S F L) as [E|[m E]].
  - rewrite E. unfold Lister.onPage, pageOf. simpl. by rewrite T.
  - revert E. unfold Lister.onPage, pageOf. simpl. by rewrite T.
Qed.

(** A bucket listed in two pages. *)
Lemma iterS3_concatenates_pages_witness :
  Lister.result (Lister.final (Lister.iterS3 5 Sample.twoPages))
  = Lister.ResolvedWith [Sample.objA; Sample.objB; Sample.objC].
Proof.
  rewrite (iterS3_concatenates_pages Sample.twoPages
             [Sample.firstPage] Sample.lastPage 5).
  - reflexivity.
  - simpl. done.
  - repeat constructor; done.
  - reflexivity.
  - simpl. lia.
Defined.

(** X6. A page that announces more but holds no object stops the listing
    for good: the callback throws when it reads the key of the last
    object, no further page is requested, and the promise of [iterS3] is
    neither resolved nor rejected. *)
Theorem iterS3_empty_truncated_page
    (listObjects : nat → option string → Lister.response)
    (ps : list Lister.page) (last : Lister.page) (fuel : nat) :
  serves listObjects 0 None (ps ++ [last]) →
  Forall continues ps →
  Lister.IsTruncated last = true → Lister.Contents last = [] →
  length ps < fuel →
  Lister.iterS3 fuel listObjects
  = {| Lister.final :=
         {| Lister.keys := objectsOf ps; Lister.result := Lister.Waiting |};
       Lister.exchanges := exchangesOf None (ps ++ [last]);
       Lister.ended := Lister.Threw |}.
Proof.
  intros S F T C L. unfold Lister.iterS3.
  destruct (PagingFacts.iterPage_pages listObjects ps fuel 0 None
              {| Lister.keys := []; Lister.result := Lister.Waiting |}
              last eq_refl S F L) as [E|[m E]].
  - rewrite E. unfold Lister.onPage, pageOf. simpl. rewrite T, C. simpl.
    by rewrite app_nil_r.
  - revert E. unfold Lister.onPage, pageOf. simpl. by rewrite T, C.
Qed.

(** One good page, then a hollow one. *)
Lemma iterS3_empty_truncated_page_witness :
  Lister.result (Lister.final (Lister.iterS3 5 Sample.stalls)) = Lister.Waiting
  ∧ Lister.ended (Lister.iterS3 5 Sample.stalls) = Lister.Threw.
Proof.
  rewrite (iterS3_empty_truncated_page Sample.stalls
             [Sample.firstPage] Sample.hollowPage 5).
  - done.
  - simpl. done.
  - repeat constructor; done.
  - reflexivity.
  - reflexivity.
  - simpl. lia.
Defined.

(** X17. A page request that is answered without data ends the listing:
    after any number of good pages, the callback rejects the promise of
    [iterS3] with the [err] it received ([null] when there was none) and
    then throws on [data.Contents]; nothing further is requested, and
    the objects of the pages before are not delivered. *)
Theorem iterS3_stops_at_null_response
    (listObjects : nat → option string → Lister.response)
    (ps : list Lister.page) (r : Lister.response) (fuel : nat) :
  serves listObjects 0 None ps → Forall continues ps →
  listObjects (length ps) (markerPast None ps) = r →
  Lister.data r = None →
  length ps < fuel →
  Lister.iterS3 fuel listObjects
  = {| Lister.final :=
         {| Lister.keys := objectsOf ps;
            Lister.result := Lister.RejectedWith (Lister.err r) |};
       Lister.exchanges := exchangesOf None ps ++ [(markerPast None ps, r)];
       Lister.ended := Lister.Threw |}.
Proof.
  intros Sv F Hr Hd L. unfold Lister.iterS3.
  by rewrite (PagingFacts.iterPage_null listObjects ps fuel 0 None
                {| Lister.keys := []; Lister.result := Lister.Waiting |} r
                eq_refl Sv F Hr Hd L).
Qed.

(** One good page, then an error. *)
Lemma iterS3_stops_at_null_response_witness :
  Lister.result (Lister.final (Lister.iterS3 5 Sample.breaks))
  = Lister.RejectedWith (Some "SlowDown")
  ∧ length (Lister.exchanges (Lister.iterS3 5 Sample.breaks)) = 2.
Proof.
  rewrite (iterS3_stops_at_null_response Sample.breaks [Sample.firstPage]
             {| Lister.err := Some "SlowDown"; Lister.data := None |} 5).
  - done.
  - simpl. done.
  - repeat constructor; done.
  - reflexivity.
  - reflexivity.
  - simpl. lia.
Defined.

(** ** The hash of a file and the etag of an upload *)

Module HashFacts.

Lemma length_le_bytes n x : length (MD5.le_bytes n x) = n.
Proof. unfold MD5.le_bytes. by rewrite length_map, length_seq. Qed.

Lemma length_digest data : length (MD5.digest data) = 16.
Proof.
  unfold MD5.digest.
  destruct (fold_left _ _ _) as [[[a b] c] d].
  by rewrite !length_app, !length_le_bytes.
Qed.

Lemma length_hexOf bs : length (MD5.hexOf bs) = 2 * length bs.
Proof.
  unfold MD5.hexOf. induction bs as [|b bs IH]; [done|].
  cbn [map concat]. rewrite length_app, IH. simpl. lia.
Qed.

Lemma length_chars s : length (chars s) = String.length s.
Proof. induction s as [|c s IH]; simpl; auto. Qed.

Lemma hexDigit_lower z : MD5.hexDigit z ∈ chars "0123456789abcdef".
Proof.
  unfold MD5.hexDigit.
  destruct (nth_in_or_default (Z.to_nat (z mod 16))
              (chars "0123456789abcdef") "0"%char) as [Hin| ->].
  - by apply list_elem_of_In.
  - by_compute.
Qed.

Lemma units_inj s t : units s = units t → s = t.
Proof.
  unfold units. intros H. apply chars_inj.
  revert H. generalize (chars t). induction (chars s) as [|a l IH];
    intros [|b l']; simpl; intros H; try done.
  injection H as Hab Hl. f_equal; [|by apply IH].
  rewrite <- (ascii_N_embedding a), <- (ascii_N_embedding b). by rewrite Hab.
Qed.

End HashFacts.

(** X7. The hash the program computes is 32 lowercase hexadecimal digits,
    and the etag S3 reports for an object the program has put, the hash
    between double quotes, decodes to that hash: the comparison of line
    151 skips a file exactly when the etag under its key is the quoted
    hash of its bytes, and uploads it when the etag is the quoted hash of
    other bytes. *)
Theorem etag_round_trip (coerceEq : json → string → option bool)
    (data : list byte) :
  String.length (MD5.hex data) = 32
  ∧ Forall (λ c, c ∈ chars "0123456789abcdef") (chars (MD5.hex data))
  ∧ JSON.parse (JSON.quote (MD5.hex data))
    = Some (JString (units (MD5.hex data)))
  ∧ compare coerceEq (Some (JSON.quote (MD5.hex data))) data = Skip
  ∧ (∀ other,
       compare coerceEq (Some (JSON.quote (MD5.hex other))) data
       = if decide (MD5.hex other = MD5.hex data) then Skip else Upload).
Proof.
  assert (∀ other,
            compare coerceEq (Some (JSON.quote (MD5.hex other))) data
            = if decide (MD5.hex other = MD5.hex data) then Skip else Upload)
    as Hcmp.
  { intros other. unfold compare, s3hashOf.
    rewrite QuoteFacts.parse_quote_hex. simpl.
    case_decide as E.
    - rewrite bool_decide_eq_true_2; [done|]. by rewrite E.
    - rewrite bool_decide_eq_false_2; [done|].
      intros H. by apply E, HashFacts.units_inj. }
  split_and!.
  - rewrite <- HashFacts.length_chars. unfold MD5.hex. rewrite chars_str.
    by rewrite HashFacts.length_hexOf, HashFacts.length_digest.
  - unfold MD5.hex. rewrite chars_str. unfold MD5.hexOf.
    induction (MD5.digest data) as [|b bs IH]; simpl; [constructor|].
    repeat (constructor; [apply HashFacts.hexDigit_lower|]). exact IH.
  - apply QuoteFacts.parse_quote_hex.
  - rewrite Hcmp. by rewrite decide_True.
  - exact Hcmp.
Qed.

(** ** The order of a run *)

Section OrderFacts.

Context (coerceEq : json → string → option bool)
        (readFile : string → option (list byte))
        (s3Files : list RemoteObject) (localFiles : list string)
        (b0 : gmap string (option string)).

Abbreviation Inv := (inv readFile s3Files localFiles b0).
Abbreviation atomic := (atomic coerceEq readFile).
Abbreviation reaches := (reaches coerceEq readFile).
Abbreviation theRun := (run coerceEq readFile s3Files localFiles b0).

Lemma chain_reject_cases s :
  (chain s = Pending ∧ chain (reject s) = Rejected)
  ∨ (chain s ≠ Pending ∧ reject s = s).
Proof. unfold reject. destruct (chain s) eqn:C; simpl; auto. Qed.

Lemma trace_reject s : trace (reject s) = trace s.
Proof. unfold reject. by destruct (chain s). Qed.

Lemma deletes_reject s : deletes (reject s) = deletes s.
Proof. unfold reject. by destruct (chain s). Qed.

Lemma chain_reject_fulfilled s : chain (reject s) = Fulfilled ↔ chain s = Fulfilled.
Proof. unfold reject. destruct (chain s) eqn:C; simpl; rewrite ?C; done. Qed.

Lemma deleteRequests_app a b :
  deleteRequests (a ++ b) = deleteRequests a ++ deleteRequests b.
Proof. unfold deleteRequests. apply flat_map_app. Qed.

Lemma putRequests_app a b :
  putRequests (a ++ b) = putRequests a ++ putRequests b.
Proof. unfold putRequests. apply flat_map_app. Qed.

Lemma deleteRequests_reverse tr :
  deleteRequests (reverse tr) = reverse (deleteRequests tr).
Proof.
  induction tr as [|e tr IH]; [done|].
  rewrite reverse_cons, deleteRequests_app, IH.
  change (e :: tr) with ([e] ++ tr). rewrite deleteRequests_app, reverse_app.
  f_equal. by destruct e.
Qed.

Lemma deleteRequests_removal (ks : list string) :
  deleteRequests (flat_map (λ k, [LogRemoving k; DeleteObject k]) ks) = ks.
Proof. induction ks as [|k ks IH]; [done|]. simpl. by rewrite IH. Qed.

Lemma elem_of_putRequests tr k :
  k ∈ putRequests tr ↔ ∃ c d, PutObject k c d ∈ tr.
Proof.
  unfold putRequests. rewrite list_elem_of_In, in_flat_map. split.
  - intros (e & He & Hk). apply list_elem_of_In in He.
    destruct e; simpl in Hk; try done. destruct Hk as [->|[]]. eauto.
  - intros (c & d & H). exists (PutObject k c d).
    split; [by apply list_elem_of_In|by left].
Qed.

Lemma elem_of_deleteRequests tr k :
  k ∈ deleteRequests tr ↔ DeleteObject k ∈ tr.
Proof.
  unfold deleteRequests. rewrite list_elem_of_In, in_flat_map. split.
  - intros (e & He & Hk). apply list_elem_of_In in He.
    destruct e; simpl in Hk; try done. by destruct Hk as [->|[]].
  - intros H. exists (DeleteObject k).
    split; [by apply list_elem_of_In|by left].
Qed.

(** A file promise that is no longer pending keeps its stage. *)
Lemma stage_stays_atomic s s' i x st :
  atomic s s' →
  tasks s !! i = Some (Task x st) → st ≠ Reading → (∀ d, st ≠ Putting d) →
  tasks s' !! i = Some (Task x st).
Proof.
  intros A Hi Hr Hp.
  assert (∀ j y st1 st2 (s2 : state),
            tasks s !! j = Some (Task y st1) →
            (st1 = Reading ∨ ∃ d, st1 = Putting d) →
            tasks s2 = <[j := Task y st2]> (tasks s) →
            tasks s2 !! i = Some (Task x st)) as Hins.
  { intros j y st1 st2 s2 Hj Hst ->. rewrite list_lookup_insert_ne; [done|].
    intros ->. rewrite Hi in Hj. injection Hj as -> ->.
    destruct Hst as [->|[d ->]]; [done|by destruct (Hp d)]. }
  destruct A as [j y s Hj R|j y data s Hj R V|j y data s Hj R V
                |j y data s Hj R V|j y data s Hj|j y data s Hj
                |j k ds s D Hj|j k ds s D Hj|s C D Hall|ds s C D Hall].
  - eapply (Hins j y Reading); [done|by left|]. by rewrite tasks_reject.
  - eapply (Hins j y Reading); [done|by left|]. by rewrite tasks_reject.
  - by eapply (Hins j y Reading); [done|by left|].
  - by eapply (Hins j y Reading); [done|by left|].
  - unfold onPut. by eapply (Hins j y (Putting data)); [done|right; eauto|].
  - unfold onPut. eapply (Hins j y (Putting data)); [done|right; eauto|].
    by rewrite tasks_reject.
  - done.
  - by rewrite tasks_reject.
  - unfold afterUploads. by destruct (Dict.keys (s3Map s)).
  - done.
Qed.

Lemma stage_stays s s' i x st :
  reaches s s' →
  tasks s !! i = Some (Task x st) → st ≠ Reading → (∀ d, st ≠ Putting d) →
  tasks s' !! i = Some (Task x st).
Proof.
  intros R Hi Hr Hp. induction R as [|s2 s3 R IH A]; [done|].
  by eapply stage_stays_atomic.
Qed.

Lemma run_app sched more :
  theRun (sched ++ more)
  = fold_left (step coerceEq readFile) more (theRun sched).
Proof. unfold run. by rewrite fold_left_app. Qed.

Lemma run_continues sched more : reaches (theRun sched) (theRun (sched ++ more)).
Proof.
  rewrite run_app. generalize (theRun sched).
  induction more as [|c more IH]; intros s; [apply reaches_refl|].
  simpl. eapply reaches_trans; [apply step_reaches|apply IH].
Qed.

(** With nothing in flight, a completion finds nothing to complete. *)
Lemma idle_step s c : ¬ inFlight s → step coerceEq readFile s c = s.
Proof.
  intros H. destruct c as [i|i ok|j ok]; simpl.
  - destruct (tasks s !! i) as [[x []]|] eqn:T; try done.
    destruct H. left. eauto.
  - destruct (tasks s !! i) as [[x []]|] eqn:T; try done.
    destruct H. right. left. eauto.
  - destruct (deletes s) as [ds|] eqn:D; simpl; [|done].
    destruct (ds !! j) as [[k []]|] eqn:J; try done.
    destruct H. right. right. eauto 10.
Qed.

Lemma idle_run s more :
  ¬ inFlight s → fold_left (step coerceEq readFile) more s = s.
Proof.
  intros H. induction more as [|c more IH]; [done|].
  simpl. by rewrite idle_step.
Qed.

(** An event that is neither of the lines 'Done uploading.' and 'Done.'
    nor a delete request. *)
Lemma orderly_frame s s' evs :
  orderly s →
  trace s' = evs ++ trace s →
  Forall (λ e, e ≠ LogDoneUploading ∧ e ≠ LogDone ∧ ∀ k, e ≠ DeleteObject k)
         evs →
  toDelete s' = toDelete s →
  (is_Some (deletes s) → is_Some (deletes s')) →
  (chain s' = Fulfilled → chain s = Fulfilled ∧ evs = []) →
  (chain s = Fulfilled → chain s' = Fulfilled) →
  (chain s' = Pending → chain s = Pending ∧ (hasFailure s' → hasFailure s)) →
  orderly s'.
Proof.
  intros O Ht Hq Hd Hs Hf Hf' Hp.
  assert (∀ e, e = LogDoneUploading ∨ e = LogDone ∨ (∃ k, e = DeleteObject k) →
               e ∈ trace s' ↔ e ∈ trace s) as Hmem.
  { intros e He. rewrite Ht, elem_of_app. split; [|by right].
    intros [Hin|]; [|done]. rewrite Forall_forall in Hq.
    destruct (Hq e Hin) as (H1 & H2 & H3).
    destruct He as [->|[->|[k ->]]]; [done..|by destruct (H3 k)]. }
  constructor.
  - intros C. destruct (Hp C) as [C' Hh]. intros F.
    by apply (ord_pending _ O C'), Hh.
  - rewrite Hmem by auto. intros H.
    destruct (ord_done_uploading _ O H) as [C|D]; [left|right]; auto.
  - rewrite Hmem by auto. rewrite (ord_done _ O). split; [auto|]. apply Hf.
  - intros C. destruct (Hf C) as [C' ->]. rewrite Ht. simpl.
    by apply (ord_head _ O).
  - rewrite Hd, <- (ord_deletes _ O), Ht, deleteRequests_app.
    assert (deleteRequests evs = []) as ->; [|done].
    clear -Hq. induction Hq as [|e evs (_ & _ & He) _ IH]; [done|].
    change (e :: evs) with ([e] ++ evs). rewrite deleteRequests_app, IH.
    destruct e; try done. by destruct (He k).
Qed.

Lemma failure_insert (s s' : state) i x st' :
  tasks s' = <[i := Task x st']> (tasks s) → (∀ why, st' ≠ Failed why) →
  deletes s' = deletes s → hasFailure s' → hasFailure s.
Proof.
  intros Ht Hn Hd [(j & y & why & Hj)|(ds & j & k & D & Hj)].
  - left. rewrite Ht in Hj.
    apply list_lookup_insert_Some in Hj as [(_ & [= _ E] & _)|[_ Hj]];
      [by destruct (Hn why)|eauto].
  - right. rewrite Hd in D. eauto.
Qed.

Lemma orderly_initial : orderly (initial s3Files localFiles b0).
Proof.
  constructor; simpl.
  - intros _ [(j & y & why & Hj)|(ds & j & k & D & Hj)]; [|done].
    simpl in Hj. by apply list_lookup_fmap_Some in Hj as (f & [=] & _).
  - intros H. apply list_elem_of_singleton in H. done.
  - split; [|done]. intros H. apply list_elem_of_singleton in H. done.
  - done.
  - done.
Qed.

Ltac rejecting :=
  rewrite ?trace_reject, ?deletes_reject; try done;
  try (unfold toDelete; rewrite deletes_reject; done);
  try (intros C; apply (proj1 (chain_reject_fulfilled _)) in C; by split);
  try (intros C; by apply (proj2 (chain_reject_fulfilled _)));
  try (intros C; by destruct (chain_reject _ C)).

#[local] Arguments reverse : simpl never.
#[local] Arguments flat_map : simpl never.

Lemma orderly_atomic s s' : Inv s → orderly s → atomic s s' → orderly s'.
Proof.
  intros I O A.
  destruct A as [i x s Hi R|i x data s Hi R V|i x data s Hi R V
                |i x data s Hi R V|i x data s Hi|i x data s Hi
                |j k ds s D Hj|j k ds s D Hj|s C D Hall|ds s C D Hall].
  - apply (orderly_frame s _ []); rejecting.
  - apply (orderly_frame s _ []); rejecting.
  - destruct (pending_task _ _ _ _ s i x Reading I Hi eq_refl) as [_ Hnf].
    apply (orderly_frame s _ [LogSkipping x]); try done.
    + repeat constructor; done.
    + intros C. split; [done|]. by apply (failure_insert s _ i x Skipped).
  - destruct (pending_task _ _ _ _ s i x Reading I Hi eq_refl) as [_ Hnf].
    apply (orderly_frame s _ [PutObject x (contentType x) data; LogUploading x]);
      try done.
    + repeat constructor; done.
    + intros C. split; [done|].
      by apply (failure_insert s _ i x (Putting data)).
  - destruct (pending_task _ _ _ _ s i x (Putting data) I Hi eq_refl)
      as [_ Hnf].
    apply (orderly_frame s _ [LogUploaded x]); try done.
    + repeat constructor; done.
    + intros C. split; [done|]. by apply (failure_insert s _ i x Uploaded).
  - unfold onPut. apply (orderly_frame s _ []); rejecting.
  - apply (orderly_frame s _ []); try done.
    + unfold toDelete. simpl. rewrite D. by eapply deletes_fst_insert.
    + intros C. split; [done|].
      intros [(i & y & why & Hi)|(ds' & j' & k' & [= <-] & Hj')].
      * left. eauto.
      * right. exists ds, j', k'. split; [done|].
        apply list_lookup_insert_Some in Hj' as [(_ & [=] & _)|[_ ?]]; done.
  - apply (orderly_frame s _ []); rejecting.
    unfold toDelete. rewrite deletes_reject. simpl. rewrite D.
    by eapply deletes_fst_insert.
  - unfold afterUploads. destruct (Dict.keys (s3Map s)) as [|k0 ks] eqn:K.
    + constructor; simpl; try done.
      * by left.
      * split; [done|]. intros _. apply elem_of_cons. by left.
      * change (LogDone :: LogDoneUploading :: trace s)
          with ([LogDone; LogDoneUploading] ++ trace s).
        rewrite deleteRequests_app.
        change (deleteRequests [LogDone; LogDoneUploading]) with (@nil string).
        rewrite (ord_deletes _ O). unfold toDelete. simpl. by rewrite D.
    + remember (k0 :: ks) as E. constructor; simpl.
      * intros _ [(i & y & why & Hi)|(ds' & j' & k' & [= <-] & Hj')].
        -- apply (ord_pending _ O C). left. eauto.
        -- by apply list_lookup_fmap_Some in Hj' as (? & [=] & _).
      * intros _. right. eauto.
      * rewrite C. split; [|done]. rewrite elem_of_app, (elem_of_removal readFile).
        intros [[|[|[|(k & _ & [|])]]]|H]; try done.
        apply (ord_done _ O) in H. congruence.
      * by rewrite C.
      * rewrite deleteRequests_app, deleteRequests_reverse.
        change (LogDoneUploading :: LogExtraFiles E :: LogRemovingExtra
                :: flat_map (λ k, [LogRemoving k; DeleteObject k]) E)
          with ([LogDoneUploading; LogExtraFiles E; LogRemovingExtra]
                ++ flat_map (λ k, [LogRemoving k; DeleteObject k]) E).
        rewrite deleteRequests_app, deleteRequests_removal.
        rewrite (ord_deletes _ O). unfold toDelete at 1. rewrite D.
        unfold toDelete. simpl. rewrite <- list_fmap_compose.
        assert (fst ∘ (λ k : string, (k, Deleting)) <$> E = E) as ->.
        { clear. induction E as [|k E IH]; [done|]. simpl. by f_equal. }
        by rewrite app_nil_r.
  - constructor; simpl; try done.
    + intros _. rewrite D. eauto.
    + split; [done|]. intros _. apply elem_of_cons. by left.
    + change (LogDone :: trace s) with ([LogDone] ++ trace s).
      rewrite deleteRequests_app. simpl. rewrite (ord_deletes _ O).
      unfold toDelete. simpl. done.
Qed.

Lemma orderly_reaches s :
  reaches (initial s3Files localFiles b0) s → orderly s.
Proof.
  intros R. induction R as [|s2 s3 R IH A]; [apply orderly_initial|].
  eapply orderly_atomic; [|done..]. by eapply inv_reaches.
Qed.

Lemma orderly_run sched : orderly (theRun sched).
Proof. apply orderly_reaches, run_reaches. Qed.

End OrderFacts.

(** ** Failures, requests and the end of a run *)

Section RunProperties.

Context (coerceEq : json → string → option bool)
        (readFile : string → option (list byte))
        (s3Files : list RemoteObject) (localFiles : list string)
        (b0 : gmap string (option string)).

Abbreviation Inv := (inv readFile s3Files localFiles b0).
Abbreviation atomic := (atomic coerceEq readFile).
Abbreviation reaches := (reaches coerceEq readFile).
Abbreviation theRun := (run coerceEq readFile s3Files localFiles b0).

Lemma failed_unresolved s i x why :
  tasks s !! i = Some (Task x (Failed why)) →
  forallb resolved (tasks s) = true → False.
Proof.
  intros Hi Hall. by eapply (forallb_resolved_insert _ i x (Failed why)).
Qed.

(** A failure rejects the chain, and only a failure does. *)
Lemma rejected_iff_failure sched :
  chain (theRun sched) = Rejected ↔ hasFailure (theRun sched).
Proof.
  pose proof (inv_run coerceEq readFile s3Files localFiles b0 sched) as I.
  pose proof (orderly_run coerceEq readFile s3Files localFiles b0 sched) as O.
  split; [apply rejected_run|]. intros F.
  destruct (chain (theRun sched)) eqn:C; [| |done].
  - by destruct (ord_pending _ O C).
  - destruct (inv_fulfilled _ _ _ _ _ I C) as [Hall Hd].
    destruct F as [(i & x & why & Hi)|(ds & j & k & D & Hj)].
    + destruct (failed_unresolved _ _ _ _ Hi Hall).
    + rewrite D in Hd.
      by pose proof (forallb_isDeleted_lookup _ _ _ _ Hd Hj).
Qed.

(** X8. When a file cannot be read, the comparison throws or a put
    fails, the run deletes nothing: from then on and whatever completes
    later, the chain is rejected, no delete set exists, no delete is
    requested, neither 'Done uploading.' nor 'Done.' is printed, and
    every object of the bucket that the run has not uploaded is as it
    was. *)
Theorem failed_upload_deletes_nothing (sched : list completion) (i : nat)
    (x : string) (why : failure) :
  tasks (theRun sched) !! i = Some (Task x (Failed why)) →
  ∀ more,
    tasks (theRun (sched ++ more)) !! i = Some (Task x (Failed why))
    ∧ chain (theRun (sched ++ more)) = Rejected
    ∧ deletes (theRun (sched ++ more)) = None
    ∧ (∀ k, DeleteObject k ∉ trace (theRun (sched ++ more)))
    ∧ (LogDoneUploading ∉ trace (theRun (sched ++ more)))
    ∧ (LogDone ∉ trace (theRun (sched ++ more)))
    ∧ (∀ k, k ∉ uploaded (theRun (sched ++ more)) →
            bucket (theRun (sched ++ more)) !! k = b0 !! k).
Proof.
  intros Hi more.
  pose proof (inv_run coerceEq readFile s3Files localFiles b0 (sched ++ more))
    as I.
  pose proof (orderly_run coerceEq readFile s3Files localFiles b0
                (sched ++ more)) as O.
  assert (tasks (theRun (sched ++ more)) !! i = Some (Task x (Failed why)))
    as Hi'.
  { eapply stage_stays; [apply run_continues|exact Hi|done..]. }
  set (s := theRun (sched ++ more)) in *.
  assert (chain s = Rejected) as C.
  { apply rejected_iff_failure. left. eauto. }
  assert (deletes s = None) as D.
  { destruct (deletes s) as [ds|] eqn:D; [|done].
    destruct (inv_deletes _ _ _ _ _ I ds D) as [Hall _].
    destruct (failed_unresolved _ _ _ _ Hi' Hall). }
  split_and!; try done.
  - intros k. rewrite (inv_delete_req _ _ _ _ _ I). unfold toDelete.
    rewrite D. apply not_elem_of_nil.
  - intros H. destruct (ord_done_uploading _ O H) as [C'|[ds D']]; congruence.
  - rewrite (ord_done _ O). congruence.
  - intros k Hk. rewrite (inv_bucket_rest _ _ _ _ _ I) by done.
    unfold deletedKeys. rewrite D. by rewrite decide_False by apply not_elem_of_nil.
Qed.

(** With nothing in flight the chain is not pending. *)
Lemma idle_not_pending sched :
  ¬ inFlight (theRun sched) → chain (theRun sched) ≠ Pending.
Proof.
  pose proof (orderly_run coerceEq readFile s3Files localFiles b0 sched) as O.
  pose proof (settled_run coerceEq readFile s3Files localFiles b0 sched) as S.
  intros Hidle C. pose proof (ord_pending _ O C) as Hnf.
  specialize (S C). destruct (deletes (theRun sched)) as [ds|] eqn:D.
  - enough (forallb isDeleted ds = true) by congruence.
    apply forallb_forall. intros [k st] Hin.
    apply list_elem_of_In, list_elem_of_lookup in Hin as [j Hj].
    destruct st; [|done|].
    + destruct Hidle. right. right. eauto 10.
    + destruct Hnf. right. eauto 10.
  - enough (forallb resolved (tasks (theRun sched)) = true) by congruence.
    apply forallb_forall. intros [x st] Hin.
    apply list_elem_of_In, list_elem_of_lookup in Hin as [i Hi].
    destruct st; try done.
    + destruct Hidle. left. eauto.
    + destruct Hidle. right. left. eauto.
    + destruct Hnf. left. eauto.
Qed.

(** X10. With nothing in flight the run is over and its chain has settled:
    it is fulfilled or rejected, and no completion changes the state any
    more.  A fulfilled chain has nothing in flight and no failure, and its
    last line is 'Done.'; a chain is rejected exactly when a read, a
    comparison, a put or a delete has failed. *)
Theorem idle_run_has_settled (sched : list completion) :
  (¬ inFlight (theRun sched) →
     chain (theRun sched) ≠ Pending
     ∧ ∀ more, theRun (sched ++ more) = theRun sched)
  ∧ (chain (theRun sched) = Fulfilled →
       ¬ inFlight (theRun sched) ∧ ¬ hasFailure (theRun sched)
       ∧ head (trace (theRun sched)) = Some LogDone)
  ∧ (chain (theRun sched) = Rejected ↔ hasFailure (theRun sched)).
Proof.
  pose proof (inv_run coerceEq readFile s3Files localFiles b0 sched) as I.
  pose proof (orderly_run coerceEq readFile s3Files localFiles b0 sched) as O.
  split_and!.
  - intros Hidle. split; [by apply idle_not_pending|].
    intros more. rewrite run_app. by apply idle_run.
  - intros C. destruct (inv_fulfilled _ _ _ _ _ I C) as [Hall Hd].
    split_and!.
    + intros [(i & x & Hi)|[(i & x & d & Hi)|(ds & j & k & D & Hj)]].
      * by destruct (forallb_resolved_insert _ _ _ _ Hi eq_refl Hall).
      * by destruct (forallb_resolved_insert _ _ _ _ Hi eq_refl Hall).
      * rewrite D in Hd.
        by pose proof (forallb_isDeleted_lookup _ _ _ _ Hd Hj).
    + intros F%rejected_iff_failure. congruence.
    + by apply (ord_head _ O).
  - apply rejected_iff_failure.
Qed.

(** A delete that has completed keeps its outcome. *)
Lemma outcome_stays_atomic s s' ds j k st :
  atomic s s' → deletes s = Some ds → ds !! j = Some (k, st) →
  st ≠ Deleting →
  ∃ ds', deletes s' = Some ds' ∧ ds' !! j = Some (k, st).
Proof.
  intros A D Hj Hst.
  destruct A as [i y s Hi R|i y data s Hi R V|i y data s Hi R V
                |i y data s Hi R V|i y data s Hi|i y data s Hi
                |j' k' ds0 s D0 Hj'|j' k' ds0 s D0 Hj'|s C D0 Hall
                |ds0 s C D0 Hall];
    unfold onPut; cbv iota; rewrite ?deletes_reject; eauto;
    try (rewrite D in D0; injection D0 as <-; eexists; split; [reflexivity|];
         apply list_lookup_insert_Some; right; split; [|done];
         intros <-; congruence).
  congruence.
Qed.

Lemma outcome_stays s s' ds j k st :
  reaches s s' → deletes s = Some ds → ds !! j = Some (k, st) →
  st ≠ Deleting →
  ∃ ds', deletes s' = Some ds' ∧ ds' !! j = Some (k, st).
Proof.
  intros R D Hj Hst. induction R as [|s2 s3 R IH A]; [eauto|].
  destruct IH as (ds2 & D2 & H2). by eapply outcome_stays_atomic.
Qed.

(** X12. A delete that fails leaves its object in place and ends the run
    in failure: from then on the chain is rejected, 'Done.' is never
    printed, and the bucket still holds the object as it was. *)
Theorem failed_delete_keeps_object (sched : list completion)
    (ds : list (string * dstatus)) (j : nat) (k : string) :
  deletes (theRun sched) = Some ds → ds !! j = Some (k, DeleteFailed) →
  ∀ more,
    chain (theRun (sched ++ more)) = Rejected
    ∧ (LogDone ∉ trace (theRun (sched ++ more)))
    ∧ bucket (theRun (sched ++ more)) !! k = b0 !! k
    ∧ ∃ ds', deletes (theRun (sched ++ more)) = Some ds'
             ∧ ds' !! j = Some (k, DeleteFailed).
Proof.
  intros D Hj more.
  pose proof (inv_run coerceEq readFile s3Files localFiles b0 (sched ++ more))
    as I.
  pose proof (orderly_run coerceEq readFile s3Files localFiles b0
                (sched ++ more)) as O.
  destruct (outcome_stays _ _ ds j k DeleteFailed
              (run_continues coerceEq readFile s3Files localFiles b0 sched more)
              D Hj ltac:(done)) as (ds' & D' & Hj').
  assert (chain (theRun (sched ++ more)) = Rejected) as C.
  { apply rejected_iff_failure. right. eauto 10. }
  split_and!; [done| | |eauto].
  - rewrite (ord_done _ O). congruence.
  - assert (k ∈ toDelete (theRun (sched ++ more))) as Hk.
    { unfold toDelete. rewrite D'. apply list_elem_of_fmap.
      exists (k, DeleteFailed). split; [done|].
      apply list_elem_of_lookup. eauto. }
    rewrite (inv_bucket_rest _ _ _ _ _ I).
    + rewrite decide_False; [done|]. unfold deletedKeys. rewrite D'.
      intros [i Hi]%elem_of_deleted.
      destruct (inv_deletes _ _ _ _ _ I ds' D') as [_ E].
      pose proof (DictFacts.NoDup_keys (s3Map (theRun (sched ++ more)))) as ND.
      rewrite <- E in ND.
      assert (i = j) as ->; [|congruence].
      eapply (NoDup_lookup _ i j k ND); rewrite list_lookup_fmap.
      * by rewrite Hi.
      * by rewrite Hj'.
    + intros Hu%uploaded_claimed.
      apply (claimed_local _ _ _ _ _ _ I) in Hu.
      by apply (local_not_deleted coerceEq readFile s3Files localFiles b0
                  (sched ++ more) k Hu).
Qed.

Section Distinct.

Hypothesis distinct : NoDup (relative <$> localFiles).

Lemma quiet_puts (evs tr : list event) :
  (∀ k c d, PutObject k c d ∉ evs) →
  putRequests (evs ++ tr) = putRequests tr.
Proof.
  intros H. rewrite putRequests_app.
  assert (putRequests evs = []) as ->; [|done].
  apply elem_of_nil_inv. intros k (c & d & Hk)%elem_of_putRequests.
  by destruct (H k c d).
Qed.

#[local] Arguments reverse : simpl never.
#[local] Arguments flat_map : simpl never.

Lemma puts_once_atomic s s' :
  Inv s → NoDup (putRequests (trace s)) → atomic s s' →
  NoDup (putRequests (trace s')).
Proof.
  intros I ND A.
  destruct A as [i x s Hi R|i x data s Hi R V|i x data s Hi R V
                |i x data s Hi R V|i x data s Hi|i x data s Hi
                |j k ds s D Hj|j k ds s D Hj|s C D Hall|ds s C D Hall];
    rewrite ?trace_reject; try done.
  - change (NoDup (putRequests ([PutObject x (contentType x) data]
                                ++ [LogUploading x] ++ trace s))).
    rewrite putRequests_app, (quiet_puts [LogUploading x]).
    2:{ intros k c d H. apply list_elem_of_singleton in H. done. }
    change (NoDup (x :: putRequests (trace s))).
    apply NoDup_cons. split; [|done].
    intros (c & d & Hk)%elem_of_putRequests.
    destruct (inv_put_req _ _ _ _ _ I _ _ _ Hk) as (Hu & _).
    unfold toUpload in Hu. apply elem_of_paths in Hu as (j & st & Hj & Hst).
    assert (i = j) as ->.
    { pose proof distinct as ND'. rewrite <- (inv_paths _ _ _ _ _ I) in ND'.
      eapply (NoDup_lookup _ i j x ND'); rewrite list_lookup_fmap.
      - by rewrite Hi.
      - by rewrite Hj. }
    rewrite Hi in Hj. by injection Hj as <-.
  - unfold onPut. by rewrite trace_reject.
  - unfold afterUploads. destruct (Dict.keys (s3Map s)) as [|k0 ks].
    + change (NoDup (putRequests ([LogDone; LogDoneUploading] ++ trace s))).
      rewrite (quiet_puts [LogDone; LogDoneUploading]); [done|].
      intros k c d H. apply elem_of_cons in H as [|H]; [done|].
      apply list_elem_of_singleton in H. done.
    + remember (k0 :: ks) as E. simpl. rewrite quiet_puts; [done|].
      intros k c d. rewrite (elem_of_removal readFile). naive_solver.
Qed.

Lemma puts_once sched : NoDup (putRequests (trace (theRun sched))).
Proof.
  pose proof (run_reaches coerceEq readFile s3Files localFiles b0 sched) as R.
  induction R as [|s2 s3 R IH A]; [simpl; constructor|].
  eapply puts_once_atomic; [|done..]. by eapply inv_reaches.
Qed.

(** X9. No request is made twice and no key is both put and deleted: a
    run requests at most one put for a key, and only for the key of a
    local file, with the content type of the key and the bytes of the
    file; it requests at most one delete for a key, and only for a listed
    key other than [__proto__] that is no key of a local file; an object
    that is neither listed nor the key of a local file is left as it
    was. *)
Theorem no_request_twice (sched : list completion) :
  NoDup (putRequests (trace (theRun sched)))
  ∧ NoDup (deleteRequests (trace (theRun sched)))
  ∧ (∀ k, k ∈ putRequests (trace (theRun sched)) →
       k ∈ relative <$> localFiles
       ∧ k ∉ deleteRequests (trace (theRun sched)))
  ∧ (∀ k c d, PutObject k c d ∈ trace (theRun sched) →
       c = contentType k ∧ readFile (distDir ++ k) = Some d)
  ∧ (∀ k, k ∈ deleteRequests (trace (theRun sched)) →
       k ∈ Key <$> s3Files ∧ k ≠ Dict.protoName
       ∧ k ∉ relative <$> localFiles)
  ∧ (∀ k, k ∉ relative <$> localFiles → k ∉ Key <$> s3Files →
       bucket (theRun sched) !! k = b0 !! k).
Proof.
  pose proof (inv_run coerceEq readFile s3Files localFiles b0 sched) as I.
  pose proof (orderly_run coerceEq readFile s3Files localFiles b0 sched) as O.
  assert (∀ k, k ∈ toDelete (theRun sched) →
               k ∈ Key <$> s3Files ∧ k ≠ Dict.protoName) as Hlisted.
  { intros k Hk. unfold toDelete in Hk.
    destruct (deletes (theRun sched)) as [ds|] eqn:D;
      [|by apply elem_of_nil in Hk].
    destruct (inv_deletes _ _ _ _ _ I ds D) as [_ E]. rewrite E in Hk.
    apply (keys_left coerceEq readFile s3Files localFiles b0 sched) in Hk.
    by destruct Hk as (? & ? & _). }
  split_and!.
  - apply puts_once.
  - rewrite (ord_deletes _ O), reverse_Permutation. unfold toDelete.
    destruct (deletes (theRun sched)) as [ds|] eqn:D; [|constructor].
    destruct (inv_deletes _ _ _ _ _ I ds D) as [_ ->].
    apply DictFacts.NoDup_keys.
  - intros k (c & d & Hk)%elem_of_putRequests.
    destruct (inv_put_req _ _ _ _ _ I _ _ _ Hk) as (Hu & _).
    assert (k ∈ relative <$> localFiles) as Hl.
    { rewrite <- (inv_paths _ _ _ _ _ I). unfold toUpload in Hu.
      apply elem_of_paths in Hu as (j & st & Hj & _).
      apply list_elem_of_fmap. exists (Task k st). split; [done|].
      apply list_elem_of_lookup. eauto. }
    split; [done|]. rewrite elem_of_deleteRequests.
    rewrite (inv_delete_req _ _ _ _ _ I).
    by apply local_not_deleted.
  - intros k c d Hk.
    by destruct (inv_put_req _ _ _ _ _ I _ _ _ Hk) as (_ & ? & ?).
  - intros k Hk%elem_of_deleteRequests.
    apply (inv_delete_req _ _ _ _ _ I) in Hk.
    destruct (Hlisted k Hk) as [H1 H2]. split_and!; [done..|].
    intros Hl. by apply (local_not_deleted coerceEq readFile s3Files localFiles
                           b0 sched k Hl).
  - intros k Hl Hr. rewrite (inv_bucket_rest _ _ _ _ _ I).
    + rewrite decide_False; [done|]. intros Hd%deleted_toDelete.
      by destruct (Hlisted k Hd).
    + intros Hu%uploaded_claimed. by apply Hl, (claimed_local _ _ _ _ _ _ I).
Qed.

(** X11. A run that completes leaves the bucket as a mirror of the local
    tree, when the listing is that of the bucket: every local file could
    be read and its key holds an etag that the comparison of line 151
    finds equal to the hash of the file, and no other key holds an object,
    but for a key [__proto__]. *)
Theorem completed_run_mirrors_tree (l1 : list RemoteObject)
    (sched : list completion) :
  l1 ≡ₚ listing b0 →
  chain (run coerceEq readFile l1 localFiles b0 sched) = Fulfilled →
  (∀ f, f ∈ localFiles →
     ∃ e data,
       bucket (run coerceEq readFile l1 localFiles b0 sched) !! relative f
       = Some (Some e)
       ∧ readFile (distDir ++ relative f) = Some data
       ∧ compare coerceEq (Some e) data = Skip)
  ∧ (∀ k, k ∉ relative <$> localFiles → k ≠ Dict.protoName →
       bucket (run coerceEq readFile l1 localFiles b0 sched) !! k = None).
Proof.
  intros L C.
  destruct (inSync_after_run coerceEq readFile localFiles distinct b0 l1
              sched L C) as [H1 H2].
  split; [|done]. intros f Hf. apply H1. by apply list_elem_of_fmap_2.
Qed.

End Distinct.

End RunProperties.

(** The scenario with [b.png] unreadable: its read fails first; then
    [a.html], which has changed, is read and put, and nothing is
    deleted. *)
Lemma failed_upload_deletes_nothing_witness :
  chain (run Scenario.coerceEq Scenario.readChanged Scenario.s3Files
           Scenario.localFiles Scenario.bucket
           ([ReadDone 1] ++ [ReadDone 0; PutDone 0 true])) = Rejected
  ∧ ∀ k, DeleteObject k
         ∉ trace (run Scenario.coerceEq Scenario.readChanged Scenario.s3Files
                    Scenario.localFiles Scenario.bucket
                    ([ReadDone 1] ++ [ReadDone 0; PutDone 0 true])).
Proof.
  destruct (failed_upload_deletes_nothing Scenario.coerceEq
              Scenario.readChanged Scenario.s3Files Scenario.localFiles
              Scenario.bucket [ReadDone 1] 1 "b.png" ReadError)
    with (more := [ReadDone 0; PutDone 0 true])
    as (_ & H2 & _ & H4 & _).
  - vm_compute. reflexivity.
  - split; [exact H2|exact H4].
Defined.

(** The scenario: one put, one delete. *)
Lemma no_request_twice_witness :
  NoDup (putRequests
           (trace (run Scenario.coerceEq Scenario.readFile Scenario.s3Files
                     Scenario.localFiles Scenario.bucket Scenario.sched)))
  ∧ NoDup (deleteRequests
             (trace (run Scenario.coerceEq Scenario.readFile Scenario.s3Files
                       Scenario.localFiles Scenario.bucket Scenario.sched))).
Proof.
  destruct (no_request_twice Scenario.coerceEq Scenario.readFile
              Scenario.s3Files Scenario.localFiles Scenario.bucket
              ltac:(by_compute) Scenario.sched) as (H1 & H2 & _).
  split; [exact H1|exact H2].
Defined.

(** The scenario: after the run the bucket holds [a.html] and [b.png], and
    [c.css] is gone. *)
Lemma completed_run_mirrors_tree_witness :
  (∃ e data,
     bucket Scenario.first !! relative "dist/b.png" = Some (Some e)
     ∧ Scenario.readFile (distDir ++ relative "dist/b.png") = Some data
     ∧ compare Scenario.coerceEq (Some e) data = Skip)
  ∧ bucket Scenario.first !! "c.css" = None.
Proof.
  destruct (completed_run_mirrors_tree Scenario.coerceEq Scenario.readFile
              Scenario.localFiles Scenario.bucket ltac:(by_compute)
              (listing Scenario.bucket) Scenario.sched) as [H1 H2].
  - reflexivity.
  - vm_compute. reflexivity.
  - split.
    + apply H1. by_compute.
    + apply H2; [by_compute|done].
Defined.

(** The scenario when the delete of [c.css] fails: the object stays. *)
Lemma failed_delete_keeps_object_witness :
  chain (run Scenario.coerceEq Scenario.readFile Scenario.s3Files
           Scenario.localFiles Scenario.bucket
           ([ReadDone 1; ReadDone 0; PutDone 1 true; DeleteDone 0 false]
            ++ [])) = Rejected
  ∧ bucket (run Scenario.coerceEq Scenario.readFile Scenario.s3Files
              Scenario.localFiles Scenario.bucket
              ([ReadDone 1; ReadDone 0; PutDone 1 true; DeleteDone 0 false]
               ++ [])) !! "c.css"
    = Scenario.bucket !! "c.css".
Proof.
  destruct (failed_delete_keeps_object Scenario.coerceEq Scenario.readFile
              Scenario.s3Files Scenario.localFiles Scenario.bucket
              [ReadDone 1; ReadDone 0; PutDone 1 true; DeleteDone 0 false]
              [("c.css", DeleteFailed)] 0 "c.css")
    with (more := @nil completion) as (H1 & _ & H3 & _).
  - vm_compute. reflexivity.
  - reflexivity.
  - split; [exact H1|exact H3].
Defined.

(** ** The two phases of a run *)

Section Phases.

Context (coerceEq : json → string → option bool)
        (readFile : string → option (list byte))
        (s3Files : list RemoteObject) (localFiles : list string)
        (b0 : gmap string (option string)).

Abbreviation Inv := (inv readFile s3Files localFiles b0).
Abbreviation atomic := (atomic coerceEq readFile).
Abbreviation reaches := (reaches coerceEq readFile).
Abbreviation theRun := (run coerceEq readFile s3Files localFiles b0).

Lemma phased_quiet xs (evs tr : list event) :
  (∀ e, e ∈ evs → ¬ ofUpload e ∧ e ≠ LogDoneUploading) →
  phased xs tr → phased xs (evs ++ tr).
Proof.
  intros H Htr. induction evs as [|e evs IH]; [done|].
  destruct (H e ltac:(by left)) as [H1 H2].
  cbn [app phased]. split_and!; [done..|].
  apply IH. intros e' He'. apply H. by right.
Qed.

Lemma phased_upload xs e (tr : list event) :
  ofUpload e → LogDoneUploading ∉ tr → phased xs tr → phased xs (e :: tr).
Proof.
  intros He Hd Htr. cbn [phased]. split_and!; [done| |done].
  intros ->. done.
Qed.

Lemma phased_split xs (later : list event) : ∀ earlier,
  phased xs (later ++ LogDoneUploading :: earlier) →
  (∀ e, e ∈ later → ¬ ofUpload e)
  ∧ (LogDoneUploading ∉ later) ∧ (LogDoneUploading ∉ earlier)
  ∧ ∀ x, x ∈ xs → ∃ e', e' ∈ earlier ∧ settles x e'.
Proof.
  induction later as [|e later IH]; intros earlier H.
  - destruct H as (_ & H & _). destruct (H eq_refl) as [H1 H2].
    split_and!; [by intros e ?%elem_of_nil|apply not_elem_of_nil|done..].
  - destruct H as (H1 & H2 & H3).
    destruct (IH earlier H3) as (I1 & I2 & I3 & I4).
    assert (LogDoneUploading ∈ later ++ LogDoneUploading :: earlier) as Hin.
    { apply elem_of_app. right. by left. }
    split_and!; [| |done..].
    + intros e' [->|He']%elem_of_cons; [|by apply I1].
      intros He. by apply H1.
    + intros [E|Hl]%elem_of_cons; [|done].
      symmetry in E. by destruct (H2 E).
Qed.

#[local] Arguments reverse : simpl never.
#[local] Arguments flat_map : simpl never.

Lemma phased_atomic s s' :
  Inv s → orderly s → phased (relative <$> localFiles) (trace s) →
  atomic s s' → phased (relative <$> localFiles) (trace s').
Proof.
  intros I O P A.
  assert (∀ i x st, tasks s !! i = Some (Task x st) →
                    resolved (Task x st) = false →
                    LogDoneUploading ∉ trace s) as Hnot.
  { intros i x st Hi Hr H.
    destruct (pending_task _ _ _ _ s i x st I Hi Hr) as [D C].
    destruct (ord_done_uploading _ O H) as [C'|[ds D']]; congruence. }
  destruct A as [i x s Hi R|i x data s Hi R V|i x data s Hi R V
                |i x data s Hi R V|i x data s Hi|i x data s Hi
                |j k ds s D Hj|j k ds s D Hj|s C D Hall|ds s C D Hall];
    unfold onPut; cbv iota; rewrite ?trace_reject; try done.
  - apply phased_upload; [done|by eapply Hnot|done].
  - apply phased_upload; [done| |].
    + intros [|H]%elem_of_cons; [done|]. by eapply Hnot.
    + apply phased_upload; [done|by eapply Hnot|done].
  - apply phased_upload; [done|by eapply Hnot|done].
  - assert (LogDoneUploading ∉ trace s) as Hd.
    { intros H. destruct (ord_done_uploading _ O H) as [C'|[ds D']];
        congruence. }
    assert (phased (relative <$> localFiles) (LogDoneUploading :: trace s))
      as Pd.
    { cbn [phased]. split_and!; [done| |done]. intros _. split; [done|].
      intros x Hx. by eapply all_settled. }
    unfold afterUploads. destruct (Dict.keys (s3Map s)) as [|k0 ks].
    + apply (phased_quiet _ [LogDone]); [|done].
      intros e ->%list_elem_of_singleton. split; [by intros []|done].
    + remember (k0 :: ks) as E. cbn [trace setDeletes emit].
      rewrite reverse_cons, <- app_assoc. apply phased_quiet; [|done].
      intros e. rewrite elem_of_reverse, !elem_of_cons, list_elem_of_In,
        in_flat_map.
      intros [->|[->|(k & _ & [<-|[<-|[]]])]]; (split; [by intros []|done]).
Qed.

Lemma phased_run sched : phased (relative <$> localFiles) (trace (theRun sched)).
Proof.
  pose proof (run_reaches coerceEq readFile s3Files localFiles b0 sched) as R.
  induction R as [|s2 s3 R IH A].
  - cbn [initial trace phased]. split_and!; done.
  - eapply phased_atomic; [| |done..]; [by eapply inv_reaches|].
    by eapply orderly_reaches.
Qed.

(** X18. The line 'Done uploading.' closes the upload phase.  In the trace
    of every run it is printed at most once; after it no file is skipped,
    announced, put or reported uploaded; and before it a line
    ['Skipping:'] or ['Uploaded:'] was printed for every local file. *)
Theorem done_uploading_ends_uploads (sched : list completion) :
  ∀ later earlier,
    trace (theRun sched) = later ++ LogDoneUploading :: earlier →
    (∀ e, e ∈ later → ¬ ofUpload e)
    ∧ (LogDoneUploading ∉ later) ∧ (LogDoneUploading ∉ earlier)
    ∧ ∀ f, f ∈ localFiles →
           LogSkipping (relative f) ∈ earlier
           ∨ LogUploaded (relative f) ∈ earlier.
Proof.
  intros later earlier E.
  pose proof (phased_run sched) as P. rewrite E in P.
  destruct (phased_split _ _ _ P) as (H1 & H2 & H3 & H4).
  split_and!; [done..|]. intros f Hf.
  destruct (H4 (relative f)) as (e & He & [->| ->]); auto.
  by apply list_elem_of_fmap_2.
Qed.

End Phases.

(** The scenario: both files are settled before 'Done uploading.', and
    only the removal follows it. *)
Lemma done_uploading_ends_uploads_witness :
  LogDoneUploading
  ∉ [LogDone; DeleteObject "c.css"; LogRemoving "c.css"; LogRemovingExtra;
     LogExtraFiles ["c.css"]].
Proof.
  destruct (done_uploading_ends_uploads Scenario.coerceEq Scenario.readFile
              Scenario.s3Files Scenario.localFiles Scenario.bucket
              Scenario.sched
              [LogDone; DeleteObject "c.css"; LogRemoving "c.css";
               LogRemovingExtra; LogExtraFiles ["c.css"]]
              [LogUploaded "b.png"; LogSkipping "a.html";
               PutObject "b.png" "image/png" (bytesOf "PNG");
               LogUploading "b.png"; LogUploadingAll])
    as (_ & H & _).
  - vm_compute. reflexivity.
  - exact H.
Defined.

(** ** [iterFS]: the paths of a walk *)

Module WalkFacts.

Import Path Walker.

Lemma entryName_plain f :
  entryName f → chars f ≠ [] ∧ plainSegment (chars f).
Proof.
  intros (H1 & H2 & H3 & H4). unfold plainSegment.
  split_and!; [|done|..].
  - intros E. apply H1, chars_inj. by rewrite E.
  - intros E. apply H3, chars_inj. by rewrite E.
  - intros E. apply H4, chars_inj. by rewrite E.
Qed.

Lemma chars_slashed names :
  chars (slashed names) = joinWith ["/"%char] (chars <$> names).
Proof. unfold slashed. apply chars_str. Qed.

Lemma plain_names names :
  Forall entryName names → Forall plainSegment (chars <$> names).
Proof.
  intros H. apply Forall_fmap. eapply Forall_impl; [exact H|].
  intros f Hf. by destruct (entryName_plain f Hf).
Qed.

Lemma filter_names names :
  Forall entryName names →
  filter (λ p, p ≠ []) (chars <$> names) = chars <$> names.
Proof.
  induction 1 as [|f names Hf _ IH]; [done|].
  destruct (entryName_plain f Hf) as [Hne _].
  rewrite fmap_cons, filter_cons_True by done. by rewrite IH.
Qed.

(** The path of an entry is the path of its directory, a separator and
    its name. *)
Lemma join_entry d segs f :
  rooted d segs → entryName f → Path.join d f = slashed (segs ++ [f]).
Proof.
  intros (Hne & Hsegs & Hd) Hf.
  destruct segs as [|s0 srest]; [done|].
  destruct (entryName_plain f Hf) as [Hfne Hfp].
  destruct (exists_last Hfne) as (g & c & Ef).
  inversion Hsegs as [|? ? Hs0 Hrest]; subst.
  destruct (entryName_plain s0 Hs0) as [Hs0ne Hs0p].
  assert (chars d ≠ []) as Hdne.
  { destruct Hd as [-> | ->]; rewrite ?QuoteFacts.chars_app, chars_slashed;
      rewrite fmap_cons; intros E.
    - by apply PathFacts.joinWith_nonempty in E.
    - apply app_eq_nil in E as [E _]. by apply PathFacts.joinWith_nonempty in E. }
  unfold Path.join.
  rewrite filter_cons_True by done. rewrite filter_cons_True by done.
  rewrite filter_nil. apply chars_inj. rewrite chars_str, chars_slashed.
  assert (∃ mid,
            joinWith ["/"%char] [chars d; chars f]
            = joinWith ["/"%char] (chars s0 :: mid ++ [g ++ [c]])
            ∧ Forall plainSegment mid
            ∧ filter (λ p, p ≠ []) mid = chars <$> srest) as (mid & -> & Hmid & Hfil).
  { change (joinWith ["/"%char] [chars d; chars f])
      with (chars d ++ ["/"%char] ++ chars f).
    rewrite Ef. destruct Hd as [-> | ->].
    - exists (chars <$> srest). split_and!.
      + rewrite chars_slashed, fmap_cons.
        change (chars s0 :: (chars <$> srest) ++ [g ++ [c]])
          with ((chars s0 :: (chars <$> srest)) ++ [g ++ [c]]).
        by rewrite PathFacts.joinWith_snoc.
      + by apply plain_names.
      + by apply filter_names.
    - exists ((chars <$> srest) ++ [[]]). split_and!.
      + rewrite QuoteFacts.chars_app, chars_slashed, fmap_cons.
        change (chars s0 :: ((chars <$> srest) ++ [[]]) ++ [g ++ [c]])
          with (((chars s0 :: (chars <$> srest)) ++ [[]]) ++ [g ++ [c]]).
        rewrite !PathFacts.joinWith_snoc by (by destruct srest).
        by rewrite app_nil_r.
      + apply Forall_app. split; [by apply plain_names|].
        constructor; [|constructor]. unfold plainSegment.
        split_and!; [apply not_elem_of_nil|done..].
      + rewrite filter_app, filter_names by done.
        rewrite filter_cons_False by (intros ?; done).
        by rewrite filter_nil, app_nil_r. }
  rewrite PathFacts.normalize_plain.
  - rewrite filter_cons_True by done.
    rewrite filter_app, Hfil.
    rewrite filter_cons_True by (by destruct g). rewrite filter_nil.
    by rewrite fmap_app, <- Ef.
  - done.
  - constructor; [done|]. apply Forall_app. split; [done|].
    constructor; [|constructor]. by rewrite <- Ef.
Qed.

Lemma rooted_entry d segs f :
  rooted d segs → entryName f → rooted (Path.join d f) (segs ++ [f]).
Proof.
  intros Hd Hf. rewrite (join_entry d segs f Hd Hf).
  destruct Hd as (Hne & Hsegs & _). split_and!.
  - by destruct segs.
  - apply Forall_app. split; [done|]. by constructor.
  - by left.
Qed.

(** Distinct lists of names are distinct paths. *)
Lemma slashed_inj l l' :
  Forall entryName l → Forall entryName l' → l ≠ [] → l' ≠ [] →
  slashed l = slashed l' → l = l'.
Proof.
  intros Hl Hl' Hne Hne' E. apply (f_equal chars) in E.
  rewrite !chars_slashed in E.
  apply (f_equal (splitSlash [])) in E.
  destruct l as [|a l], l' as [|a' l']; try done.
  rewrite !fmap_cons in E.
  rewrite !PathFacts.splitSlash_joinWith in E.
  - cbn [rev app] in E. rewrite <- !fmap_cons in E.
    revert E. generalize (a :: l) (a' :: l'). clear.
    intros m. induction m as [|x m IH]; intros [|y m']; try done.
    rewrite !fmap_cons. intros [= Hx Hr]. f_equal; [by apply chars_inj|].
    by apply IH.
  - rewrite <- fmap_cons. eapply Forall_impl; [apply plain_names, Hl'|].
    by intros q (? & _).
  - rewrite <- fmap_cons. eapply Forall_impl; [apply plain_names, Hl|].
    by intros q (? & _).
Qed.

Lemma elem_of_filesOf vs p :
  p ∈ filesOf vs ↔ ∃ v, v ∈ vs ∧ fullpath v = p ∧ isDirectory v = false.
Proof.
  unfold filesOf. rewrite list_elem_of_In, in_map_iff. split.
  - intros (v & <- & [Hv Hf]%filter_In). exists v.
    split_and!; [by apply list_elem_of_In|done|].
    unfold isFile in Hf. by apply negb_true_iff in Hf.
  - intros (v & Hv & <- & Hd). exists v. split; [done|].
    apply filter_In. split; [by apply list_elem_of_In|].
    unfold isFile. by rewrite Hd.
Qed.

Lemma NoDup_filesOf vs : NoDup (fullpath <$> vs) → NoDup (filesOf vs).
Proof.
  induction vs as [|v vs IH]; [done|].
  rewrite fmap_cons, NoDup_cons. intros [Hv Hvs].
  unfold filesOf. cbn [List.filter]. destruct (isFile v); [|by apply IH].
  cbn [map]. apply NoDup_cons. split; [|by apply IH].
  intros (v' & Hv' & E & _)%elem_of_filesOf. apply Hv.
  rewrite <- E. by apply list_elem_of_fmap_2.
Qed.

Section Walk.

Context (readdir : string → option (list string)) (stat : string → option bool)
        (inherited : string → bool) (ignore : list string).

Abbreviation walk := (iterFS readdir stat inherited ignore).
Abbreviation entry := (visitEntry readdir stat inherited ignore).

Lemma iterFS_entries fuel d :
  walk (S fuel) d
  = match readdir d with
    | None => ([], Rejected)
    | Some names =>
        (concat (map fst (map (entry fuel d) names)),
         concatAll (map snd (map (entry fuel d) names)))
    end.
Proof. reflexivity. Qed.

Abbreviation below := (below readdir stat inherited ignore).

Lemma entry_below fuel d segs f :
  below fuel → rooted d segs → entryName f →
  (∀ v, v ∈ (entry fuel d f).1 →
     ∃ rest, Forall entryName rest
             ∧ fullpath v = slashed (segs ++ f :: rest))
  ∧ NoDup (fullpath <$> (entry fuel d f).1).
Proof.
  intros IH Hd Hf. unfold visitEntry.
  pose proof (rooted_entry d segs f Hd Hf) as Hr.
  pose proof (join_entry d segs f Hd Hf) as J.
  destruct (stat (Path.join d f)) as [[|]|].
  - destruct (IH _ _ Hr) as [Hin Hnd].
    destruct (walk fuel (Path.join d f)) as [vs r]. cbn [fst] in *.
    split.
    + intros v [->|Hv]%elem_of_cons.
      * exists []. split; [constructor|]. by rewrite J.
      * destruct (Hin v Hv) as (more & _ & Hm & ->). exists more.
        split; [done|]. by rewrite <- app_assoc.
    + rewrite fmap_cons. apply NoDup_cons. split; [|done]. cbn [fullpath].
      intros (v & E & Hv)%list_elem_of_fmap.
      destruct (Hin v Hv) as (more & Hne & Hm & E').
      rewrite J, E' in E. destruct Hd as (Hsne & Hs & _).
      apply slashed_inj in E.
      * rewrite <- (app_nil_r (segs ++ [f])) in E at 1.
        by apply app_inv_head in E.
      * apply Forall_app. split; [done|]. by constructor.
      * apply Forall_app. split; [|done]. apply Forall_app.
        split; [done|]. by constructor.
      * by destruct segs.
      * by destruct segs.
  - split.
    + intros v ->%list_elem_of_singleton. exists []. split; [constructor|].
      by rewrite J.
    + apply NoDup_singleton.
  - split; [by intros v ?%elem_of_nil|constructor].
Qed.

Lemma names_below fuel d segs names :
  below fuel → rooted d segs → Forall entryName names → NoDup names →
  (∀ v, v ∈ concat (map fst (map (entry fuel d) names)) →
     ∃ f rest, f ∈ names ∧ Forall entryName rest
               ∧ fullpath v = slashed (segs ++ f :: rest))
  ∧ NoDup (fullpath <$> concat (map fst (map (entry fuel d) names))).
Proof.
  intros IH Hd Hn ND. induction Hn as [|f names Hf Hn IHn].
  - split; [by intros v ?%elem_of_nil|constructor].
  - apply NoDup_cons in ND as [Hfn ND].
    destruct (IHn ND) as [Hin Hnd].
    destruct (entry_below fuel d segs f IH Hd Hf) as [Hin' Hnd'].
    cbn [map concat]. split.
    + intros v [Hv|Hv]%elem_of_app.
      * destruct (Hin' v Hv) as (rest & Hr & E). exists f, rest.
        split_and!; [by left|done..].
      * destruct (Hin v Hv) as (f' & rest & Hf' & Hr & E). exists f', rest.
        split_and!; [by right|done..].
    + rewrite fmap_app. apply NoDup_app. split_and!; [done| |done].
      intros p (v & -> & Hv)%list_elem_of_fmap (v' & E & Hv')%list_elem_of_fmap.
      destruct (Hin' v Hv) as (rest & Hr & E1).
      destruct (Hin v' Hv') as (f' & rest' & Hf' & Hr' & E2).
      rewrite E1, E2 in E. destruct Hd as (Hsne & Hs & _).
      apply slashed_inj in E.
      * apply app_inv_head in E. injection E as -> _. done.
      * apply Forall_app. split; [done|]. constructor; [done|done].
      * apply Forall_app. split; [done|]. constructor; [|done].
        rewrite Forall_forall in Hn. by apply Hn.
      * by destruct segs.
      * by destruct segs.
Qed.

Hypothesis names_ok :
  ∀ d names, readdir d = Some names → Forall entryName names ∧ NoDup names.

Lemma walk_below fuel : below fuel.
Proof.
  induction fuel as [|fuel IH]; intros d segs Hd.
  - split; [by intros v ?%elem_of_nil|constructor].
  - rewrite iterFS_entries. destruct (readdir d) as [names|] eqn:R.
    + destruct (names_ok d names R) as [Hn ND].
      destruct (names_below fuel d segs names IH Hd Hn ND) as [Hin Hnd].
      cbn [fst]. split; [|done]. intros v Hv.
      destruct (Hin v Hv) as (f & rest & Hf & Hr & E).
      exists (f :: rest). split_and!; [done| |done].
      constructor; [|done]. rewrite Forall_forall in Hn. by apply Hn.
    + split; [by intros v ?%elem_of_nil|constructor].
Qed.

Lemma all_files (rs : list walked) paths :
  concatAll rs = Files paths → ∀ r, r ∈ rs → ∃ p, r = Files p.
Proof.
  unfold concatAll. intros (a & ps & _ & F & _)%WalkerFacts.concatAll_from.
  induction F as [|r p rs ps Hr _ IH]; intros r' Hin.
  - by apply elem_of_nil in Hin.
  - apply elem_of_cons in Hin as [->|Hin]; [eauto|by apply IH].
Qed.

Lemma walk_readable fuel : ∀ d paths,
  (walk fuel d).2 = Files paths →
  readable readdir stat d
  ∧ ∀ v, v ∈ (walk fuel d).1 → isDirectory v = true →
         readable readdir stat (fullpath v).
Proof.
  induction fuel as [|fuel IH]; intros d paths; [done|].
  rewrite iterFS_entries. destruct (readdir d) as [names|] eqn:R; [|done].
  cbn [fst snd]. intros H.
  assert (∀ f, f ∈ names → ∃ p, (entry fuel d f).2 = Files p) as Hall.
  { intros f Hf. apply (all_files _ _ H).
    apply list_elem_of_In, in_map, in_map. by apply list_elem_of_In. }
  split.
  - exists names. split; [done|]. intros f Hf.
    destruct (Hall f Hf) as [p Hp]. unfold visitEntry in Hp.
    by destruct (stat (Path.join d f)).
  - intros v Hv Hdir.
    apply list_elem_of_In, in_concat in Hv as (vs & Hvs & Hv).
    rewrite map_map, in_map_iff in Hvs. destruct Hvs as (f & <- & Hf).
    apply list_elem_of_In in Hf. destruct (Hall f Hf) as [p Hp].
    unfold visitEntry in Hp, Hv.
    destruct (stat (Path.join d f)) as [[|]|]; [| |done].
    + specialize (IH (Path.join d f)).
      destruct (walk fuel (Path.join d f)) as [vs r]. cbn [fst snd] in *.
      destruct (IH p Hp) as [H1 H2].
      destruct Hv as [<-|Hv]; [done|]. apply H2; [|done].
      by apply list_elem_of_In.
    + destruct Hv as [<-|[]]. done.
Qed.

End Walk.

End WalkFacts.

(** The files of the walk of [dist/] are distinct, and each lies below
    [dist/]. *)
Lemma walk_files (readdir : string → option (list string))
    (stat : string → option bool) (inherited : string → bool)
    (ignore : list string) (fuel : nat) (paths : list string) :
  (∀ d names, readdir d = Some names → Forall entryName names ∧ NoDup names) →
  (Walker.iterFS readdir stat inherited ignore fuel distDir).2
  = Walker.Files paths →
  NoDup paths
  ∧ ∀ p, p ∈ paths →
         ∃ names, names ≠ [] ∧ Forall entryName names
                  ∧ p = (distDir ++ slashed names)%string.
Proof.
  intros Hok Hw.
  assert (entryName "dist") as Hdist.
  { unfold entryName. split_and!; [done|by_compute|done..]. }
  assert (rooted distDir ["dist"]) as Hroot.
  { split_and!; [done|by constructor|by right]. }
  destruct (WalkFacts.walk_below readdir stat inherited ignore Hok fuel
              distDir ["dist"] Hroot) as [Hin Hnd].
  pose proof (WalkerFacts.iterFS_files readdir stat inherited ignore fuel
                distDir paths Hw) as ->.
  split; [by apply WalkFacts.NoDup_filesOf|].
  intros p (v & Hv & <- & _)%WalkFacts.elem_of_filesOf.
  destruct (Hin v Hv) as (more & Hne & Hm & ->). exists more.
  split_and!; [done..|]. unfold slashed.
  destruct more as [|m more]; [done|].
  change (Path.joinWith ["/"%char] (chars <$> ["dist"] ++ m :: more))
    with (chars distDir
          ++ Path.joinWith ["/"%char] (chars <$> m :: more)).
  by rewrite str_app.
Qed.

Lemma relative_under r : relative (distDir ++ r) = r.
Proof. done. Qed.

Lemma NoDup_relative (paths : list string) :
  (∀ p, p ∈ paths → ∃ r, p = (distDir ++ r)%string) →
  NoDup paths → NoDup (relative <$> paths).
Proof.
  intros Hp. apply NoDup_fmap_2_strong.
  intros p q (r1 & ->)%Hp (r2 & ->)%Hp. rewrite !relative_under.
  by intros ->.
Qed.

(** X13. The walk of [dist/] gives the keys of the run: when every
    directory listing holds distinct names (not empty, without separator,
    none of [.] and [..]), the paths the walk resolves with are distinct;
    each is [dist/] followed by the names that lead to the file, written
    with separators, so that line 141 gives that relative path as the
    key and line 143 reads the very file the walk found; and the keys are
    distinct. *)
Theorem iterFS_paths_are_keys (readdir : string → option (list string))
    (stat : string → option bool) (inherited : string → bool)
    (ignore : list string) (fuel : nat) (paths : list string) :
  (∀ d names, readdir d = Some names → Forall entryName names ∧ NoDup names) →
  (Walker.iterFS readdir stat inherited ignore fuel distDir).2
  = Walker.Files paths →
  NoDup paths
  ∧ NoDup (relative <$> paths)
  ∧ ∀ p, p ∈ paths →
      (distDir ++ relative p)%string = p
      ∧ ∃ names, names ≠ [] ∧ Forall entryName names
                 ∧ relative p = slashed names.
Proof.
  intros Hok Hw.
  destruct (walk_files readdir stat inherited ignore fuel paths Hok Hw)
    as [Hnd Hp].
  split_and!; [done| |].
  - apply NoDup_relative; [|done].
    intros p (names & _ & _ & ->)%Hp. eauto.
  - intros p (names & Hne & Hn & ->)%Hp. rewrite relative_under. eauto.
Qed.

(** The tree [dist/index.html], [dist/css/site.css]. *)
Lemma iterFS_paths_are_keys_witness :
  NoDup (relative <$> ["dist/index.html"; "dist/css/site.css"])
  ∧ (distDir ++ relative "dist/css/site.css")%string = "dist/css/site.css".
Proof.
  destruct (iterFS_paths_are_keys Sample.readdir Sample.stat (λ _, false) []
              4 ["dist/index.html"; "dist/css/site.css"]) as (_ & H2 & H3).
  - intros d names. unfold Sample.readdir.
    assert (∀ f, f = "index.html" ∨ f = "css" ∨ f = "site.css" →
                 entryName f) as He.
    { intros f [->|[->| ->]]; (split_and!; [done|by_compute|done..]). }
    repeat case_match; intros [= <-]; (split; [|by_compute]);
      repeat constructor; apply He; auto.
  - vm_compute. reflexivity.
  - split; [exact H2|]. apply H3. by_compute.
Defined.

(** X14. The walk succeeds as a whole or not at all: when it resolves,
    the directory and every directory visited below it could be listed,
    and every entry of each could be examined; a single listing or
    [stat] that fails rejects the promise of the walk.  A directory that
    cannot be listed rejects; an empty directory gives the empty list. *)
Theorem iterFS_all_or_nothing (readdir : string → option (list string))
    (stat : string → option bool) (inherited : string → bool)
    (ignore : list string) (fuel : nat) (d : string) :
  (∀ paths,
     (Walker.iterFS readdir stat inherited ignore fuel d).2
     = Walker.Files paths →
     readable readdir stat d
     ∧ ∀ v, v ∈ (Walker.iterFS readdir stat inherited ignore fuel d).1 →
            Walker.isDirectory v = true →
            readable readdir stat (Walker.fullpath v))
  ∧ (readdir d = None →
     Walker.iterFS readdir stat inherited ignore (S fuel) d
     = ([], Walker.Rejected))
  ∧ (readdir d = Some [] →
     Walker.iterFS readdir stat inherited ignore (S fuel) d
     = ([], Walker.Files [])).
Proof.
  split_and!.
  - apply WalkFacts.walk_readable.
  - intros R. rewrite WalkFacts.iterFS_entries. by rewrite R.
  - intros R. rewrite WalkFacts.iterFS_entries. by rewrite R.
Qed.

(** A tree with an entry that cannot be examined: the walk is rejected,
    and the file next to it was visited all the same. *)
Example iterFS_one_failure_rejects :
  Walker.iterFS Sample.readdir Sample.statBroken (λ _, false) [] 4 distDir
  = ([ {| Walker.fullpath := "dist/index.html"; Walker.isDirectory := false;
          Walker.logged := false |};
       {| Walker.fullpath := "dist/css"; Walker.isDirectory := true;
          Walker.logged := false |} ],
     Walker.Rejected).
Proof. vm_compute. reflexivity. Qed.

(** ** The test of line 114 *)

Module IgnoreFacts.

Import Walker.





Section Walk.

Context (readdir : string → option (list string)) (stat : string → option bool)
        (inherited : string → bool) (ignore : list string).

Abbreviation walk := (iterFS readdir stat inherited ignore).
Abbreviation entry := (visitEntry readdir stat inherited ignore).




End Walk.

End IgnoreFacts.


(** ** Every run can be completed *)

Section Completion.

Context (coerceEq : json → string → option bool)
        (readFile : string → option (list byte))
        (s3Files : list RemoteObject) (localFiles : list string)
        (b0 : gmap string (option string)).

Abbreviation Inv := (inv readFile s3Files localFiles b0).
Abbreviation atomic := (atomic coerceEq readFile).
Abbreviation reaches := (reaches coerceEq readFile).
Abbreviation step := (step coerceEq readFile).
Abbreviation theRun := (run coerceEq readFile s3Files localFiles b0).

(** *** Where a pending operation comes from *)

Lemma reading_before_atomic s s' i x :
  atomic s s' → tasks s' !! i = Some (Task x Reading) →
  tasks s !! i = Some (Task x Reading).
Proof.
  intros A.
  assert (∀ j y st2 (s2 : state),
            st2 ≠ Reading →
            tasks s2 = <[j := Task y st2]> (tasks s) →
            tasks s2 !! i = Some (Task x Reading) →
            tasks s !! i = Some (Task x Reading)) as Hins.
  { intros j y st2 s2 Hst -> [(_ & [= _ E] & _)|[_ H]]%list_lookup_insert_Some;
      [by destruct Hst|done]. }
  destruct A as [j y s Hj R|j y data s Hj R V|j y data s Hj R V
                |j y data s Hj R V|j y data s Hj|j y data s Hj
                |j k ds s D Hj|j k ds s D Hj|s C D Hall|ds s C D Hall];
    unfold onPut; cbv iota; rewrite ?tasks_reject; try done;
    try (by eapply Hins; [|reflexivity]).
  unfold afterUploads. by destruct (Dict.keys (s3Map s)).
Qed.

Lemma reading_before s s' i x :
  reaches s s' → tasks s' !! i = Some (Task x Reading) →
  tasks s !! i = Some (Task x Reading).
Proof.
  intros R. induction R as [|s2 s3 R IH A]; [done|].
  intros H. by eapply IH, reading_before_atomic.
Qed.

Lemma putting_before_atomic s s' i x d :
  atomic s s' → tasks s' !! i = Some (Task x (Putting d)) →
  tasks s !! i = Some (Task x (Putting d))
  ∨ tasks s !! i = Some (Task x Reading).
Proof.
  intros A.
  assert (∀ j y st1 st2 (s2 : state),
            tasks s !! j = Some (Task y st1) →
            (st2 = Putting d → st1 = Reading) →
            tasks s2 = <[j := Task y st2]> (tasks s) →
            tasks s2 !! i = Some (Task x (Putting d)) →
            tasks s !! i = Some (Task x (Putting d))
            ∨ tasks s !! i = Some (Task x Reading)) as Hins.
  { intros j y st1 st2 s2 Hj Hst ->
      [(<- & [= <- E] & _)|[_ H]]%list_lookup_insert_Some; [|by left].
    right. rewrite Hj. by rewrite (Hst E). }
  destruct A as [j y s Hj R|j y data s Hj R V|j y data s Hj R V
                |j y data s Hj R V|j y data s Hj|j y data s Hj
                |j k ds s D Hj|j k ds s D Hj|s C D Hall|ds s C D Hall];
    unfold onPut; cbv iota; rewrite ?tasks_reject; try (by left);
    try (by eapply Hins; [exact Hj| |reflexivity]).
  unfold afterUploads. destruct (Dict.keys (s3Map s)); by left.
Qed.

Lemma putting_before s s' i x d :
  reaches s s' → tasks s' !! i = Some (Task x (Putting d)) →
  tasks s !! i = Some (Task x (Putting d))
  ∨ tasks s !! i = Some (Task x Reading).
Proof.
  intros R. induction R as [|s2 s3 R IH A]; [by left|].
  intros [H|H]%(putting_before_atomic _ _ _ _ _ A); [by apply IH|].
  right. by eapply reading_before.
Qed.

Lemma deletes_none_before_atomic s s' :
  atomic s s' → deletes s' = None → deletes s = None.
Proof.
  intros A.
  destruct A as [i y s Hi R|i y data s Hi R V|i y data s Hi R V
                |i y data s Hi R V|i y data s Hi|i y data s Hi
                |j' k' ds s D Hj|j' k' ds s D Hj|s C D Hall|ds s C D Hall];
    unfold onPut; cbv iota; rewrite ?deletes_reject; try done.
Qed.

Lemma deletes_none_before s s' :
  reaches s s' → deletes s' = None → deletes s = None.
Proof.
  intros R. induction R as [|s2 s3 R IH A]; [done|].
  intros H. by eapply IH, deletes_none_before_atomic.
Qed.

Lemma deleting_before_atomic s s' j k ds' :
  atomic s s' → deletes s' = Some ds' → ds' !! j = Some (k, Deleting) →
  (∃ ds, deletes s = Some ds ∧ ds !! j = Some (k, Deleting))
  ∨ deletes s = None.
Proof.
  intros A.
  destruct A as [i y s Hi R|i y data s Hi R V|i y data s Hi R V
                |i y data s Hi R V|i y data s Hi|i y data s Hi
                |j' k' ds s D Hj|j' k' ds s D Hj|s C D Hall|ds s C D Hall];
    unfold onPut; cbv iota; rewrite ?deletes_reject;
    try (intros D' H; left; by eauto).
  - intros [= <-] [(_ & [=] & _)|[_ H]]%list_lookup_insert_Some.
    left. eauto.
  - intros [= <-] [(_ & [=] & _)|[_ H]]%list_lookup_insert_Some.
    left. eauto.
  - intros _ _. by right.
Qed.

Lemma deleting_before s s' j k ds' :
  reaches s s' → deletes s' = Some ds' → ds' !! j = Some (k, Deleting) →
  (∃ ds, deletes s = Some ds ∧ ds !! j = Some (k, Deleting))
  ∨ deletes s = None.
Proof.
  intros R. revert ds'. induction R as [|s2 s3 R IH A]; intros ds' D H.
  - left. eauto.
  - destruct (deleting_before_atomic _ _ _ _ _ A D H) as [(ds & D2 & H2)|D2].
    + by eapply IH.
    + right. by eapply deletes_none_before.
Qed.

(** *** What a completion achieves *)

Lemma deletes_settle s ds :
  deletes s = Some ds → deletes (settle s) = Some ds.
Proof.
  intros D. unfold settle. rewrite D. by repeat case_match.
Qed.

Lemma put_completes s i x d :
  tasks s !! i = Some (Task x (Putting d)) →
  tasks (step s (PutDone i true)) !! i = Some (Task x Uploaded).
Proof.
  intros Hi. simpl. rewrite Hi, tasks_settle. simpl.
  apply list_lookup_insert_eq. by eapply lookup_lt_Some.
Qed.

Lemma delete_completes s j k ds :
  deletes s = Some ds → ds !! j = Some (k, Deleting) →
  ∃ ds', deletes (step s (DeleteDone j true)) = Some ds'
         ∧ ds' !! j = Some (k, Deleted).
Proof.
  intros D Hj. simpl. rewrite D. simpl. rewrite Hj.
  unfold onDelete. rewrite D. eexists. split.
  - by apply deletes_settle.
  - apply list_lookup_insert_eq. by eapply lookup_lt_Some.
Qed.

Lemma length_tasks sched : length (tasks (theRun sched)) = length localFiles.
Proof.
  pose proof (inv_run coerceEq readFile s3Files localFiles b0 sched) as I.
  rewrite <- (length_fmap path), (inv_paths _ _ _ _ _ I).
  by rewrite length_fmap.
Qed.

Lemma length_deletes sched ds :
  deletes (theRun sched) = Some ds → (length ds ≤ length s3Files)%nat.
Proof.
  pose proof (inv_run coerceEq readFile s3Files localFiles b0 sched) as I.
  intros D. destruct (inv_deletes _ _ _ _ _ I ds D) as [_ E].
  rewrite <- (length_fmap fst), E, <- (length_fmap Key s3Files).
  apply submseteq_length, NoDup_submseteq; [apply DictFacts.NoDup_keys|].
  intros k Hk.
  apply (keys_left coerceEq readFile s3Files localFiles b0 sched) in Hk.
  by destruct Hk.
Qed.

Lemma reads_done k : ∀ sched i x,
  (i < k)%nat →
  tasks (theRun (sched ++ (ReadDone <$> seq 0 k))) !! i
  ≠ Some (Task x Reading).
Proof.
  induction k as [|k IH]; intros sched i x Hi; [lia|].
  rewrite seq_S, fmap_app, app_assoc. cbn [fmap list_fmap Nat.add].
  rewrite (run_snoc coerceEq readFile s3Files localFiles b0).
  set (s := theRun (sched ++ (ReadDone <$> seq 0 k))) in *.
  intros H.
  pose proof (reading_before _ _ _ _ (step_reaches coerceEq readFile s _) H)
    as Hs.
  destruct (decide (i = k)) as [->|Hne].
  - destruct (read_completes coerceEq readFile s k x Hs) as (st & Hst & Hr).
    rewrite H in Hst. by injection Hst as <-.
  - apply (IH sched i x); [lia|done].
Qed.

Lemma no_reading_later sched more :
  (∀ i x, tasks (theRun sched) !! i ≠ Some (Task x Reading)) →
  ∀ i x, tasks (theRun (sched ++ more)) !! i ≠ Some (Task x Reading).
Proof.
  intros H i x Hi. apply (H i x).
  eapply reading_before; [|exact Hi]. apply run_continues.
Qed.

Lemma no_putting_later sched more :
  (∀ i x, tasks (theRun sched) !! i ≠ Some (Task x Reading)) →
  (∀ i x d, tasks (theRun sched) !! i ≠ Some (Task x (Putting d))) →
  ∀ i x d, tasks (theRun (sched ++ more)) !! i ≠ Some (Task x (Putting d)).
Proof.
  intros Hr Hp i x d Hi.
  destruct (putting_before _ _ i x d
              (run_continues coerceEq readFile s3Files localFiles b0 sched more)
              Hi) as [H|H]; [by apply (Hp i x d)|by apply (Hr i x)].
Qed.

Lemma puts_done k : ∀ sched i x d,
  (∀ i x, tasks (theRun sched) !! i ≠ Some (Task x Reading)) →
  (i < k)%nat →
  tasks (theRun (sched ++ ((λ i, PutDone i true) <$> seq 0 k))) !! i
  ≠ Some (Task x (Putting d)).
Proof.
  induction k as [|k IH]; intros sched i x d Hr Hi; [lia|].
  rewrite seq_S, fmap_app, app_assoc. cbn [fmap list_fmap Nat.add].
  rewrite (run_snoc coerceEq readFile s3Files localFiles b0).
  pose proof (no_reading_later sched ((λ i, PutDone i true) <$> seq 0 k) Hr)
    as Hr'.
  set (s := theRun (sched ++ ((λ i, PutDone i true) <$> seq 0 k))) in *.
  intros H.
  destruct (putting_before _ _ _ _ _
              (step_reaches coerceEq readFile s _) H) as [Hs|Hs];
    [|by apply (Hr' i x)].
  destruct (decide (i = k)) as [->|Hne].
  - pose proof (put_completes s k x d Hs) as Hc. congruence.
  - apply (IH sched i x d); [done|lia|done].
Qed.

Lemma dels_done k : ∀ sched j key ds,
  (j < k)%nat →
  deletes (theRun (sched ++ ((λ j, DeleteDone j true) <$> seq 0 k))) = Some ds →
  ds !! j ≠ Some (key, Deleting).
Proof.
  induction k as [|k IH]; intros sched j key ds Hj; [lia|].
  rewrite seq_S, fmap_app, app_assoc. cbn [fmap list_fmap Nat.add].
  rewrite (run_snoc coerceEq readFile s3Files localFiles b0).
  set (s := theRun (sched ++ ((λ j, DeleteDone j true) <$> seq 0 k))) in *.
  intros D H.
  destruct (deleting_before _ _ _ _ _
              (step_reaches coerceEq readFile s _) D H) as [(ds0 & D0 & H0)|D0].
  - destruct (decide (j = k)) as [->|Hne].
    + destruct (delete_completes s k key ds0 D0 H0) as (ds' & D' & H').
      rewrite D in D'. injection D' as <-. congruence.
    + apply (IH sched j key ds0); [lia|done..].
  - assert (step s (DeleteDone k true) = s) as E.
    { unfold step. by rewrite D0. }
    rewrite E in D. congruence.
Qed.

(** After the draining schedule nothing is in flight. *)
Lemma drained sched :
  ¬ inFlight (theRun (sched ++ drain (length localFiles) (length s3Files))).
Proof.
  unfold drain. rewrite !app_assoc.
  set (A := sched ++ (ReadDone <$> seq 0 (length localFiles))).
  set (B := A ++ ((λ i, PutDone i true) <$> seq 0 (length localFiles))).
  assert (∀ i x, tasks (theRun A) !! i ≠ Some (Task x Reading)) as HA.
  { intros i x Hi. apply (reads_done (length localFiles) sched i x); [|done].
    rewrite <- (length_tasks A). by eapply lookup_lt_Some. }
  pose proof (no_reading_later A _ HA : ∀ i x,
                tasks (theRun B) !! i ≠ Some (Task x Reading)) as HB.
  assert (∀ i x d, tasks (theRun B) !! i ≠ Some (Task x (Putting d))) as HB'.
  { intros i x d Hi.
    apply (puts_done (length localFiles) A i x d HA); [|done].
    rewrite <- (length_tasks B). by eapply lookup_lt_Some. }
  intros [(i & x & Hi)|[(i & x & d & Hi)|(ds & j & k & D & Hj)]].
  - by eapply (no_reading_later B _ HB i x).
  - by eapply (no_putting_later B _ HB HB' i x d).
  - apply (dels_done (length s3Files) B j k ds); [|done..].
    apply (Nat.lt_le_trans _ (length ds)); [by eapply lookup_lt_Some|].
    by eapply length_deletes.
Qed.

(** *** Runs without failure *)

Lemma failure_settle s : hasFailure (settle s) → hasFailure s.
Proof.
  unfold settle, afterUploads.
  destruct (chain s); [|done..].
  destruct (deletes s) as [ds|] eqn:D.
  - destruct (forallb isDeleted ds); [|done].
    intros [H|(ds' & j & k & D' & Hj)]; [by left|].
    right. simpl in D'. rewrite D in D'. injection D' as <-. eauto 10.
  - destruct (forallb resolved (tasks s)); [|done].
    destruct (Dict.keys (s3Map s)) as [|k0 ks].
    + intros [H|(ds' & j & k & D' & Hj)]; [by left|].
      simpl in D'. congruence.
    + remember (k0 :: ks) as E.
      intros [H|(ds' & j & k & D' & Hj)]; [by left|].
      cbn [deletes setDeletes] in D'. injection D' as <-.
      by apply list_lookup_fmap_Some in Hj as (? & [=] & _).
Qed.

Lemma looked_up_listed l k o : Dict.lookup (s3MapOf l) k = Some o → o ∈ l.
Proof.
  induction l as [|o' l IH] using rev_ind.
  - unfold Dict.lookup. simpl. rewrite lookup_empty. by case_decide.
  - rewrite DictFacts.s3MapOf_snoc,
      DictFacts.lookup_set by apply DictFacts.wf_s3MapOf.
    rewrite elem_of_app, list_elem_of_singleton.
    case_decide; [intros [= ->]; by right|intros L; left; by apply IH].
Qed.

Lemma etagAt_is_listed s x e :
  Inv s → etagAt (s3Map s) x = Some e →
  ∃ o, o ∈ s3Files ∧ ETag o = Some e.
Proof.
  intros I. unfold etagAt.
  destruct (Dict.lookup (s3Map s) x) as [o|] eqn:L; [|done].
  simpl. intros E. exists o. split; [|done].
  apply (looked_up_listed s3Files x). revert L. unfold Dict.lookup.
  rewrite (inv_own _ _ _ _ _ I), (inv_proto _ _ _ _ _ I).
  case_decide; [|done]. case_decide as Hp; [|done]. subst x.
  by rewrite (DictFacts.wf_s3MapOf s3Files).
Qed.

Hypothesis can_read :
  ∀ f, f ∈ localFiles → is_Some (readFile (distDir ++ relative f)).
Hypothesis quoted :
  ∀ o e, o ∈ s3Files → ETag o = Some e →
         ∃ u, JSON.parse e = Some (JString u).

Lemma never_throws s x data :
  Inv s → compare coerceEq (etagAt (s3Map s) x) data ≠ Throw.
Proof.
  intros I. unfold compare, s3hashOf.
  destruct (etagAt (s3Map s) x) as [e|] eqn:E; [|done].
  destruct (etagAt_is_listed s x e I E) as (o & Ho & He).
  destruct (quoted o e Ho He) as [u ->]. simpl. by case_bool_decide.
Qed.

Lemma step_no_failure s c :
  Inv s → succeeds c → ¬ hasFailure s → ¬ hasFailure (step s c).
Proof.
  intros I Hc Hnf. destruct c as [i|i ok|j ok]; simpl in *.
  - destruct (tasks s !! i) as [[x []]|] eqn:T; try done.
    intros F%failure_settle. apply Hnf. revert F. unfold onRead.
    assert (x ∈ relative <$> localFiles) as Hx.
    { rewrite <- (inv_paths _ _ _ _ _ I). apply list_elem_of_fmap.
      exists (Task x Reading). split; [done|].
      apply list_elem_of_lookup. eauto. }
    apply list_elem_of_fmap in Hx as (f & -> & Hf).
    destruct (can_read f Hf) as [data ->].
    pose proof (never_throws s (relative f) data I) as Hnt.
    destruct (compare _ _ _); [| |done].
    + by apply (failure_insert s _ i (relative f) Skipped).
    + by apply (failure_insert s _ i (relative f) (Putting data)).
  - destruct (tasks s !! i) as [[x []]|] eqn:T; try done.
    intros F%failure_settle. apply Hnf. revert F. subst ok. simpl.
    by apply (failure_insert s _ i x Uploaded).
  - destruct (deletes s) as [ds|] eqn:D; simpl; [|done].
    destruct (ds !! j) as [[k []]|] eqn:J; try done.
    intros F%failure_settle. apply Hnf. revert F. subst ok.
    unfold onDelete. rewrite D.
    intros [(i & y & why & Hi)|(ds' & j' & k' & [= <-] & Hj')].
    + left. eauto.
    + right. exists ds, j', k'. split; [done|].
      apply list_lookup_insert_Some in Hj' as [(_ & [=] & _)|[_ ?]]; done.
Qed.

Lemma no_failure_run sched :
  Forall succeeds sched → ¬ hasFailure (theRun sched).
Proof.
  induction sched as [|c sched IH] using rev_ind; intros H.
  - unfold run. simpl. intros F%failure_settle.
    destruct F as [(i & x & why & Hi)|(ds & j & k & [=] & _)].
    simpl in Hi. by apply list_lookup_fmap_Some in Hi as (f & [=] & _).
  - apply Forall_app in H as [Hs Hc]. inversion Hc; subst.
    rewrite run_app. simpl. apply step_no_failure; [|done|by apply IH].
    apply inv_run.
Qed.

Lemma drain_succeeds n m : Forall succeeds (drain n m).
Proof.
  unfold drain. rewrite !Forall_app, !Forall_fmap.
  split_and!; by apply Forall_true.
Qed.

End Completion.

(** X15. Every run can be completed.  Whatever has completed so far, once
    every read has completed and every put and every delete has
    succeeded, nothing is in flight and the chain has settled.  When
    every local file can be read and every listed etag is a JSON string,
    as S3 reports etags, the run in which every request succeeds is
    fulfilled: it prints 'Done.'. *)
Theorem run_can_complete (coerceEq : json → string → option bool)
    (readFile : string → option (list byte))
    (s3Files : list RemoteObject) (localFiles : list string)
    (b0 : gmap string (option string)) :
  (∀ sched,
     ¬ inFlight (run coerceEq readFile s3Files localFiles b0
                   (sched ++ drain (length localFiles) (length s3Files)))
     ∧ chain (run coerceEq readFile s3Files localFiles b0
                (sched ++ drain (length localFiles) (length s3Files)))
       ≠ Pending)
  ∧ ((∀ f : string, f ∈ localFiles →
        is_Some (readFile (distDir ++ relative f)%string)) →
     (∀ o e, o ∈ s3Files → ETag o = Some e →
             ∃ u, JSON.parse e = Some (JString u)) →
     chain (run coerceEq readFile s3Files localFiles b0
              (drain (length localFiles) (length s3Files))) = Fulfilled
     ∧ LogDone ∈ trace (run coerceEq readFile s3Files localFiles b0
                          (drain (length localFiles) (length s3Files)))).
Proof.
  split.
  - intros sched.
    pose proof (drained coerceEq readFile s3Files localFiles b0 sched) as H.
    split; [done|]. by apply idle_not_pending.
  - intros Hr Hq.
    pose proof (drained coerceEq readFile s3Files localFiles b0 []) as H.
    pose proof (idle_not_pending _ _ _ _ _ _ H) as Hp.
    pose proof (no_failure_run coerceEq readFile s3Files localFiles b0 Hr Hq
                  _ (drain_succeeds (length localFiles) (length s3Files)))
      as Hnf.
    rewrite <- rejected_iff_failure in Hnf. simpl in *.
    pose proof (orderly_run coerceEq readFile s3Files localFiles b0
                  (drain (length localFiles) (length s3Files))) as O.
    assert (chain (run coerceEq readFile s3Files localFiles b0
                     (drain (length localFiles) (length s3Files)))
            = Fulfilled) as C.
    { destruct (chain _); done. }
    split; [done|]. by apply (ord_done _ O).
Qed.

(** The scenario completes under the draining schedule. *)
Example scenario_completes :
  chain (run Scenario.coerceEq Scenario.readFile Scenario.s3Files
           Scenario.localFiles Scenario.bucket (drain 2 2)) = Fulfilled.
Proof. vm_compute. reflexivity. Qed.

(** ** From the listings to the bucket *)

(** X16. The deployment end to end.  Let the walk of [dist/] resolve, in a
    tree whose directory listings hold distinct names, and let S3 serve
    the listing of the bucket in pages.  Then the reconciliation runs on
    the objects of the pages and the files of the walk.  When it
    completes, the bucket mirrors the tree: the key of each file, its path
    below [dist/], holds an etag equal to the hash of the file, and no
    other key but [__proto__] holds an object.  And it can complete: when
    every file can be read and every listed etag is a JSON string, the
    schedule in which every request succeeds fulfils the chain. *)
Theorem deploy_end_to_end (coerceEq : json → string → option bool)
    (readFile : string → option (list byte))
    (listObjects : nat → option string → Lister.response)
    (readdir : string → option (list string)) (stat : string → option bool)
    (inherited : string → bool) (fuel : nat)
    (b0 : gmap string (option string))
    (ps : list Lister.page) (last : Lister.page) (paths : list string) :
  (∀ d names, readdir d = Some names → Forall entryName names ∧ NoDup names) →
  (Walker.iterFS readdir stat inherited [] fuel distDir).2
  = Walker.Files paths →
  serves listObjects 0 None (ps ++ [last]) →
  Forall continues ps → Lister.IsTruncated last = false →
  length ps < fuel →
  objectsOf (ps ++ [last]) ≡ₚ listing b0 →
  (∀ sched,
     main coerceEq readFile listObjects readdir stat inherited fuel b0 sched
     = Some (run coerceEq readFile (objectsOf (ps ++ [last])) paths b0 sched))
  ∧ (∀ sched s,
       main coerceEq readFile listObjects readdir stat inherited fuel b0 sched
       = Some s →
       chain s = Fulfilled →
       (∀ p, p ∈ paths →
          ∃ e data, bucket s !! relative p = Some (Some e)
                    ∧ readFile p = Some data
                    ∧ compare coerceEq (Some e) data = Skip)
       ∧ (∀ k, k ∉ relative <$> paths → k ≠ Dict.protoName →
               bucket s !! k = None))
  ∧ ((∀ p, p ∈ paths → is_Some (readFile p)) →
     (∀ o e, o ∈ objectsOf (ps ++ [last]) → ETag o = Some e →
             ∃ u, JSON.parse e = Some (JString u)) →
     ∃ sched s,
       main coerceEq readFile listObjects readdir stat inherited fuel b0 sched
       = Some s
       ∧ chain s = Fulfilled).
Proof.
  intros Hok Hw Sv F T L Hl.
  destruct (walk_files readdir stat inherited [] fuel paths Hok Hw)
    as [Hnd Hp].
  assert (∀ p, p ∈ paths → (distDir ++ relative p)%string = p) as Hback.
  { intros p (names & _ & _ & ->)%Hp. by rewrite relative_under. }
  assert (NoDup (relative <$> paths)) as Hkeys.
  { apply NoDup_relative; [|done]. intros p (names & _ & _ & ->)%Hp. eauto. }
  assert (∀ sched,
            main coerceEq readFile listObjects readdir stat inherited fuel b0
              sched
            = Some (run coerceEq readFile (objectsOf (ps ++ [last])) paths b0
                      sched)) as Hmain.
  { intros sched. unfold main.
    by rewrite (PagingFacts.iterS3_result listObjects ps last fuel Sv F T L),
      Hw. }
  split_and!; [done| |].
  - intros sched s. rewrite Hmain. intros [= <-] C.
    destruct (inSync_after_run coerceEq readFile paths Hkeys b0
                (objectsOf (ps ++ [last])) sched Hl C) as [H1 H2].
    split; [|done]. intros p Hin.
    destruct (H1 (relative p)) as (e & data & B & R & V).
    { by apply list_elem_of_fmap_2. }
    rewrite (Hback p Hin) in R. eauto.
  - intros Hr Hq.
    exists (drain (length paths) (length (objectsOf (ps ++ [last])))).
    eexists. split; [apply Hmain|].
    pose proof (drained coerceEq readFile (objectsOf (ps ++ [last])) paths b0
                  []) as H.
    pose proof (idle_not_pending _ _ _ _ _ _ H) as Hpend.
    assert (∀ f, f ∈ paths →
                 is_Some (readFile (distDir ++ relative f)%string)) as Hr'.
    { intros f Hf. rewrite (Hback f Hf). by apply Hr. }
    pose proof (no_failure_run coerceEq readFile (objectsOf (ps ++ [last]))
                  paths b0 Hr' Hq _
                  (drain_succeeds (length paths)
                     (length (objectsOf (ps ++ [last]))))) as Hnf.
    rewrite <- rejected_iff_failure in Hnf. simpl in *.
    destruct (chain _); done.
Qed.

(** The tree [dist/index.html], [dist/css/site.css] deployed to a bucket
    that holds [a], [b] and [c], listed in two pages. *)
Lemma deploy_end_to_end_witness :
  ∃ sched s,
    main Scenario.coerceEq Sample.contents Sample.twoPages Sample.readdir
      Sample.stat (λ _, false) 4 Sample.remote sched = Some s
    ∧ chain s = Fulfilled.
Proof.
  destruct (deploy_end_to_end Scenario.coerceEq Sample.contents
              Sample.twoPages Sample.readdir Sample.stat (λ _, false) 4
              Sample.remote [Sample.firstPage] Sample.lastPage
              ["dist/index.html"; "dist/css/site.css"]) as (_ & _ & H).
  - intros d names. unfold Sample.readdir.
    assert (∀ f, f = "index.html" ∨ f = "css" ∨ f = "site.css" →
                 entryName f) as He.
    { intros f [->|[->| ->]]; (split_and!; [done|by_compute|done..]). }
    repeat case_match; intros [= <-]; (split; [|by_compute]);
      repeat constructor; apply He; auto.
  - vm_compute. reflexivity.
  - simpl. done.
  - repeat constructor; done.
  - reflexivity.
  - simpl. lia.
  - by_compute.
  - apply H.
    + intros p Hp. repeat (apply elem_of_cons in Hp as [->|Hp]; [by eexists|]).
      by apply elem_of_nil in Hp.
    + intros o e Ho He.
      repeat (apply elem_of_cons in Ho as [->|Ho]; [done|]).
      by apply elem_of_nil in Ho.
Defined.
